(** * Component runtime and overflow list of the storefront theme

    A shallow embedding of the browser-side runtime found in
    [assets/vessel-theme-loader.js]: the [Component] base class with its
    ref scan, the process-wide event-delegation registry, and the
    [OverflowList] reflow algorithm, followed by the properties that the
    specification states about them. The loader at the head of that
    file, its header-height helper, and the pure helpers of
    [assets/utilities.js], [assets/paginated-list.js] and
    [assets/castle-theme-features.js] are embedded as well, with
    further properties of all of these.

    Conventions.
    - JavaScript strings are [string] (sequences of 8-bit code units).
    - DOM nodes are addressed by their position in the document tree, so
      that [===] on nodes is equality of positions.
    - What the browser computes (layout boxes, CSS selector matching,
      the behaviour of component methods) is an explicit argument of the
      functions that consult it.
    - Pixel measurements are rationals; comparisons and [Math.round] act
      on them exactly. *)

From Stdlib Require Import ZArith QArith Qround Qminmax String Ascii List Lia Bool.
From Stdlib Require Import DecimalString DecimalNat.
From stdpp Require Import base option gmap strings list.
From Equations Require Import Equations.
Import ListNotations.

Local Open Scope string_scope.
Local Open Scope list_scope.

Set Warnings "-register-all,-clear-no-such-hyp".

(* ===================================================================== *)
(** * JavaScript values and string primitives *)
(* ===================================================================== *)

(** [WhiteSpace] and [LineTerminator] code units below 256: TAB, LF, VT,
    FF, CR, SP and NBSP. [String.prototype.trim], [parseInt] and
    [Number] skip exactly these (among 8-bit code units). *)
Definition isWhiteSpace (c : ascii) : bool :=
  let n := nat_of_ascii c in
  (n =? 9)%nat || (n =? 10)%nat || (n =? 11)%nat || (n =? 12)%nat
  || (n =? 13)%nat || (n =? 32)%nat || (n =? 160)%nat.

Definition isDigit (c : ascii) : bool :=
  let n := nat_of_ascii c in (48 <=? n)%nat && (n <=? 57)%nat.

Definition digitValue (c : ascii) : Z := Z.of_nat (nat_of_ascii c) - 48.

Fixpoint skipWhiteSpace (s : string) : string :=
  match s with
  | String c rest => if isWhiteSpace c then skipWhiteSpace rest else s
  | EmptyString => s
  end.

(** Longest prefix of decimal digits, accumulated left to right. *)
Fixpoint leadingDigits (s : string) (acc : option Z) : option Z :=
  match s with
  | String c rest =>
      if isDigit c
      then leadingDigits rest (Some (10 * default 0%Z acc + digitValue c)%Z)
      else acc
  | EmptyString => acc
  end.

(** [parseInt(str, 10)]: leading white space is skipped, one sign is
    accepted, then the longest run of decimal digits is read. [None] is
    [NaN]. *)
Definition parseInt10 (str : string) : option Z :=
  match skipWhiteSpace str with
  | String "-" rest => Z.opp <$> leadingDigits rest None
  | String "+" rest => leadingDigits rest None
  | s => leadingDigits s None
  end.

(** [Math.round]: the integer nearest to [x], ties towards +infinity. *)
Definition Math_round (x : Q) : Z := Qfloor (x + (1 # 2)).

(* ===================================================================== *)
(** * Overflow list *)
(* ===================================================================== *)

(** Light-DOM children of an [<overflow-list>] are identified by a
    number; their [slot] property names the shadow slot they are
    assigned to. *)
Definition Elem := nat.

Inductive Slot : Type :=
  | DefaultSlot              (* [slot:not([name])], whose [name] is empty *)
  | OverflowSlot             (* [slot[name="overflow"]] *)
  | NamedSlot (name : string). (* any other slot, e.g. ["more"] *)

Global Instance Slot_eq_dec : EqDecision Slot.
Proof. solve_decision. Defined.

(** The detail carried by an [OverflowMinimumEvent]. *)
Record OverflowMinimumEvent := { minimumReached : bool }.

(** Inline styles and [hidden] flags that the class writes. *)
Record Styles := {
  list_height         : option Q;     (* [list.style.height], in px *)
  list_counter_reset  : option nat;   (* [counter-reset: overflow-count n] *)
  overflow_count      : option nat;   (* [--overflow-count] on the host *)
  more_hidden         : bool;
  placeholder_hidden  : bool;
  placeholder_width   : option Q;     (* [placeholder.style.width], in px *)
  placeholder_display_none : bool;
}.

(** Registrations of [#resizeObserver] (a [ResizeNotifier]) and
    [#mutationObserver]. *)
Record Observers := {
  resize_observing     : bool;
  notifier_initialized : bool;        (* [ResizeNotifier.#initialized] *)
  mutation_observing   : bool;
}.

(** State of an initialised overflow list (its private [#refs] are set):
    the attributes, styles and private fields that the class reads or
    writes, the observer registrations, the reflow callbacks handed to
    the scheduler, and the events dispatched so far. *)
Record OverflowList := {
  children             : list (Elem * Slot);
  attr_disabled        : option string;
  attr_minimum_items   : option string;
  attr_minimum_reached : bool;
  styles               : Styles;
  observers            : Observers;
  scheduled            : bool;        (* [#scheduled] *)
  pending              : nat;         (* callbacks held by the scheduler *)
  lastDimensions       : option Z * option Z;
  dispatched           : list OverflowMinimumEvent;
}.

(** What the layout engine answers during one run of [#reflowItems]. *)
Record Geometry := {
  firstChildHeight : option Q;
      (* [this.firstElementChild?.getBoundingClientRect().height] *)
  rootTop    : Q;                     (* [list.getBoundingClientRect()] *)
  rootWidth  : Q;
  rootHeight : Q;
  topPlain   : Elem -> Q;
      (* top edge of an item while the "more" slot is hidden *)
  topMoreFirst : option Elem -> Elem -> Q;
      (* top edge of an item while the "more" slot, and the given forced
         item, carry [order: -1] *)
  clientWidth : Elem -> Q;
}.

Definition set_children (cs : list (Elem * Slot)) (st : OverflowList) : OverflowList :=
  {| children := cs; attr_disabled := attr_disabled st;
     attr_minimum_items := attr_minimum_items st;
     attr_minimum_reached := attr_minimum_reached st;
     styles := styles st; observers := observers st;
     scheduled := scheduled st; pending := pending st;
     lastDimensions := lastDimensions st; dispatched := dispatched st |}.

Definition set_styles (s : Styles) (st : OverflowList) : OverflowList :=
  {| children := children st; attr_disabled := attr_disabled st;
     attr_minimum_items := attr_minimum_items st;
     attr_minimum_reached := attr_minimum_reached st;
     styles := s; observers := observers st;
     scheduled := scheduled st; pending := pending st;
     lastDimensions := lastDimensions st; dispatched := dispatched st |}.

Definition set_observers (o : Observers) (st : OverflowList) : OverflowList :=
  {| children := children st; attr_disabled := attr_disabled st;
     attr_minimum_items := attr_minimum_items st;
     attr_minimum_reached := attr_minimum_reached st;
     styles := styles st; observers := o;
     scheduled := scheduled st; pending := pending st;
     lastDimensions := lastDimensions st; dispatched := dispatched st |}.

Definition set_scheduler (flag : bool) (queue : nat) (st : OverflowList) : OverflowList :=
  {| children := children st; attr_disabled := attr_disabled st;
     attr_minimum_items := attr_minimum_items st;
     attr_minimum_reached := attr_minimum_reached st;
     styles := styles st; observers := observers st;
     scheduled := flag; pending := queue;
     lastDimensions := lastDimensions st; dispatched := dispatched st |}.

Definition set_lastDimensions (d : option Z * option Z) (st : OverflowList)
  : OverflowList :=
  {| children := children st; attr_disabled := attr_disabled st;
     attr_minimum_items := attr_minimum_items st;
     attr_minimum_reached := attr_minimum_reached st;
     styles := styles st; observers := observers st;
     scheduled := scheduled st; pending := pending st;
     lastDimensions := d; dispatched := dispatched st |}.

Definition set_disabled (v : option string) (st : OverflowList) : OverflowList :=
  {| children := children st; attr_disabled := v;
     attr_minimum_items := attr_minimum_items st;
     attr_minimum_reached := attr_minimum_reached st;
     styles := styles st; observers := observers st;
     scheduled := scheduled st; pending := pending st;
     lastDimensions := lastDimensions st; dispatched := dispatched st |}.

(** [slot.assignedElements()]. *)
Definition assignedElements (s : Slot) (st : OverflowList) : list Elem :=
  map fst (filter (fun c => bool_decide (snd c = s)) (children st)).

(** [ResizeNotifier.disconnect], which also clears the notifier's
    [#initialized], followed by [MutationObserver.disconnect]. *)
Definition disconnectObservers (st : OverflowList) : OverflowList :=
  set_observers {| resize_observing := false; notifier_initialized := false;
                   mutation_observing := false |} st.

(** [#resizeObserver.observe(this)] and [#mutationObserver.observe(this, ...)]. *)
Definition observe (st : OverflowList) : OverflowList :=
  set_observers {| resize_observing := true;
                   notifier_initialized := notifier_initialized (observers st);
                   mutation_observing := true |} st.

(** [element.slot = s]. *)
Definition setSlot (element : Elem) (s : Slot) (cs : list (Elem * Slot))
  : list (Elem * Slot) :=
  map (fun c => if bool_decide (fst c = element) then (element, s) else c) cs.

(** [#moveItemsToDefaultSlot]. *)
Definition moveItemsToDefaultSlot (st : OverflowList) : OverflowList :=
  set_children
    (fold_left (fun cs element => setSlot element DefaultSlot cs)
               (assignedElements OverflowSlot st) (children st)) st.

(** The getter [minimumItems]: [null] is the outer [None], [NaN] the
    inner one. *)
Definition minimumItems (st : OverflowList) : option (option Z) :=
  match attr_minimum_items st with
  | None | Some "" => None
  | Some value => Some (parseInt10 value)
  end.

(** [n < m] on numbers, false when [m] is [NaN]. *)
Definition lessThan (n : nat) (m : option Z) : bool :=
  match m with Some z => (Z.of_nat n <? z)%Z | None => false end.

(** [#updateMinimumReached]: toggles the [minimum-reached] attribute and
    dispatches an [OverflowMinimumEvent]. *)
Definition updateMinimumReached (visibleElements : list Elem) (st : OverflowList)
  : OverflowList :=
  match minimumItems st with
  | Some minimum =>
      let reached := lessThan (length visibleElements) minimum in
      {| children := children st; attr_disabled := attr_disabled st;
         attr_minimum_items := attr_minimum_items st;
         attr_minimum_reached := reached;
         styles := styles st; observers := observers st;
         scheduled := scheduled st; pending := pending st;
         lastDimensions := lastDimensions st;
         dispatched := dispatched st ++ [ {| minimumReached := reached |} ] |}
  | None => st
  end.

(** [Array.prototype.includes] and [indexOf] on element lists. *)
Definition includes (e : Elem) (l : list Elem) : bool := bool_decide (e ∈ l).

Fixpoint indexOf (e : Elem) (l : list Elem) : option nat :=
  match l with
  | [] => None
  | x :: rest => if bool_decide (x = e) then Some 0%nat else S <$> indexOf e rest
  end.

(** [getVisibleElements]: the items whose top edge is not below the top
    edge of the list, under the given measurement. *)
Definition getVisibleElements (g : Geometry) (top : Elem -> Q) (elements : list Elem)
  : list Elem :=
  filter (fun el => Qle_bool (top el) (rootTop g)) elements.

(** Whether [#reflowItems] measures a second time, with the "more" slot
    in front. *)
Definition needsMore (g : Geometry) (lastVisibleElement : option Elem)
    (elements : list Elem) : bool :=
  negb (length (getVisibleElements g (topPlain g) elements) =? length elements)%nat
  || bool_decide (is_Some lastVisibleElement).

(** The value of the variable [visibleElements] when [#reflowItems]
    reaches the computation of [overflowingElements]. *)
Definition visibleElements (g : Geometry) (lastVisibleElement : option Elem)
    (elements : list Elem) : list Elem :=
  let visible := getVisibleElements g (topPlain g) elements in
  if needsMore g lastVisibleElement elements then
    let visible := getVisibleElements g (topMoreFirst g lastVisibleElement) elements in
    match lastVisibleElement with
    | Some last =>
        match indexOf last visible with
        | Some visibleIndex => delete visibleIndex visible ++ [last]
        | None => visible
        end
    | None => visible
    end
  else visible.

Definition overflowingElements (g : Geometry) (lastVisibleElement : option Elem)
    (elements : list Elem) : list Elem :=
  filter (fun element =>
            negb (includes element (visibleElements g lastVisibleElement elements)))
         elements.

(** The loop [for (const element of elements) element.slot = ...]. *)
Definition assignSlots (elements overflowing : list Elem) (cs : list (Elem * Slot))
  : list (Elem * Slot) :=
  fold_left
    (fun cs element =>
       setSlot element (if includes element overflowing then OverflowSlot
                        else DefaultSlot) cs)
    elements cs.

Definition truthy (x : option Q) : bool :=
  match x with Some q => negb (Qeq_bool q 0) | None => false end.

(** [#reflowItems]. Styles that are set and cleared again before the
    function returns (the list's [overflow], the [order] of the "more"
    slot and of the forced item) only influence the measurements, which
    [g] supplies. *)
Definition reflowItems (g : Geometry) (lastVisibleElement : option Elem)
    (st : OverflowList) : OverflowList :=
  let st := disconnectObservers st in
  let height := firstChildHeight g in
  let st := moveItemsToDefaultSlot st in
  let elements := assignedElements DefaultSlot st in
  let st := set_lastDimensions
              (Some (Math_round (rootWidth g)), Some (Math_round (rootHeight g))) st in
  let visible := visibleElements g lastVisibleElement elements in
  let overflowing := overflowingElements g lastVisibleElement elements in
  let hasOverflow := negb (length overflowing =? 0)%nat in
  let placeholderWidth :=
    match overflowing with first :: _ => clientWidth g first | [] => 0%Q end in
  let st := set_children (assignSlots elements overflowing (children st)) st in
  let st :=
    set_styles
      {| list_height := if truthy height then height else list_height (styles st);
         list_counter_reset := Some (length overflowing);
         overflow_count := Some (length overflowing);
         more_hidden := negb hasOverflow;
         placeholder_hidden := negb hasOverflow;
         placeholder_width :=
           if hasOverflow then Some placeholderWidth
           else placeholder_width (styles st);
         placeholder_display_none := placeholder_display_none (styles st) |} st in
  let st := if hasOverflow then updateMinimumReached visible st else st in
  observe st.

(** [#reset]. *)
Definition reset (st : OverflowList) : OverflowList :=
  let st := disconnectObservers st in
  let st := moveItemsToDefaultSlot st in
  set_styles
    {| list_height := None;
       list_counter_reset := list_counter_reset (styles st);
       overflow_count := Some 0%nat;
       more_hidden := more_hidden (styles st);
       placeholder_hidden := placeholder_hidden (styles st);
       placeholder_width := placeholder_width (styles st);
       placeholder_display_none := placeholder_display_none (styles st) |} st.

(** [attributeChangedCallback] for the observed attribute [disabled];
    the other observed attribute, [minimum-items], has no reaction. *)
Definition attributeChangedCallback_disabled (g : Geometry) (newValue : option string)
    (st : OverflowList) : OverflowList :=
  match newValue with
  | Some "true" => reset st
  | _ => reflowItems g None st
  end.

(** [this.setAttribute('disabled', v)] with its custom-element reaction. *)
Definition setAttribute_disabled (g : Geometry) (v : string) (st : OverflowList)
  : OverflowList :=
  attributeChangedCallback_disabled g (Some v) (set_disabled (Some v) st).

(** [showAll]. The reaction to [disabled="true"] never measures, so the
    geometry handed to it is immaterial. *)
Definition showAll (g : Geometry) (st : OverflowList) : OverflowList :=
  let st :=
    set_styles
      {| list_height := list_height (styles st);
         list_counter_reset := list_counter_reset (styles st);
         overflow_count := overflow_count (styles st);
         more_hidden := more_hidden (styles st);
         placeholder_hidden := placeholder_hidden (styles st);
         placeholder_width := Some 0%Q;
         placeholder_display_none := true |} st in
  setAttribute_disabled g "true" st.

(** Entries handed to [#handleChange]: resize observer entries carry the
    content rectangle, mutation records carry nothing that is read. *)
Inductive Entry : Type :=
  | ResizeObserverEntry (width height : Q)
  | MutationRecord.

(** The loop of [#handleChange] over the entries: it stops at the first
    entry that is no [ResizeObserverEntry]. *)
Fixpoint readEntries (entries : list Entry) (acc : option (Z * Z)) : option (Z * Z) :=
  match entries with
  | ResizeObserverEntry w h :: rest => readEntries rest (Some (Math_round w, Math_round h))
  | MutationRecord :: _ => acc
  | [] => acc
  end.

(** [#handleChange]: returns the state after the callback; a reflow
    that it schedules is queued in [pending]. *)
Definition handleChange (entries : list Entry) (st : OverflowList) : OverflowList :=
  if scheduled st then st
  else
    match readEntries entries None with
    | Some (width, height) =>
        if (width =? 0)%Z || (height =? 0)%Z
           || bool_decide (lastDimensions st = (Some width, Some height))
        then st
        else set_scheduler true (S (pending st))
               (set_lastDimensions (Some width, Some height) st)
    | None => set_scheduler true (S (pending st)) st
    end.

(** The callback passed to [schedule]: [#reflowItems()] and then
    [#scheduled = false]. *)
Definition scheduledReflow (g : Geometry) (st : OverflowList) : OverflowList :=
  let st := reflowItems g None st in
  set_scheduler false (pending st) st.

(** What can happen to an initialised list between two of its own
    method calls. *)
Inductive Step : Type :=
  | ResizeNotification (entries : list Entry)
      (* the browser reports a size to the resize observer *)
  | MutationNotification
      (* the browser reports a child-list change *)
  | SchedulerRuns (g : Geometry)
      (* the scheduler runs the oldest callback it holds *)
  | ReflowRequested (g : Geometry) (lastVisibleElement : Elem)
      (* a [ReflowEvent] reaches the list *)
  | ShowAll (g : Geometry).

Definition step (s : Step) (st : OverflowList) : OverflowList :=
  match s with
  | ResizeNotification entries =>
      if resize_observing (observers st) then
        if notifier_initialized (observers st) then handleChange entries st
        else set_observers
               {| resize_observing := true; notifier_initialized := true;
                  mutation_observing := mutation_observing (observers st) |} st
      else st
  | MutationNotification =>
      if mutation_observing (observers st) then handleChange [MutationRecord] st
      else st
  | SchedulerRuns g =>
      match pending st with
      | S n => scheduledReflow g (set_scheduler (scheduled st) n st)
      | O => st
      end
  | ReflowRequested g last => reflowItems g (Some last) st
  | ShowAll g => showAll g st
  end.

Definition run (steps : list Step) (st : OverflowList) : OverflowList :=
  fold_left (fun st s => step s st) steps st.

(** A list right after [#initialize]: the children as parsed, nothing
    observed or scheduled yet, then the first [#reflowItems()]. *)
Definition initialize (g : Geometry) (cs : list (Elem * Slot))
    (minimum_items : option string) : OverflowList :=
  reflowItems g None
    {| children := cs; attr_disabled := None;
       attr_minimum_items := minimum_items; attr_minimum_reached := false;
       styles := {| list_height := None; list_counter_reset := None;
                    overflow_count := None; more_hidden := false;
                    placeholder_hidden := false; placeholder_width := None;
                    placeholder_display_none := false |};
       observers := {| resize_observing := false; notifier_initialized := false;
                       mutation_observing := false |};
       scheduled := false; pending := 0%nat;
       lastDimensions := (None, None); dispatched := [] |}.

(* ===================================================================== *)
(** * Document tree *)
(* ===================================================================== *)

(** How an element answers the [instanceof] tests of the runtime. *)
Inductive ElementClass : Type :=
  | ComponentInstance     (* [instanceof Component] (hence [HTMLElement]) *)
  | HTMLElementInstance   (* [instanceof HTMLElement], not [Component] *)
  | ForeignElement.       (* an [Element] that is no [HTMLElement] *)

Global Instance ElementClass_eq_dec : EqDecision ElementClass.
Proof. solve_decision. Defined.

(** Element nodes. An [Element] may host an open shadow root, given by
    the element children of that root. A [Template] is an
    [HTMLTemplateElement]: its content is a separate fragment, not part
    of the tree. Other node kinds are not represented; they carry no
    attribute and are never scanned. *)
Inductive Node : Type :=
  | Element (cls : ElementClass) (tagName : string)
            (attributes : list (string * string))
            (shadowRoot : option (list Node)) (children : list Node)
  | Template (attributes : list (string * string)) (content : list Node).

Definition node_class (n : Node) : ElementClass :=
  match n with Element cls _ _ _ _ => cls | Template _ _ => HTMLElementInstance end.
Definition node_tagName (n : Node) : string :=
  match n with Element _ t _ _ _ => t | Template _ _ => "TEMPLATE" end.
Definition node_attributes (n : Node) : list (string * string) :=
  match n with Element _ _ a _ _ => a | Template a _ => a end.
Definition node_shadowRoot (n : Node) : option (list Node) :=
  match n with Element _ _ _ s _ => s | Template _ _ => None end.
Definition node_children (n : Node) : list Node :=
  match n with Element _ _ _ _ cs => cs | Template _ _ => [] end.

(** A node is named by the steps that lead to it from the document
    element, innermost step first. *)
Inductive PathStep : Type :=
  | Child (i : nat)          (* i-th element child *)
  | ShadowChild (i : nat).   (* i-th element child of the shadow root *)

Global Instance PathStep_eq_dec : EqDecision PathStep.
Proof. solve_decision. Defined.

Definition Path := list PathStep.

Inductive NodeRef : Type :=
  | DocumentNode
  | ElementAt (p : Path)
  | ShadowRootOf (host : Path).

Global Instance NodeRef_eq_dec : EqDecision NodeRef.
Proof. solve_decision. Defined.

Fixpoint descend (n : Node) (steps : list PathStep) : option Node :=
  match steps with
  | [] => Some n
  | Child i :: rest =>
      match node_children n !! i with
      | Some c => descend c rest
      | None => None
      end
  | ShadowChild i :: rest =>
      match node_shadowRoot n with
      | Some sr => match sr !! i with
                   | Some c => descend c rest
                   | None => None
                   end
      | None => None
      end
  end.

(** The element found at a path of the document whose root element is
    [doc]. *)
Definition nodeAt (doc : Node) (p : Path) : option Node := descend doc (rev p).

(** [getAttribute] and [hasAttribute] on an attribute list. *)
Fixpoint lookupAttribute (name : string) (attrs : list (string * string))
  : option string :=
  match attrs with
  | [] => None
  | (k, v) :: rest => if bool_decide (k = name) then Some v
                      else lookupAttribute name rest
  end.

Definition getAttribute (doc : Node) (p : Path) (name : string) : option string :=
  match nodeAt doc p with
  | Some n => lookupAttribute name (node_attributes n)
  | None => None
  end.

Definition hasAttribute (doc : Node) (p : Path) (name : string) : bool :=
  bool_decide (is_Some (getAttribute doc p name)).

(** Tree order. [forest f step p i cs] lists, child after child, what
    [f] lists for each child. *)
Definition forest (f : Node -> Path -> list Path) (step : nat -> PathStep) (p : Path)
  : nat -> list Node -> list Path :=
  fix go (i : nat) (cs : list Node) : list Path :=
    match cs with
    | [] => []
    | c :: rest => f c (step i :: p) ++ go (S i) rest
    end.

(** The element at [p] followed by its descendants, in tree order.
    Shadow trees are separate trees and are not entered. *)
Fixpoint subtree (n : Node) (p : Path) : list Path :=
  p :: match n with
       | Element _ _ _ _ cs => forest subtree Child p 0%nat cs
       | Template _ _ => []
       end.

(** The elements over which [root.querySelectorAll] ranges: the
    descendants of [root] within its own tree, in tree order. *)
Definition descendants (doc : Node) (root : NodeRef) : list Path :=
  match root with
  | DocumentNode => subtree doc []
  | ElementAt p =>
      match nodeAt doc p with
      | Some n => forest subtree Child p 0%nat (node_children n)
      | None => []
      end
  | ShadowRootOf p =>
      match nodeAt doc p with
      | Some n => match node_shadowRoot n with
                  | Some sr => forest subtree ShadowChild p 0%nat sr
                  | None => []
                  end
      | None => []
      end
  end.

(** [root.querySelectorAll('[name]')]. *)
Definition querySelectorAll_attr (doc : Node) (root : NodeRef) (name : string)
  : list Path :=
  filter (fun p => hasAttribute doc p name) (descendants doc root).

(** [element.closest(...)] for a selector that accepts the elements
    satisfying [matches]: the element itself or the nearest
    [parentElement] ancestor that matches. A shadow root and the
    document are no elements, so the walk ends there. *)
Fixpoint closest (matches : Path -> bool) (p : Path) : option Path :=
  if matches p then Some p
  else match p with
       | Child _ :: parent => closest matches parent
       | _ => None
       end.

(* --------------------------------------------------------------------- *)
(** ** String helpers *)

Definition lowerCaseUnit (c : ascii) : ascii :=
  let n := nat_of_ascii c in
  if ((65 <=? n)%nat && (n <=? 90)%nat)
     || ((192 <=? n)%nat && (n <=? 222)%nat && negb (n =? 215)%nat)
  then ascii_of_nat (n + 32) else c.

(** [String.prototype.toLowerCase] on 8-bit code units. *)
Fixpoint toLowerCase (s : string) : string :=
  match s with
  | EmptyString => EmptyString
  | String c rest => String (lowerCaseUnit c) (toLowerCase rest)
  end.

Definition startsWith (s pre : string) : bool := String.prefix pre s.

Definition endsWith (s suf : string) : bool :=
  (String.length suf <=? String.length s)%nat
  && bool_decide (substring (String.length s - String.length suf)
                            (String.length suf) s = suf).

(** [s.slice(0, -2)]. *)
Definition sliceOffLastTwo (s : string) : string :=
  substring 0 (String.length s - 2) s.

(* ===================================================================== *)
(** * Component: ref scan *)
(* ===================================================================== *)

(** [node instanceof Component]. *)
Definition instanceofComponent (doc : Node) (node : NodeRef) : bool :=
  match node with
  | ElementAt p =>
      match nodeAt doc p with
      | Some n => bool_decide (node_class n = ComponentInstance)
      | None => false
      end
  | _ => false
  end.

(** [node instanceof HTMLElement && node.tagName.toLowerCase().endsWith('-component')]. *)
Definition hasComponentTag (doc : Node) (node : NodeRef) : bool :=
  match node with
  | ElementAt p =>
      match nodeAt doc p with
      | Some n => negb (bool_decide (node_class n = ForeignElement))
                  && endsWith (toLowerCase (node_tagName n)) "-component"
      | None => false
      end
  | _ => false
  end.

(** [getAncestor]: the parent node, or the host when the node is a
    shadow root. *)
Definition getAncestor (node : NodeRef) : option NodeRef :=
  match node with
  | ElementAt (Child _ :: parent) => Some (ElementAt parent)
  | ElementAt (ShadowChild _ :: host) => Some (ShadowRootOf host)
  | ElementAt [] => Some DocumentNode
  | ShadowRootOf host => Some (ElementAt host)
  | DocumentNode => None
  end.

(** Height of a node above the document, which [getAncestor] lowers. *)
Definition height (node : NodeRef) : nat :=
  match node with
  | DocumentNode => 0
  | ElementAt p => 2 * length p + 1
  | ShadowRootOf host => 2 * length host + 2
  end.

(** A value together with the equation that names it. *)
Definition inspect {A : Type} (a : A) : { b : A | a = b } := exist _ a eq_refl.

(** [getClosestComponent], started on a node (the [null] case is the
    caller's [None]). *)
Equations getClosestComponent (doc : Node) (node : NodeRef) : option NodeRef
  by wf (height node) lt :=
  getClosestComponent doc node with instanceofComponent doc node := {
    | true => Some node
    | false with hasComponentTag doc node := {
        | true => Some node
        | false with inspect (getAncestor node) := {
            | exist _ (Some ancestor) Hancestor => getClosestComponent doc ancestor
            | exist _ None _ => None } } }.
Next Obligation.
  destruct node as [|[|[i|i] p]|h]; simpl in *; inversion Hancestor; subst; simpl; lia.
Qed.

(** [#isDescendant], for the component at [this]. *)
Definition isDescendant (doc : Node) (this : Path) (node : NodeRef) : bool :=
  match getAncestor node with
  | Some ancestor =>
      bool_decide (getClosestComponent doc ancestor = Some (ElementAt this))
  | None => false
  end.

(** The getter [roots]. *)
Definition roots (doc : Node) (this : Path) : list NodeRef :=
  match nodeAt doc this with
  | Some n => match node_shadowRoot n with
              | Some _ => [ElementAt this; ShadowRootOf this]
              | None => [ElementAt this]
              end
  | None => [ElementAt this]
  end.

(** [Set.prototype.add] on a set kept in insertion order. *)
Definition setAdd (acc : list Path) (element : Path) : list Path :=
  if bool_decide (element ∈ acc) then acc else acc ++ [element].

(** The set [elements] of [#updateRefs], in iteration order. *)
Definition scannedElements (doc : Node) (this : Path) : list Path :=
  fold_left
    (fun acc root =>
       fold_left
         (fun acc element =>
            if isDescendant doc this (ElementAt element)
            then setAdd acc element else acc)
         (querySelectorAll_attr doc root "ref") acc)
    (roots doc this) [].

(** A ref is a single element or, for a name written [name[]], the
    array of the elements that carry it. *)
Inductive RefValue : Type :=
  | Single (element : Path)
  | Many (elements : list Path).

Global Instance RefValue_eq_dec : EqDecision RefValue.
Proof. solve_decision. Defined.

(** Names that every object literal inherits from [Object.prototype];
    the [in] operator finds them. *)
Definition objectPrototypeKeys : list string :=
  [ "constructor"; "__defineGetter__"; "__defineSetter__"; "hasOwnProperty";
    "__lookupGetter__"; "__lookupSetter__"; "isPrototypeOf";
    "propertyIsEnumerable"; "toString"; "valueOf"; "__proto__";
    "toLocaleString" ].

(** [name in refs] for an object literal with the given own properties. *)
Definition js_in (name : string) (refs : gmap string RefValue) : bool :=
  bool_decide (is_Some (refs !! name)) || bool_decide (name ∈ objectPrototypeKeys).

(** One turn of the loop [for (const ref of elements)]. An assignment to
    the key [__proto__] would not create a property but replace the
    prototype of [refs]; objects with a replaced prototype are outside
    this model, and the turn answers [None]. *)
Definition addRef (doc : Node) (refs : gmap string RefValue) (ref : Path)
  : option (gmap string RefValue) :=
  let refName := default "" (getAttribute doc ref "ref") in
  let isArray := endsWith refName "[]" in
  let path := if isArray then sliceOffLastTwo refName else refName in
  if bool_decide (path = "__proto__") then None
  else if isArray then
    let array := match refs !! path with Some (Many a) => a | _ => [] end in
    Some (<[path := Many (array ++ [ref])]> refs)
  else Some (<[path := Single ref]> refs).

Fixpoint collectRefs (doc : Node) (elements : list Path) (refs : gmap string RefValue)
  : option (gmap string RefValue) :=
  match elements with
  | [] => Some refs
  | ref :: rest =>
      match addRef doc refs ref with
      | Some refs' => collectRefs doc rest refs'
      | None => None
      end
  end.

(** The ref object built by [#updateRefs] before the required refs are
    checked. *)
Definition scannedRefs (doc : Node) (this : Path) : option (gmap string RefValue) :=
  collectRefs doc (scannedElements doc this) ∅.

(** Errors thrown by the runtime. *)
Inductive Exception : Type :=
  | MissingRefError (message : string)
  | SyntaxError (selector : string)
  | MethodError (what : string).

Global Instance Exception_eq_dec : EqDecision Exception.
Proof. solve_decision. Defined.

Definition quote : string := String (ascii_of_nat 34) EmptyString.

(** The message built by the constructor of [MissingRefError]. *)
Definition missingRefMessage (ref tagName : string) : string :=
  "Required ref " ++ quote ++ ref ++ quote ++ " not found in component "
  ++ toLowerCase tagName.

(** The first required ref that [in] does not find. *)
Fixpoint firstMissing (requiredRefs : list string) (refs : gmap string RefValue)
  : option string :=
  match requiredRefs with
  | [] => None
  | ref :: rest => if js_in ref refs then firstMissing rest refs else Some ref
  end.

(** Result of [#updateRefs]. *)
Inductive RefsOutcome : Type :=
  | RefsReplaced (refs : gmap string RefValue)   (* [this.refs = refs] *)
  | RefsThrow (e : Exception)
  | RefsPrototypeReplaced.                       (* see [addRef] *)

(** [#updateRefs]; [requiredRefs] is [None] when the field is undefined. *)
Definition updateRefs (doc : Node) (this : Path) (requiredRefs : option (list string))
  : RefsOutcome :=
  match scannedRefs doc this with
  | None => RefsPrototypeReplaced
  | Some refs =>
      match requiredRefs with
      | Some ((_ :: _) as required) =>
          match firstMissing required refs with
          | Some ref =>
              RefsThrow (MissingRefError
                           (missingRefMessage ref
                              (default "" (node_tagName <$> nodeAt doc this))))
          | None => RefsReplaced refs
          end
      | _ => RefsReplaced refs
      end
  end.

(* ===================================================================== *)
(** * Data carried by a binding attribute *)
(* ===================================================================== *)

(** A JavaScript number, given by the mathematical value of the literal
    it was read from (sign kept apart, so that [-0] is told from [0]).
    The engine rounds that value to the nearest double, which changes
    nothing for integers below 2^53. *)
Inductive JsNumber : Type :=
  | Finite (negative : bool) (magnitude : Q)
  | Infinity (negative : bool).

Inductive Scalar : Type :=
  | VBoolean (b : bool)
  | VNumber (n : JsNumber)
  | VString (s : string).

(** The value of [parseData]: an object of scalars, or one scalar. *)
Inductive Data : Type :=
  | DObject (entries : gmap string Scalar)
  | DValue (v : Scalar).

Fixpoint spanUnits (p : ascii -> bool) (s : string) : string * string :=
  match s with
  | String c rest =>
      if p c then let '(a, b) := spanUnits p rest in (String c a, b)
      else (EmptyString, s)
  | EmptyString => (EmptyString, EmptyString)
  end.

Definition reverseString (s : string) : string :=
  string_of_list_ascii (rev (list_ascii_of_string s)).

(** [String.prototype.trim]. *)
Definition trim (s : string) : string :=
  reverseString (skipWhiteSpace (reverseString (skipWhiteSpace s))).

Definition hexValue (c : ascii) : option Z :=
  let n := nat_of_ascii c in
  if isDigit c then Some (Z.of_nat n - 48)%Z
  else if (65 <=? n)%nat && (n <=? 70)%nat then Some (Z.of_nat n - 55)%Z
  else if (97 <=? n)%nat && (n <=? 102)%nat then Some (Z.of_nat n - 87)%Z
  else None.

(** Value of a non-empty string of digits in the given radix; [None]
    when the string is empty or holds another character. *)
Fixpoint digitsValue (radix : Z) (s : string) (acc : option Z) : option Z :=
  match s with
  | EmptyString => acc
  | String c rest =>
      match hexValue c with
      | Some d => if (d <? radix)%Z
                  then digitsValue radix rest (Some (radix * default 0%Z acc + d)%Z)
                  else None
      | None => None
      end
  end.

(** [ExponentPart], optional: the exponent, or [None] when what follows
    the mantissa is no exponent part. *)
Definition exponentPart (s : string) : option Z :=
  match s with
  | EmptyString => Some 0%Z
  | String c rest =>
      if bool_decide (c = "e"%char) || bool_decide (c = "E"%char) then
        match rest with
        | String "-" ds => Z.opp <$> digitsValue 10 ds None
        | String "+" ds => digitsValue 10 ds None
        | ds => digitsValue 10 ds None
        end
      else None
  end.

(** [StrUnsignedDecimalLiteral] other than [Infinity]. *)
Definition unsignedDecimal (s : string) : option Q :=
  let '(int, afterInt) := spanUnits isDigit s in
  let '(frac, afterFrac) :=
    match afterInt with
    | String "." rest => spanUnits isDigit rest
    | _ => (EmptyString, afterInt)
    end in
  if bool_decide (int = EmptyString) && bool_decide (frac = EmptyString) then None
  else
    match exponentPart afterFrac with
    | Some e =>
        let mantissa := default 0%Z (digitsValue 10 (int ++ frac) (Some 0%Z)) in
        Some (Qred (inject_Z mantissa
                    * Qpower (inject_Z 10) (e - Z.of_nat (String.length frac))))
    | None => None
    end.

Definition strDecimalLiteral (s : string) : option JsNumber :=
  let '(negative, body) :=
    match s with
    | String "-" rest => (true, rest)
    | String "+" rest => (false, rest)
    | _ => (false, s)
    end in
  if bool_decide (body = "Infinity") then Some (Infinity negative)
  else Finite negative <$> unsignedDecimal body.

Definition nonDecimalIntegerLiteral (s : string) : option JsNumber :=
  match s with
  | String "0" (String c digits) =>
      let radix :=
        if bool_decide (c = "x"%char) || bool_decide (c = "X"%char) then Some 16%Z
        else if bool_decide (c = "o"%char) || bool_decide (c = "O"%char) then Some 8%Z
        else if bool_decide (c = "b"%char) || bool_decide (c = "B"%char) then Some 2%Z
        else None in
      match radix with
      | Some r => (fun v => Finite false (inject_Z v)) <$> digitsValue r digits None
      | None => None
      end
  | _ => None
  end.

(** [Number(str)] on a string; [None] is [NaN]. The value is the
    mathematical value of the literal; the engine's is the nearest
    double, the same for every integer up to 2^53. *)
Definition Number (str : string) : option JsNumber :=
  let s := trim str in
  if bool_decide (s = EmptyString) then Some (Finite false 0)
  else match nonDecimalIntegerLiteral s with
       | Some n => Some n
       | None => strDecimalLiteral s
       end.

(** [parseValue]. *)
Definition parseValue (str : string) : Scalar :=
  if bool_decide (str = "true") then VBoolean true
  else if bool_decide (str = "false") then VBoolean false
  else match Number str with
       | Some maybeNumber =>
           if negb (bool_decide (trim str = EmptyString)) then VNumber maybeNumber
           else VString str
       | None => VString str
       end.

(** [String.prototype.split] on a one-unit separator. *)
Fixpoint split (sep : ascii) (s : string) : list string :=
  match s with
  | EmptyString => [EmptyString]
  | String c rest =>
      if bool_decide (c = sep) then EmptyString :: split sep rest
      else match split sep rest with
           | first :: others => String c first :: others
           | [] => [String c EmptyString]
           end
  end.

(** Percent-decoding of the [application/x-www-form-urlencoded] parser,
    with [+] read as a space. The decoded bytes are kept as code units,
    which is what UTF-8 decoding yields on ASCII. *)
Fixpoint formDecode (s : string) : string :=
  match s with
  | EmptyString => EmptyString
  | String "+" rest => String " " (formDecode rest)
  | String "%" (String h (String l rest) as tail) =>
      match hexValue h, hexValue l with
      | Some a, Some b => String (ascii_of_nat (Z.to_nat (16 * a + b))) (formDecode rest)
      | _, _ => String "%" (formDecode tail)
      end
  | String c rest => String c (formDecode rest)
  end.

(** Splits at the first [=]; without one the value is empty. *)
Fixpoint nameAndValue (s : string) : string * string :=
  match s with
  | EmptyString => (EmptyString, EmptyString)
  | String c rest =>
      if bool_decide (c = "="%char) then (EmptyString, rest)
      else let '(n, v) := nameAndValue rest in (String c n, v)
  end.

(** [Array.from(new URLSearchParams(init).entries())]. *)
Definition urlSearchParams (init : string) : list (string * string) :=
  let query := match init with String "?" rest => rest | _ => init end in
  map (fun sequence => let '(n, v) := nameAndValue sequence in
                       (formDecode n, formDecode v))
      (filter (fun sequence => negb (bool_decide (sequence = EmptyString)))
              (split "&" query)).

(** [Object.fromEntries]: a later entry replaces an earlier one of the
    same key. *)
Definition fromEntries (entries : list (string * Scalar)) : gmap string Scalar :=
  fold_left (fun o kv => <[fst kv := snd kv]> o) entries ∅.

(** [parseData]. *)
Definition parseData (str : string) : Data :=
  match str with
  | String "?" data =>
      DObject (fromEntries
                 (map (fun kv => (fst kv, parseValue (snd kv))) (urlSearchParams data)))
  | String _ data => DValue (parseValue data)
  | EmptyString => DValue (parseValue EmptyString)
  end.

(* ===================================================================== *)
(** * Event delegation registry *)
(* ===================================================================== *)

(** ** The two regular expressions of the listener *)

(** A pattern is a sequence of character classes, each taken once or
    one or more times (greedily), anchored at the end of the input. *)
Inductive Quantifier : Type := Once | OneOrMore.

Definition Pattern := list ((ascii -> bool) * Quantifier).

(** Matches the whole of [s] against the pattern and returns what each
    class consumed. *)
Fixpoint matchToEnd (pattern : Pattern) : string -> option (list string) :=
  match pattern with
  | [] => fun s => match s with EmptyString => Some [] | _ => None end
  | (class, Once) :: rest =>
      fun s =>
        match s with
        | String c s' =>
            if class c then cons (String c EmptyString) <$> matchToEnd rest s'
            else None
        | EmptyString => None
        end
  | (class, OneOrMore) :: rest =>
      fix more (s : string) : option (list string) :=
        match s with
        | String c s' =>
            if class c then
              match more s' with
              | Some (m :: ms) => Some (String c m :: ms)
              | _ => cons (String c EmptyString) <$> matchToEnd rest s'
              end
            else None
        | EmptyString => None
        end
  end.

(** The leftmost match, as [String.prototype.match] finds it. *)
Fixpoint searchToEnd (pattern : Pattern) (s : string) : option (list string) :=
  match matchToEnd pattern s with
  | Some captures => Some captures
  | None => match s with
            | String _ rest => searchToEnd pattern rest
            | EmptyString => None
            end
  end.

Definition isDelimiter (c : ascii) : bool :=
  bool_decide (c = "/"%char) || bool_decide (c = "?"%char).

(** [/([\/\?][^\/\?]+)([\/\?][^\/\?]+)$/]. *)
Definition lastSegmentPattern : Pattern :=
  [ (isDelimiter, Once); (fun c => negb (isDelimiter c), OneOrMore);
    (isDelimiter, Once); (fun c => negb (isDelimiter c), OneOrMore) ].

(** [matches ? matches[2] : null] for [value.match(...)]. *)
Definition lastSegment (value : string) : option string :=
  match searchToEnd lastSegmentPattern value with
  | Some [_; _; delimiter; segment] => Some (delimiter ++ segment)%string
  | _ => None
  end.

(** Line terminators below 256, which [.] does not match. *)
Definition isLineTerminator (c : ascii) : bool :=
  let n := nat_of_ascii c in (n =? 10)%nat || (n =? 13)%nat.

Fixpoint dropUntilLineTerminator (s : string) : string :=
  match s with
  | String c rest => if isLineTerminator c then s else dropUntilLineTerminator rest
  | EmptyString => EmptyString
  end.

(** [method.replace(/\?.*/, '')]. *)
Fixpoint stripQuery (method : string) : string :=
  match method with
  | EmptyString => EmptyString
  | String c rest =>
      if bool_decide (c = "?"%char) then dropUntilLineTerminator rest
      else String c (stripQuery rest)
  end.

(** ** Events and pages *)

Inductive EventTarget : Type :=
  | TargetElement (p : Path)
  | TargetOther.            (* a target that is no [Element] *)

Global Instance EventTarget_eq_dec : EqDecision EventTarget.
Proof. solve_decision. Defined.

Record Event := {
  event_type         : string;
  event_target       : EventTarget;
  event_composedPath : option (list EventTarget);
      (* [None] where [composedPath] is not a function *)
  event_bubbles      : bool;
}.

(** The event handed to a component method: the event itself, or a
    proxy that answers [target] with the matched element. *)
Inductive EventArgument : Type :=
  | PlainEvent (e : Event)
  | ProxiedEvent (e : Event) (target : Path).

Inductive Argument : Type :=
  | ArgData (d : Data)
  | ArgEvent (e : EventArgument).

(** What a listener needs from the page: the document, the meaning of
    CSS selectors ([None] for a string that is no selector, on which
    [querySelector] and [closest] throw a [SyntaxError]), whether a
    property of an element is a function, and how calling it ends
    ([None]: it returns; [Some e]: it throws [e]). *)
Record Page := {
  document      : Node;
  parseSelector : string -> option (Path -> bool);
  isFunction    : Path -> string -> bool;
  callMethod    : Path -> string -> list Argument -> option Exception;
}.

Inductive Effect : Type :=
  | Invoke (instance : Path) (method : string) (args : list Argument)
  | ConsoleError (e : Exception).

(** How a listener ends: what it did, and the exception that left it,
    if any. *)
Record ListenerResult := {
  effects : list Effect;
  thrown  : option Exception;
}.

Definition events : list string :=
  ["click"; "change"; "select"; "focus"; "blur"; "submit"; "input";
   "keydown"; "keyup"; "toggle"].
Definition shouldBubble : list string := ["focus"; "blur"].
Definition expensiveEvents : list string := ["pointerenter"; "pointerleave"].

(** [getElement]. *)
Definition getElement (pg : Page) (event : Event) : option Path :=
  let target :=
    match event_composedPath event with
    | Some (first :: _) => first
    | _ => event_target event
    end in
  match target with
  | TargetOther => None
  | TargetElement target =>
      let attribute := ("on:" ++ event_type event)%string in
      if hasAttribute (document pg) target attribute then Some target
      else if bool_decide (event_type event ∈ expensiveEvents) then None
      else if event_bubbles event || bool_decide (event_type event ∈ shouldBubble)
      then closest (fun p => hasAttribute (document pg) p attribute) target
      else None
  end.

(** [document.querySelector(selector)]. *)
Definition querySelector (pg : Page) (selector : string)
  : Exception + option Path :=
  match parseSelector pg selector with
  | Some matches => inr (List.find matches (descendants (document pg) DocumentNode))
  | None => inl (SyntaxError selector)
  end.

(** [element.closest(selector)]. *)
Definition closestSelector (pg : Page) (element : Path) (selector : string)
  : Exception + option Path :=
  match parseSelector pg selector with
  | Some matches => inr (closest matches element)
  | None => inl (SyntaxError selector)
  end.

(** The expression bound to [instance] in the listener. *)
Definition resolveInstance (pg : Page) (element : Path) (selector : string)
  : Exception + option NodeRef :=
  if negb (bool_decide (selector = EmptyString)) then
    match (if startsWith selector "#" then querySelector pg selector
           else closestSelector pg element selector) with
    | inl e => inl e
    | inr found => inr (ElementAt <$> found)
    end
  else inr (getClosestComponent (document pg) (ElementAt element)).

(** The listener that [registerEventListeners] adds for [eventName]. *)
Definition listener (pg : Page) (eventName : string) (event : Event) : ListenerResult :=
  let attribute := ("on:" ++ eventName)%string in
  match getElement pg event with
  | None => {| effects := []; thrown := None |}
  | Some element =>
      let proxiedEvent :=
        if negb (bool_decide (event_target event = TargetElement element))
        then ProxiedEvent event element else PlainEvent event in
      let value := default "" (getAttribute (document pg) element attribute) in
      let parts := split "/" value in
      let selector := default "" (parts !! 0%nat) in
      let method := parts !! 1%nat in
      let data := lastSegment value in
      match resolveInstance pg element selector with
      | inl e => {| effects := []; thrown := Some e |}
      | inr instance =>
          match instance, method with
          | Some (ElementAt instance), Some (String _ _ as method) =>
              if instanceofComponent (document pg) (ElementAt instance) then
                let method := stripQuery method in
                if isFunction pg instance method then
                  let args :=
                    match data with
                    | Some data => [ArgData (parseData data); ArgEvent proxiedEvent]
                    | None => [ArgEvent proxiedEvent]
                    end in
                  match callMethod pg instance method args with
                  | None => {| effects := [Invoke instance method args];
                               thrown := None |}
                  | Some error =>
                      {| effects := [Invoke instance method args; ConsoleError error];
                         thrown := None |}
                  end
                else {| effects := []; thrown := None |}
              else {| effects := []; thrown := None |}
          | _, _ => {| effects := []; thrown := None |}
          end
      end
  end.

(** ** Registration *)

(** A call [document.addEventListener(eventName, ..., { capture })]. The
    callback is [listener] at that event name. *)
Record Registration := {
  reg_eventName : string;
  reg_capture   : bool;
}.

Global Instance Registration_eq_dec : EqDecision Registration.
Proof. solve_decision. Defined.

(** The module-level flag and the listeners added to the document. *)
Record Registry := {
  initialized : bool;
  listeners   : list Registration;
}.

(** [registerEventListeners]. *)
Definition registerEventListeners (r : Registry) : Registry :=
  if initialized r then r
  else {| initialized := true;
          listeners :=
            listeners r
            ++ map (fun eventName => {| reg_eventName := eventName;
                                        reg_capture := true |})
                   (events ++ expensiveEvents) |}.

(** The registry of a freshly loaded module. *)
Definition freshRegistry : Registry := {| initialized := false; listeners := [] |}.

(** What the document does with a dispatched event as far as the
    registry is concerned: every registered listener of that event type
    runs, one after the other. *)
Definition dispatch (pg : Page) (r : Registry) (event : Event) : list ListenerResult :=
  map (fun reg => listener pg (reg_eventName reg) event)
      (filter (fun reg => bool_decide (reg_eventName reg = event_type event))
              (listeners r)).

(* ===================================================================== *)
(** * Component: connection *)
(* ===================================================================== *)

(** Replaces the element found by following [steps] down from [n]. *)
Fixpoint graft (new : Node) (n : Node) (steps : list PathStep) : Node :=
  match steps with
  | [] => new
  | Child i :: rest =>
      match n with
      | Element c t a s cs => Element c t a s (alter (fun child => graft new child rest) i cs)
      | Template _ _ => n
      end
  | ShadowChild i :: rest =>
      match n with
      | Element c t a (Some sr) cs =>
          Element c t a (Some (alter (fun child => graft new child rest) i sr)) cs
      | _ => n
      end
  end.

(** Whether a child is matched by [template[shadowrootmode="open"]]. *)
Definition isOpenShadowTemplate (child : Node) : bool :=
  bool_decide (lookupAttribute "shadowrootmode" (node_attributes child) = Some "open")
  && match child with
     | Template _ _ => true
     | Element ForeignElement t _ _ _ => bool_decide (t = "template")
     | Element _ t _ _ _ => bool_decide (toLowerCase t = "template")
     end.

(** [DeclarativeShadowElement.connectedCallback]: an element without a
    shadow root whose first matching child is an [HTMLTemplateElement]
    receives a shadow root holding a copy of the template's content. *)
Definition hydrateShadowRoot (doc : Node) (this : Path) : Node :=
  match nodeAt doc this with
  | Some (Element c t a None cs) =>
      match List.find isOpenShadowTemplate cs with
      | Some (Template _ content) => graft (Element c t a (Some content) cs) doc (rev this)
      | _ => doc
      end
  | _ => doc
  end.

(** The state that connecting components acts on: the document, the
    registry, the [refs] field of every component, and the components
    whose mutation observer waits in [requestIdleCallback]. *)
Record Runtime := {
  rt_document : Node;
  rt_registry : Registry;
  rt_refs     : Path -> gmap string RefValue;
  rt_idle     : list Path;
}.

(** How a callback ends. [PrototypeReplaced] stands for the runs that
    leave the model (see [addRef]). *)
Inductive Completion : Type :=
  | Returned
  | Thrown (e : Exception)
  | PrototypeReplaced.

(** [Component.connectedCallback]. *)
Definition connectedCallback (this : Path) (requiredRefs : option (list string))
    (rt : Runtime) : Runtime * Completion :=
  (* super.connectedCallback() *)
  let doc := hydrateShadowRoot (rt_document rt) this in
  (* registerEventListeners() *)
  let registry := registerEventListeners (rt_registry rt) in
  (* this.#updateRefs() *)
  match updateRefs doc this requiredRefs with
  | RefsThrow e =>
      ({| rt_document := doc; rt_registry := registry;
          rt_refs := rt_refs rt; rt_idle := rt_idle rt |}, Thrown e)
  | RefsPrototypeReplaced =>
      ({| rt_document := doc; rt_registry := registry;
          rt_refs := rt_refs rt; rt_idle := rt_idle rt |}, PrototypeReplaced)
  | RefsReplaced refs =>
      (* requestIdleCallback(...) *)
      ({| rt_document := doc; rt_registry := registry;
          rt_refs := fun component =>
                       if bool_decide (component = this) then refs
                       else rt_refs rt component;
          rt_idle := rt_idle rt ++ [this] |}, Returned)
  end.

(** Components connecting one after the other; a callback that throws
    does not keep the next element from connecting. *)
Definition connectAll (components : list (Path * option (list string))) (rt : Runtime)
  : Runtime :=
  fold_left (fun rt c => fst (connectedCallback (fst c) (snd c) rt)) components rt.

(** The runtime of a page on which no component has connected yet. *)
Definition freshRuntime (doc : Node) : Runtime :=
  {| rt_document := doc; rt_registry := freshRegistry;
     rt_refs := fun _ => ∅; rt_idle := [] |}.


(* ===================================================================== *)
(** * Vocabulary of the specification *)
(* ===================================================================== *)

(** ** Overflow list *)

(** The items that a reflow distributes: the members of the default
    slot once every item has been moved back to it. *)
Definition reflowElements (st : OverflowList) : list Elem :=
  assignedElements DefaultSlot (moveItemsToDefaultSlot st).

(** The items found on the first row by the measurement that decides:
    the second one when [#reflowItems] measures twice. *)
Definition measuredVisible (g : Geometry) (lastVisibleElement : option Elem)
    (elements : list Elem) : list Elem :=
  if needsMore g lastVisibleElement elements
  then getVisibleElements g (topMoreFirst g lastVisibleElement) elements
  else getVisibleElements g (topPlain g) elements.

(** The steps by which the browser and the scheduler call back into the
    list; requests made by other code are not among them. *)
Definition isNotification (s : Step) : Prop :=
  match s with
  | ResizeNotification _ | MutationNotification | SchedulerRuns _ => True
  | _ => False
  end.

(** ** Ref scan *)

(** Whether a node counts as a component for the runtime. *)
Definition isComponent (doc : Node) (node : NodeRef) : bool :=
  instanceofComponent doc node || hasComponentTag doc node.

(** The proper ancestors of an element, nearest first: parents, and
    across a shadow boundary the shadow root and then its host. *)
Fixpoint ancestorsOfElement (p : Path) : list NodeRef :=
  match p with
  | [] => [DocumentNode]
  | Child _ :: parent => ElementAt parent :: ancestorsOfElement parent
  | ShadowChild _ :: host =>
      ShadowRootOf host :: ElementAt host :: ancestorsOfElement host
  end.

Definition ancestors (node : NodeRef) : list NodeRef :=
  match node with
  | DocumentNode => []
  | ElementAt p => ancestorsOfElement p
  | ShadowRootOf host => ElementAt host :: ancestorsOfElement host
  end.

(** The nearest enclosing component ancestor, in the words of the
    specification: the first proper ancestor that is a component. *)
Definition nearestComponentAncestor (doc : Node) (node : NodeRef) : option NodeRef :=
  List.find (isComponent doc) (ancestors node).

(** The subtree of a component that a ref scan ranges over: its own
    tree and the tree under its own shadow root, each in tree order. *)
Definition componentSubtree (doc : Node) (this : Path) : list Path :=
  descendants doc (ElementAt this) ++ descendants doc (ShadowRootOf this).

(** The value of the [ref] attribute of a scanned element, and the key
    under which [#updateRefs] files it. *)
Definition refName (doc : Node) (e : Path) : string :=
  default "" (getAttribute doc e "ref").

Definition refPath (doc : Node) (e : Path) : string :=
  if endsWith (refName doc e) "[]" then sliceOffLastTwo (refName doc e)
  else refName doc e.

(** What one more element does to the value stored under its key. *)
Definition fileRef (doc : Node) (current : option RefValue) (e : Path)
  : option RefValue :=
  if endsWith (refName doc e) "[]"
  then Some (Many (match current with Some (Many a) => a | _ => [] end ++ [e]))
  else Some (Single e).

(** A tree lists its elements once each, below the path it hangs at. *)
Definition listedOnce (n : Node) : Prop :=
  forall p, NoDup (subtree n p) /\ forall x, x ∈ subtree n p -> exists q, x = q ++ p.

(** ** Listener *)

(** The selector and method segments that the listener reads from the
    binding attribute of [element]. *)
Definition bindingValue (pg : Page) (eventName : string) (element : Path) : string :=
  default "" (getAttribute (document pg) element ("on:" ++ eventName)).
Definition bindingSelector (pg : Page) (eventName : string) (element : Path) : string :=
  default "" (split "/" (bindingValue pg eventName element) !! 0%nat).
Definition bindingMethod (pg : Page) (eventName : string) (element : Path)
  : option string :=
  split "/" (bindingValue pg eventName element) !! 1%nat.

(** The event as the invoked method receives it. *)
Definition deliveredEvent (event : Event) (element : Path) : EventArgument :=
  if bool_decide (event_target event = TargetElement element)
  then PlainEvent event else ProxiedEvent event element.

(** A listener that did nothing and threw nothing. *)
Definition silent : ListenerResult := {| effects := []; thrown := None |}.

(* ===================================================================== *)
(** * Sample pages and lists *)
(* ===================================================================== *)

(** A layout in which every item has the same top edge: [plain] while
    the "more" slot is hidden, [remeasured] while it is in front. *)
Definition flatGeometry (plain remeasured : Q) : Geometry :=
  {| firstChildHeight := Some 40%Q; rootTop := 0%Q;
     rootWidth := 300%Q; rootHeight := 40%Q;
     topPlain := fun _ => plain; topMoreFirst := fun _ _ => remeasured;
     clientWidth := fun _ => 100%Q |}.

(** A layout in which only item [0] stays on the first row. *)
Definition firstFitsGeometry : Geometry :=
  {| firstChildHeight := Some 40%Q; rootTop := 0%Q;
     rootWidth := 120%Q; rootHeight := 40%Q;
     topPlain := fun e => if (e =? 0)%nat then 0%Q else 40%Q;
     topMoreFirst := fun _ e => if (e =? 0)%nat then 0%Q else 40%Q;
     clientWidth := fun _ => 100%Q |}.

(** Three items in the default slot and the content of the "more"
    slot. *)
Definition threeItems (minimum_items : option string) (reached : bool) : OverflowList :=
  {| children := [(0, DefaultSlot); (1, DefaultSlot); (2, DefaultSlot);
                  (9, NamedSlot "more")]%nat;
     attr_disabled := None;
     attr_minimum_items := minimum_items; attr_minimum_reached := reached;
     styles := {| list_height := None; list_counter_reset := None;
                  overflow_count := None; more_hidden := false;
                  placeholder_hidden := false; placeholder_width := None;
                  placeholder_display_none := false |};
     observers := {| resize_observing := false; notifier_initialized := false;
                     mutation_observing := false |};
     scheduled := false; pending := 0%nat;
     lastDimensions := (None, None); dispatched := [] |}.

(** A component that nests another component, with one single ref, one
    ref inside the nested component and two elements sharing a plural
    ref. *)
Definition outerComponent : Node :=
  Element ComponentInstance "OUTER-COMPONENT" [] None
    [ Element HTMLElementInstance "DIV" [("ref", "a")] None [];
      Element HTMLElementInstance "INNER-COMPONENT" [] None
        [ Element HTMLElementInstance "SPAN" [("ref", "b")] None [] ];
      Element HTMLElementInstance "LI" [("ref", "items[]")] None [];
      Element HTMLElementInstance "LI" [("ref", "items[]")] None [] ].

(** A component whose child is a plain element hosting a shadow tree. *)
Definition hostingPlainShadow : Node :=
  Element ComponentInstance "PRODUCT-CARD" [] None
    [ Element HTMLElementInstance "DIV" []
        (Some [ Element HTMLElementInstance "SPAN" [("ref", "price")] None [] ]) [] ].

(** A component whose shadow root still waits in a template. *)
Definition cartDrawer : Node :=
  Element ComponentInstance "CART-DRAWER" [] None
    [ Template [("shadowrootmode", "open")]
        [ Element HTMLElementInstance "SLOT" [] None [] ];
      Element HTMLElementInstance "DIV" [("ref", "panel")] None [] ].

(** A component in which one element carries the single ref [items]
    and two elements carry the pluralized ref [items[]]; the element
    with the single ref comes first, or last when [singleLast] is set. *)
Definition tabList (singleLast : bool) : Node :=
  let single := Element HTMLElementInstance "DIV" [("ref", "items")] None [] in
  let plural := [ Element HTMLElementInstance "LI" [("ref", "items[]")] None [];
                  Element HTMLElementInstance "LI" [("ref", "items[]")] None [] ] in
  Element ComponentInstance "TAB-LIST" [] None
    (if singleLast then plural ++ [single] else single :: plural).

(** A component with a button bound by [on:click]; the click lands on
    the span inside the button. Every selector but ["["] is valid and
    matches nothing; the component has the methods [save] and [setQty],
    which end as [outcome] says. *)
Definition cartPage (binding : string) (outcome : option Exception) : Page :=
  {| document :=
       Element ComponentInstance "CART-ITEMS" [] None
         [ Element HTMLElementInstance "BUTTON" [("on:click", binding)] None
             [ Element HTMLElementInstance "SPAN" [] None [] ] ];
     parseSelector := fun selector =>
       if bool_decide (selector = "[") then None else Some (fun _ => false);
     isFunction := fun _ method =>
       bool_decide (method = "save") || bool_decide (method = "setQty");
     callMethod := fun _ _ _ => outcome |}.

Definition clickOnSpan : Event :=
  {| event_type := "click"; event_target := TargetElement [Child 0; Child 0];
     event_composedPath := Some [TargetElement [Child 0; Child 0]];
     event_bubbles := true |}.

(* ===================================================================== *)
(** * Further vocabulary *)
(* ===================================================================== *)

(** Whether every code unit of a string satisfies [p]. *)
Fixpoint allUnits (p : ascii -> bool) (s : string) : bool :=
  match s with
  | EmptyString => true
  | String c rest => p c && allUnits p rest
  end.

(** A segment of a binding attribute: it holds neither [/] nor [?]. *)
Definition isSegment (s : string) : bool := allUnits (fun c => negb (isDelimiter c)) s.

(** A string on which [.] matches every code unit. *)
Definition isSingleLine (s : string) : bool :=
  allUnits (fun c => negb (isLineTerminator c)) s.

(** What the listener reads from the value of a binding attribute: the
    selector, the method name once its query is cut off, and the data
    segment. *)
Definition parsedBinding (value : string) : string * option string * option string :=
  (default "" (split "/" value !! 0%nat),
   stripQuery <$> split "/" value !! 1%nat,
   lastSegment value).

(** [event.composedPath?.()[0] ?? event.target]. *)
Definition originalTarget (event : Event) : EventTarget :=
  match event_composedPath event with
  | Some (first :: _) => first
  | _ => event_target event
  end.

(** What the [target] property of a delivered event answers: the
    proxy's [get] trap returns the matched element. *)
Definition reportedTarget (e : EventArgument) : EventTarget :=
  match e with
  | PlainEvent event => event_target event
  | ProxiedEvent _ element => TargetElement element
  end.

Definition isInvoke (effect : Effect) : bool :=
  match effect with Invoke _ _ _ => true | ConsoleError _ => false end.

(** The decimal numeral of a natural number, as a template writes it. *)
Definition decimalNumeral (n : nat) : string :=
  NilZero.string_of_uint (Nat.to_uint n).

(** The entry that [Object.fromEntries] keeps for a key: the last one. *)
Definition lastEntry {A} (key : string) (entries : list (string * A)) : option A :=
  snd <$> last (filter (fun kv => fst kv = key) entries).

(** A component whose children mix a single and a pluralized ref of the
    same name, and repeat a single name. *)
Definition menuList : Node :=
  Element ComponentInstance "MENU-LIST" [] None
    [ Element HTMLElementInstance "DIV" [("ref", "item")] None [];
      Element HTMLElementInstance "LI" [("ref", "item[]")] None [];
      Element HTMLElementInstance "LI" [("ref", "item[]")] None [];
      Element HTMLElementInstance "H2" [("ref", "title")] None [];
      Element HTMLElementInstance "H3" [("ref", "title")] None [] ].

(* ===================================================================== *)
(** * Theme loader *)
(* ===================================================================== *)

(** [componentFiles]. *)
Definition componentFiles : list string :=
  [ "utilities.js"; "critical.js"; "component.js"; "events.js";
    "performance.js"; "morph.js"; "section-renderer.js"; "scrolling.js";
    "slideshow.js"; "dialog.js"; "focus.js"; "floating-panel.js";
    "text-component.js"; "paginated-list.js"; "accordion-custom.js";
    "announcement-bar.js"; "auto-close-details.js"; "copy-to-clipboard.js";
    "drag-zoom-wrapper.js"; "header-drawer.js"; "header-menu.js";
    "header.js"; "cart-discount.js"; "cart-drawer.js"; "cart-icon.js";
    "cart-note.js"; "component-cart-items.js";
    "component-quantity-selector.js"; "product-card.js"; "product-form.js";
    "product-inventory.js"; "product-price.js"; "product-recommendations.js";
    "product-title-truncation.js"; "variant-picker.js";
    "account-login-actions.js"; "anchored-popover.js"; "blog-posts-list.js";
    "collection-links.js"; "gift-card-recipient-form.js"; "jumbo-text.js";
    "local-pickup.js"; "localization.js"; "marquee.js"; "media-gallery.js";
    "media.js"; "overflow-list.css"; "paginated-list-aspect-ratio.js";
    "predictive-search.js"; "product-card-link.js"; "qr-code-generator.js";
    "qr-code-image.js"; "quick-add.js"; "recently-viewed-products.js";
    "results-list.js"; "rte-formatter.js"; "search-page-input.js";
    "show-more.js"; "template-giftcard.css"; "theme-editor.js";
    "video-background.js"; "view-transitions.js"; "zoom-dialog.js" ].

(** What [loadVesselTheme] does to the page and the console. The
    messages of [console.log] are told apart by their kind; the error
    logged by [console.error] is given by its message. *)
Inductive LoaderEffect : Type :=
  | LogLoading                               (* [console.log('... Loading ...')] *)
  | ScriptAppended (src : string)            (* [document.head.appendChild(script)] *)
  | LogLoaded (filename : string)            (* [console.log(`... Loaded: ${filename}`)] *)
  | LogAllLoaded                             (* [console.log('... loaded successfully!')] *)
  | EventDispatched (type : string)          (* [document.dispatchEvent(new CustomEvent(type))] *)
  | LogError (message : string).             (* [console.error('...', error)] *)

Global Instance LoaderEffect_eq_dec : EqDecision LoaderEffect.
Proof. solve_decision. Defined.

(** The [src] that [loadScript] gives the script element. *)
Definition assetPath (filename : string) : string := ("/assets/" ++ filename)%string.

(** The loop of [loadVesselTheme] with its [await loadScript(filename)].
    [loads src] tells whether the browser fires [load] (the promise
    resolves) or [error] (it rejects) for the script of that [src]. The
    second component is the message of the error that left the loop. *)
Fixpoint loadScripts (loads : string -> bool) (files : list string)
  : list LoaderEffect * option string :=
  match files with
  | [] => ([], None)
  | filename :: rest =>
      if endsWith filename ".js" then
        if loads (assetPath filename) then
          let '(effects, error) := loadScripts loads rest in
          (ScriptAppended (assetPath filename) :: LogLoaded filename :: effects, error)
        else ([ScriptAppended (assetPath filename)],
              Some ("Failed to load " ++ filename)%string)
      else loadScripts loads rest
  end.

(** [loadVesselTheme]. *)
Definition loadVesselTheme (loads : string -> bool) : list LoaderEffect :=
  let '(effects, error) := loadScripts loads componentFiles in
  LogLoading :: effects ++
  match error with
  | None => [LogAllLoaded; EventDispatched "vessel-theme-loaded"]
  | Some message => [LogError message]
  end.

(** The scripts requested, in the order of the requests. *)
Definition requestedScripts (effects : list LoaderEffect) : list string :=
  omap (fun effect => match effect with
                      | ScriptAppended src => Some src
                      | _ => None
                      end) effects.

(* ===================================================================== *)
(** * Header group height *)
(* ===================================================================== *)

(** A child of [#header-group]: which element it is, whether it is an
    [HTMLElement], and its [offsetHeight], an integer number of
    pixels. *)
Record GroupChild := {
  child_element       : nat;
  child_isHTMLElement : bool;
  child_offsetHeight  : Z;
}.

(** [calculateHeaderGroupHeight(header, headerGroup)]; [None] stands for
    [null]. *)
Definition calculateHeaderGroupHeight (header : option nat)
    (headerGroup : option (list GroupChild)) : Z :=
  match headerGroup with
  | None => 0%Z
  | Some group =>
      fold_left
        (fun totalHeight element =>
           if bool_decide (Some (child_element element) = header)
              || negb (child_isHTMLElement element)
           then totalHeight
           else (totalHeight + child_offsetHeight element)%Z)
        group 0%Z
  end.

(** The sum of the heights of the children that are [HTMLElement]s. *)
Definition htmlChildrenHeight (group : list GroupChild) : Z :=
  fold_right Z.add 0%Z
    (map child_offsetHeight (filter (fun c => child_isHTMLElement c) group)).

(* ===================================================================== *)
(** * Paginated list *)
(* ===================================================================== *)

(** The fields of a [PaginatedList]. Page numbers and page sizes are
    integers below 2^53, on which the arithmetic of doubles is exact. *)
Record PaginatedList := {
  currentPage  : Z;
  itemsPerPage : Z;
}.

(** [Array.prototype.slice(start, end)] with integer arguments. *)
Definition slice {A} (start finish : Z) (items : list A) : list A :=
  let len := Z.of_nat (length items) in
  let k := if (start <? 0)%Z then Z.max (len + start) 0 else Z.min start len in
  let final := if (finish <? 0)%Z then Z.max (len + finish) 0 else Z.min finish len in
  take (Z.to_nat (final - k)) (drop (Z.to_nat k) items).

(** [getTotalPages]: [Math.ceil(totalItems / this.itemsPerPage)]. With
    [itemsPerPage] 0 the quotient is an infinity or [NaN], written
    [None]. *)
Definition getTotalPages (this : PaginatedList) (totalItems : Z) : option Z :=
  if (itemsPerPage this =? 0)%Z then None
  else Some (- ((- totalItems) / itemsPerPage this))%Z.

(** [getPageItems]. *)
Definition getPageItems {A} (this : PaginatedList) (items : list A) : list A :=
  let startIndex := ((currentPage this - 1) * itemsPerPage this)%Z in
  let endIndex := (startIndex + itemsPerPage this)%Z in
  slice startIndex endIndex items.

(* ===================================================================== *)
(** * Utilities *)
(* ===================================================================== *)

Module Utilities.

(** [clamp]: [Math.min(Math.max(value, min), max)], on numbers other
    than [NaN]. *)
Definition clamp (value min max : Q) : Q := Qmin (Qmax value min) max.

(** [closest]: the value nearest to [target], by [reduce] without an
    initial value, which throws a [TypeError] on an empty array
    ([None]). Values and target are integers below 2^53. *)
Definition closest (values : list Z) (target : Z) : option Z :=
  match values with
  | [] => None
  | first :: rest =>
      Some (fold_left
              (fun prev curr =>
                 if (Z.abs (curr - target) <? Z.abs (prev - target))%Z
                 then curr else prev)
              rest first)
  end.



(** [String.prototype.indexOf] for a one-unit search string; [-1]
    when it does not occur. *)
Fixpoint indexOf (c : ascii) (s : string) : Z :=
  match s with
  | EmptyString => (-1)%Z
  | String a rest =>
      if bool_decide (a = c) then 0%Z
      else let i := indexOf c rest in
           if (i <? 0)%Z then (-1)%Z else (i + 1)%Z
  end.

(** [String.prototype.replace] for a one-unit search string and a
    replacement without [$]: the first occurrence is replaced. *)
Fixpoint replace (c : ascii) (replacement : string) (s : string) : string :=
  match s with
  | EmptyString => EmptyString
  | String a rest =>
      if bool_decide (a = c) then (replacement ++ rest)%string
      else String a (replace c replacement rest)
  end.

(** [formatMoney(value)], the variant that takes a string. *)
Definition formatMoney (value : string) : string :=
  let valueWithNoSpaces := replace " " "" value in
  let comma := indexOf "," valueWithNoSpaces in
  let dot := indexOf "." valueWithNoSpaces in
  if (comma =? -1)%Z then valueWithNoSpaces
  else if (comma <? dot)%Z then replace "," "" valueWithNoSpaces
  else if (dot <? comma)%Z
       then replace "," "." (replace "." "" valueWithNoSpaces)
  else if negb (comma =? -1)%Z then replace "," "." valueWithNoSpaces
  else valueWithNoSpaces.

End Utilities.

(* ===================================================================== *)
(** * Countdown timers *)
(* ===================================================================== *)

(** The four numbers that a tick of [startCountdown] shows for a
    distance in milliseconds that is not negative: [Math.floor] of a
    quotient, and [%]. *)
Definition countdownParts (distance : Z) : Z * Z * Z * Z :=
  let days := (distance / (1000 * 60 * 60 * 24))%Z in
  let hours := (Z.rem distance (1000 * 60 * 60 * 24) / (1000 * 60 * 60))%Z in
  let minutes := (Z.rem distance (1000 * 60 * 60) / (1000 * 60))%Z in
  let seconds := (Z.rem distance (1000 * 60) / 1000)%Z in
  (days, hours, minutes, seconds).

(** The decimal numeral of an integer, as a template literal prints
    it. *)
Definition numberToString (z : Z) : string :=
  ((if (z <? 0)%Z then "-" else "") ++ decimalNumeral (Z.abs_nat z))%string.

(** One tick of the interval callback: the text it writes to the
    element, and whether it clears the interval. Times are integer
    numbers of milliseconds. *)
Definition countdownTick (endDate now : Z) : string * bool :=
  let distance := (endDate - now)%Z in
  if (distance <? 0)%Z then ("EXPIRED", true)
  else
    let '(days, hours, minutes, seconds) := countdownParts distance in
    ((numberToString days ++ "d " ++ numberToString hours ++ "h "
      ++ numberToString minutes ++ "m " ++ numberToString seconds ++ "s")%string,
     false).

(** A string in which the code unit [c] does not occur, and a run of
    code units without space, comma or dot. *)
Definition lacksUnit (c : ascii) (s : string) : bool :=
  allUnits (fun u => negb (bool_decide (u = c))) s.

Definition isGroup (s : string) : bool :=
  lacksUnit " " s && lacksUnit "," s && lacksUnit "." s.

(* ===================================================================== *)
(** * Lists *)
(* ===================================================================== *)

Section ListFacts.

Lemma filter_ext_elem {A} (P Q : A -> Prop) `{!forall x, Decision (P x)}
    `{!forall x, Decision (Q x)} (l : list A) :
  (forall x, x ∈ l -> P x <-> Q x) -> filter P l = filter Q l.
Proof.
  induction l as [|x l IH]; intros Hall; [done|].
  rewrite !filter_cons.
  assert (Hx : P x <-> Q x) by (apply Hall; left).
  rewrite IH by (intros y Hy; apply Hall; by right).
  destruct (decide (P x)), (decide (Q x)); tauto.
Qed.

Lemma filter_none {A} (P : A -> Prop) `{!forall x, Decision (P x)} (l : list A) :
  (forall x, x ∈ l -> ~ P x) -> filter P l = [].
Proof.
  induction l as [|x l IH]; intros Hall; [done|].
  rewrite filter_cons, decide_False by (apply Hall; left).
  apply IH. intros y Hy. apply Hall. by right.
Qed.

Lemma filter_unique {A B} `{EqDecision B} (f : A -> B) (l : list A) (e : A) :
  NoDup (map f l) -> e ∈ l -> filter (fun x => f x = f e) l = [e].
Proof.
  induction l as [|x l IH]; intros Hnd He; [by apply elem_of_nil in He|].
  simpl in Hnd. apply NoDup_cons in Hnd as [Hx Hnd]. rewrite filter_cons.
  assert (Hmem : forall y, y ∈ l -> f y ∈ map f l).
  { intros y Hy. apply list_elem_of_In, in_map. by apply list_elem_of_In. }
  destruct (decide (f x = f e)) as [Heq|Hne].
  - assert (Hnot : e ∉ l) by (intros Hin; apply Hx; rewrite Heq; by apply Hmem).
    apply elem_of_cons in He as [->|He]; [|done].
    f_equal. apply filter_none. intros y Hy Hfy. apply Hx. rewrite <- Hfy.
    by apply Hmem.
  - apply elem_of_cons in He as [->|He]; [done|]. by apply IH.
Qed.

End ListFacts.

(* ===================================================================== *)
(** * Properties of the overflow list *)
(* ===================================================================== *)

Section OverflowFacts.

Implicit Types (st : OverflowList) (g : Geometry) (cs : list (Elem * Slot)).
Implicit Types (e last : Elem) (l elements : list Elem) (forced : option Elem).

Lemma includes_true e l : includes e l = true <-> e ∈ l.
Proof. unfold includes. by rewrite bool_decide_eq_true. Qed.

Lemma includes_false e l : includes e l = false <-> e ∉ l.
Proof. unfold includes. by rewrite bool_decide_eq_false. Qed.

Lemma indexOf_None e l : indexOf e l = None <-> e ∉ l.
Proof.
  induction l as [|x l IH]; simpl.
  - split; [intros _; apply not_elem_of_nil | done].
  - case_bool_decide as Hx.
    + subst. split; [done | intros H; exfalso; apply H; left].
    + rewrite fmap_None, IH, not_elem_of_cons. naive_solver.
Qed.

Lemma indexOf_Some e l i :
  indexOf e l = Some i ->
  l = take i l ++ e :: drop (S i) l /\ e ∉ take i l.
Proof.
  revert i. induction l as [|x l IH]; simpl; intros i H; [done|].
  case_bool_decide as Hx.
  - inversion H; subst. simpl. split; [done | apply not_elem_of_nil].
  - destruct (indexOf e l) as [j|] eqn:Hj; simpl in H; [|done].
    inversion H; subst. destruct (IH j eq_refl) as [Heq Hnot]. simpl.
    split; [by rewrite <- Heq | rewrite not_elem_of_cons; naive_solver].
Qed.

Lemma delete_as_take_drop {A} (i : nat) (l : list A) :
  delete i l = take i l ++ drop (S i) l.
Proof.
  revert i. induction l as [|x l IH]; intros [|i]; simpl; try done.
  by rewrite IH.
Qed.

Lemma includes_cons x e l :
  includes x (e :: l) = bool_decide (x = e) || includes x l.
Proof.
  unfold includes.
  destruct (bool_decide (x = e)) eqn:H1, (bool_decide (x ∈ l)) eqn:H2; simpl;
    rewrite ?bool_decide_eq_true, ?bool_decide_eq_false in *;
    rewrite ?elem_of_cons; naive_solver.
Qed.

(** A loop of [setSlot] gives every child named in [elements] the slot
    computed from that child alone. *)
Lemma setSlot_loop (slotFor : Elem -> Slot) elements cs :
  fold_left (fun cs element => setSlot element (slotFor element) cs) elements cs =
  map (fun c => if includes (fst c) elements then (fst c, slotFor (fst c)) else c) cs.
Proof.
  revert cs. induction elements as [|e es IH]; intros cs; simpl.
  - induction cs as [|c cs IHcs]; simpl; [done|]. by rewrite <- IHcs.
  - rewrite IH. unfold setSlot. rewrite map_map. apply map_ext. intros [x s]. simpl.
    rewrite includes_cons. case_bool_decide as Hx; simpl; [|done].
    subst x. by destruct (includes e es).
Qed.

Lemma assignSlots_map elements overflowing cs :
  assignSlots elements overflowing cs =
  map (fun c => if includes (fst c) elements
                then (fst c, if includes (fst c) overflowing
                             then OverflowSlot else DefaultSlot)
                else c) cs.
Proof.
  unfold assignSlots.
  apply (setSlot_loop (fun e => if includes e overflowing then OverflowSlot
                                else DefaultSlot)).
Qed.

Lemma moveItems_map st :
  children (moveItemsToDefaultSlot st) =
  map (fun c => if includes (fst c) (assignedElements OverflowSlot st)
                then (fst c, DefaultSlot) else c) (children st).
Proof.
  unfold moveItemsToDefaultSlot. simpl. apply (setSlot_loop (fun _ => DefaultSlot)).
Qed.

Lemma elem_of_assignedElements e s st :
  e ∈ assignedElements s st <-> (e, s) ∈ children st.
Proof.
  unfold assignedElements. rewrite list_elem_of_In, in_map_iff. split.
  - intros [[x s'] [Hx Hin]]. simpl in Hx. subst x.
    apply list_elem_of_In, list_elem_of_filter in Hin as [Hs Hin].
    apply bool_decide_spec in Hs. simpl in Hs. by subst.
  - intros Hin. exists (e, s). split; [done|].
    apply list_elem_of_In, list_elem_of_filter. split; [|done].
    by apply bool_decide_spec.
Qed.

(** After [#moveItemsToDefaultSlot] the overflow slot is empty. *)
Lemma moveItems_overflow_empty st :
  assignedElements OverflowSlot (moveItemsToDefaultSlot st) = [].
Proof.
  destruct (assignedElements OverflowSlot (moveItemsToDefaultSlot st)) as [|e l] eqn:H;
    [done|].
  assert (He : e ∈ assignedElements OverflowSlot (moveItemsToDefaultSlot st))
    by (rewrite H; left).
  apply elem_of_assignedElements in He. rewrite moveItems_map in He.
  apply list_elem_of_In, in_map_iff in He as [[x s] [Hx Hin]]. simpl in Hx.
  destruct (includes x (assignedElements OverflowSlot st)) eqn:Hinc; [done|].
  inversion Hx; subst. apply includes_false in Hinc. exfalso. apply Hinc.
  apply elem_of_assignedElements. by apply list_elem_of_In.
Qed.

Lemma children_reflowItems g forced st :
  children (reflowItems g forced st) =
  assignSlots (reflowElements st)
    (overflowingElements g forced (reflowElements st))
    (children (moveItemsToDefaultSlot st)).
Proof.
  unfold reflowItems, reflowElements. simpl.
  destruct (negb _); [|done].
  unfold updateMinimumReached. by destruct (minimumItems _).
Qed.

(** An item that a reflow finds overflowing sits in the overflow slot
    afterwards. *)
Lemma overflowing_assigned g forced st e :
  e ∈ overflowingElements g forced (reflowElements st) ->
  e ∈ assignedElements OverflowSlot (reflowItems g forced st).
Proof.
  intros He. apply elem_of_assignedElements.
  rewrite children_reflowItems, assignSlots_map.
  assert (Hel : e ∈ reflowElements st).
  { unfold overflowingElements in He. by apply list_elem_of_filter in He as [_ He]. }
  pose proof Hel as Hchild. apply elem_of_assignedElements in Hchild.
  apply list_elem_of_In, in_map_iff. exists (e, DefaultSlot). split.
  - simpl. apply includes_true in Hel. apply includes_true in He.
    by rewrite Hel, He.
  - by apply list_elem_of_In.
Qed.

Lemma minimumItems_two st :
  attr_minimum_items st = Some "2" -> minimumItems st = Some (Some 2%Z).
Proof. unfold minimumItems. by intros ->. Qed.

(** The attribute and the events after a reflow: untouched when nothing
    overflows, set by [#updateMinimumReached] otherwise. *)
Lemma reflowItems_minimum g forced st :
  let visible := visibleElements g forced (reflowElements st) in
  let overflowing := overflowingElements g forced (reflowElements st) in
  (attr_minimum_reached (reflowItems g forced st),
   dispatched (reflowItems g forced st)) =
  match overflowing, minimumItems st with
  | _ :: _, Some minimum =>
      (lessThan (length visible) minimum,
       dispatched st ++ [ {| minimumReached := lessThan (length visible) minimum |} ])
  | _, _ => (attr_minimum_reached st, dispatched st)
  end.
Proof.
  simpl. unfold reflowItems.
  change (assignedElements DefaultSlot (moveItemsToDefaultSlot (disconnectObservers st)))
    with (reflowElements st).
  destruct (overflowingElements g forced (reflowElements st)) as [|o os]; simpl; [done|].
  unfold updateMinimumReached, minimumItems. simpl.
  destruct (attr_minimum_items st) as [[|c v]|]; done.
Qed.

(** Once both observers are detached and the scheduler holds nothing,
    no notification changes the list. *)
Lemma step_when_detached s st :
  isNotification s ->
  resize_observing (observers st) = false ->
  mutation_observing (observers st) = false ->
  pending st = 0%nat ->
  step s st = st.
Proof.
  intros Hs Hr Hm Hp. destruct s; simpl in *; try done.
  - by rewrite Hr.
  - by rewrite Hm.
  - by rewrite Hp.
Qed.

Lemma visibleElements_Permutation g forced elements :
  visibleElements g forced elements ≡ₚ measuredVisible g forced elements.
Proof.
  unfold visibleElements, measuredVisible.
  destruct (needsMore g forced elements); [|done].
  destruct forced as [last|]; [|done].
  destruct (indexOf last _) as [i|] eqn:Hi; [|done].
  destruct (indexOf_Some _ _ _ Hi) as [Hsplit _].
  rewrite Hsplit at 2. rewrite delete_as_take_drop.
  rewrite <- app_assoc. apply Permutation_app_head.
  symmetry. apply Permutation_cons_append.
Qed.

Lemma elem_of_visibleElements g forced elements e :
  e ∈ visibleElements g forced elements <-> e ∈ measuredVisible g forced elements.
Proof. by rewrite visibleElements_Permutation. Qed.

(** The items that stay are those that were measured on the first
    row, in document order. *)
Lemma not_overflowing_measured g forced elements :
  filter (fun x => x ∉ overflowingElements g forced elements) elements
  = measuredVisible g forced elements.
Proof.
  assert (Hm : exists top, measuredVisible g forced elements
                           = getVisibleElements g top elements).
  { unfold measuredVisible. destruct (needsMore _ _ _); eauto. }
  destruct Hm as [top Hm]. rewrite Hm. unfold getVisibleElements.
  apply filter_ext_elem. intros x Hx.
  assert (Hvis : x ∈ visibleElements g forced elements
                 <-> Is_true (Qle_bool (top x) (rootTop g))).
  { rewrite elem_of_visibleElements, Hm. unfold getVisibleElements.
    rewrite list_elem_of_filter. tauto. }
  unfold overflowingElements. rewrite list_elem_of_filter, negb_True.
  rewrite <- Hvis.
  destruct (decide (x ∈ visibleElements g forced elements)) as [Hin|Hout];
    split; intros H; try done.
  - intros [Hnot _]. apply Hnot. by apply Is_true_true, includes_true.
  - exfalso. apply H. split; [|done].
    intros Hinc. apply Hout. by apply includes_true, Is_true_true.
Qed.

Lemma overflowing_filter g forced elements :
  filter (fun x => x ∈ overflowingElements g forced elements) elements
  = overflowingElements g forced elements.
Proof.
  unfold overflowingElements at 2. apply filter_ext_elem. intros x Hx.
  unfold overflowingElements. rewrite list_elem_of_filter. tauto.
Qed.


(** What the slot loop does to the two slots, for children whose ids
    tell them apart. *)
Lemma assignSlots_partition elements overflowing cs :
  (forall c, c ∈ cs -> includes (fst c) elements = true <-> snd c = DefaultSlot) ->
  (forall c, c ∈ cs -> snd c <> OverflowSlot) ->
  let after := assignSlots elements overflowing cs in
  let before := map fst (filter (fun c => bool_decide (snd c = DefaultSlot)) cs) in
  map fst (filter (fun c => bool_decide (snd c = OverflowSlot)) after)
  = filter (fun x => x ∈ overflowing) before
  /\ map fst (filter (fun c => bool_decide (snd c = DefaultSlot)) after)
     = filter (fun x => x ∉ overflowing) before.
Proof.
  intros Hkey Hno. cbv zeta. rewrite assignSlots_map.
  induction cs as [|[x s] cs IH]; [done|].
  assert (Hkey' : forall c, c ∈ cs ->
            includes (fst c) elements = true <-> snd c = DefaultSlot)
    by (intros c Hc; apply Hkey; by right).
  assert (Hno' : forall c, c ∈ cs -> snd c <> OverflowSlot)
    by (intros c Hc; apply Hno; by right).
  destruct (IH Hkey' Hno') as [IHo IHd]. clear IH.
  specialize (Hkey (x, s) ltac:(left)). specialize (Hno (x, s) ltac:(left)).
  simpl in Hkey, Hno. simpl map. rewrite !filter_cons. simpl.
  destruct (includes x elements) eqn:Hel.
  - assert (s = DefaultSlot) by (by apply Hkey). subst s. simpl.
    rewrite !filter_cons.
    destruct (decide (x ∈ overflowing)) as [Hov|Hov].
    + rewrite (proj2 (includes_true _ _) Hov). simpl.
      rewrite decide_False by (intros H; by apply H). by rewrite IHo, IHd.
    + rewrite (proj2 (includes_false _ _) Hov). simpl.
      rewrite decide_True by done. by rewrite IHo, IHd.
  - assert (Hs : s <> DefaultSlot) by (intros Hs; apply Hkey in Hs; congruence).
    simpl. rewrite !bool_decide_eq_false_2 by done. simpl. by rewrite IHo, IHd.
Qed.

Lemma map_fst_moveItems st :
  map fst (children (moveItemsToDefaultSlot st)) = map fst (children st).
Proof.
  rewrite moveItems_map, map_map. apply map_ext. intros [x s]. simpl.
  by destruct (includes _ _).
Qed.

(** After a reflow the overflow slot holds the overflowing items and
    the default slot the items measured on the first row. *)
Lemma reflow_partition g forced st :
  NoDup (map fst (children st)) ->
  assignedElements OverflowSlot (reflowItems g forced st)
  = overflowingElements g forced (reflowElements st)
  /\ assignedElements DefaultSlot (reflowItems g forced st)
     = measuredVisible g forced (reflowElements st).
Proof.
  intros Hnd. unfold assignedElements. rewrite children_reflowItems.
  rewrite <- map_fst_moveItems in Hnd.
  destruct (assignSlots_partition (reflowElements st)
              (overflowingElements g forced (reflowElements st))
              (children (moveItemsToDefaultSlot st))) as [Ho Hd].
  - intros [x s] Hc. simpl. rewrite includes_true. split.
    + intros Hx. apply elem_of_assignedElements in Hx.
      apply list_elem_of_lookup in Hc as [i Hi]. apply list_elem_of_lookup in Hx as [j Hj].
      assert (i = j).
      { apply (NoDup_lookup _ i j x Hnd).
        - change (map fst ?l) with (fst <$> l). by rewrite list_lookup_fmap, Hi.
        - change (map fst ?l) with (fst <$> l). by rewrite list_lookup_fmap, Hj. }
      subst j. congruence.
    + intros ->. by apply elem_of_assignedElements.
  - intros [x s] Hc Hs. simpl in Hs. subst s.
    assert (Hx : x ∈ assignedElements OverflowSlot (moveItemsToDefaultSlot st))
      by (by apply elem_of_assignedElements).
    rewrite moveItems_overflow_empty in Hx. by apply elem_of_nil in Hx.
  - cbv zeta in Ho, Hd. rewrite Ho, Hd.
    change (map fst (filter _ (children (moveItemsToDefaultSlot st))))
      with (reflowElements st).
    by rewrite overflowing_filter, not_overflowing_measured.
Qed.

Lemma reflow_visible_count g forced st :
  NoDup (map fst (children st)) ->
  length (assignedElements DefaultSlot (reflowItems g forced st))
  = length (visibleElements g forced (reflowElements st)).
Proof.
  intros Hnd. rewrite (proj2 (reflow_partition g forced st Hnd)).
  by rewrite visibleElements_Permutation.
Qed.

End OverflowFacts.

Section OverflowClaims.

Implicit Types (st : OverflowList) (g : Geometry).

(** C1, as stated, fails. Three items fit without the "more" slot;
    measured again with the "more" slot and the forced item [2] in
    front, the forced item is no longer on the first row. It is not
    appended to the visible set: the visible set stays empty and the
    forced item is moved to the overflow slot with the others. *)
Lemma forced_item_lost_then_overflows :
  let g := flatGeometry 0 40 in
  let st := threeItems None false in
  reflowElements st = [0; 1; 2]%nat
  /\ (2%nat ∈ getVisibleElements g (topPlain g) (reflowElements st))
  /\ (2%nat ∉ getVisibleElements g (topMoreFirst g (Some 2%nat)) (reflowElements st))
  /\ visibleElements g (Some 2%nat) (reflowElements st) = []
  /\ assignedElements OverflowSlot (reflowItems g (Some 2%nat) st) = [0; 1; 2]%nat.
Proof.
  vm_compute. repeat split; try reflexivity.
  - apply list_elem_of_In. simpl. tauto.
  - apply not_elem_of_nil.
Qed.

(** C1, amended. For a reflow requested with a forced last-visible
    item: if the forced item is still visible in the remeasurement pass
    (overflow indicator and forced item ordered first), it is removed
    from its place in the visible set and appended at its end, so that
    it is the last visible item and is not moved to overflow; if it lost
    visibility in that pass, the visible set is left as measured and the
    forced item, when it is one of the list's items, is moved to the
    overflow slot. *)
Theorem forced_item_last_only_when_still_visible g (last : Elem) st :
  let elements := reflowElements st in
  let remeasured := getVisibleElements g (topMoreFirst g (Some last)) elements in
  let st' := reflowItems g (Some last) st in
  (last ∈ remeasured ->
     (exists before after,
        remeasured = before ++ last :: after /\ (last ∉ before) /\
        visibleElements g (Some last) elements = before ++ after ++ [last])
     /\ last ∉ assignedElements OverflowSlot st')
  /\ (last ∉ remeasured ->
      visibleElements g (Some last) elements = remeasured
      /\ (last ∈ elements -> last ∈ assignedElements OverflowSlot st')).
Proof.
  intros elements remeasured st'.
  assert (Hvis : visibleElements g (Some last) elements =
                 match indexOf last remeasured with
                 | Some i => delete i remeasured ++ [last]
                 | None => remeasured
                 end).
  { unfold visibleElements, needsMore.
    rewrite (bool_decide_eq_true_2 (is_Some (Some last))) by eauto.
    by rewrite orb_true_r. }
  split.
  - intros Hin. destruct (indexOf last remeasured) as [i|] eqn:Hi.
    2:{ apply indexOf_None in Hi. done. }
    destruct (indexOf_Some _ _ _ Hi) as [Hsplit Hfirst].
    assert (Hv : last ∈ visibleElements g (Some last) elements).
    { rewrite Hvis. apply elem_of_app. right. left. }
    split.
    + exists (take i remeasured), (drop (S i) remeasured).
      split; [done|]. split; [done|].
      by rewrite Hvis, delete_as_take_drop, <- app_assoc.
    + intros Hover. apply elem_of_assignedElements in Hover.
      unfold st' in Hover. rewrite children_reflowItems, assignSlots_map in Hover.
      apply list_elem_of_In, in_map_iff in Hover as [[x s] [Hx Hc]]. simpl in Hx.
      destruct (includes x (reflowElements st)) eqn:Hel.
      * destruct (includes x (overflowingElements g (Some last) (reflowElements st)))
          eqn:Hov; [|done].
        inversion Hx; subst x. apply includes_true in Hov.
        unfold overflowingElements in Hov.
        apply list_elem_of_filter in Hov as [Hnot _].
        apply negb_prop_elim in Hnot. apply Hnot. apply Is_true_true.
        by apply includes_true.
      * inversion Hx; subst.
        assert (Hempty := moveItems_overflow_empty st).
        assert (Hmem : last ∈ assignedElements OverflowSlot (moveItemsToDefaultSlot st)).
        { apply elem_of_assignedElements. by apply list_elem_of_In. }
        rewrite Hempty in Hmem. by apply not_elem_of_nil in Hmem.
  - intros Hout. assert (Hi : indexOf last remeasured = None) by (by apply indexOf_None).
    rewrite Hi in Hvis. split; [done|].
    intros Hel. apply overflowing_assigned. unfold overflowingElements.
    apply list_elem_of_filter. split; [|done].
    apply negb_prop_intro. intros Hinc. apply Is_true_true, includes_true in Hinc.
    fold elements in Hinc. rewrite Hvis in Hinc. done.
Qed.

Lemma forced_item_last_only_when_still_visible_witness :
  let st := threeItems None false in
  let kept := flatGeometry 0 0 in
  let lost := flatGeometry 0 40 in
  (0%nat ∈ getVisibleElements kept (topMoreFirst kept (Some 0%nat)) (reflowElements st)
   /\ visibleElements kept (Some 0%nat) (reflowElements st) = [1; 2; 0]%nat
   /\ (0%nat ∉ assignedElements OverflowSlot (reflowItems kept (Some 0%nat) st)))
  /\ ((0%nat ∉ getVisibleElements lost (topMoreFirst lost (Some 0%nat))
                 (reflowElements st))
      /\ 0%nat ∈ assignedElements OverflowSlot (reflowItems lost (Some 0%nat) st)).
Proof.
  intros st kept lost.
  assert (Hin : 0%nat ∈ getVisibleElements kept (topMoreFirst kept (Some 0%nat))
                          (reflowElements st)).
  { vm_compute. left. }
  assert (Hout : 0%nat ∉ getVisibleElements lost (topMoreFirst lost (Some 0%nat))
                           (reflowElements st)).
  { vm_compute. apply not_elem_of_nil. }
  assert (Hitem : 0%nat ∈ reflowElements st).
  { vm_compute. left. }
  split.
  - split; [exact Hin|]. split; [reflexivity|].
    exact (proj2 (proj1 (forced_item_last_only_when_still_visible kept 0%nat st) Hin)).
  - split; [exact Hout|].
    exact (proj2 (proj2 (forced_item_last_only_when_still_visible lost 0%nat st) Hout)
             Hitem).
Defined.

(** C2, as stated, fails. With [minimum-items="2"], a reflow that leaves
    one of three items visible sets the attribute and notifies [true];
    the next reflow, in a container that holds all three, leaves three
    items visible and nothing overflowing, and neither removes the
    attribute nor notifies. A list of a single item that fits is left
    with one visible item and without the attribute. *)
Lemma minimum_reached_not_updated_without_overflow :
  let st1 := initialize firstFitsGeometry
               [(0, DefaultSlot); (1, DefaultSlot); (2, DefaultSlot)]%nat (Some "2") in
  let st2 := reflowItems (flatGeometry 0 0) None st1 in
  let single := initialize (flatGeometry 0 0) [(0%nat, DefaultSlot)] (Some "2") in
  (assignedElements DefaultSlot st1 = [0%nat]
   /\ attr_minimum_reached st1 = true
   /\ dispatched st1 = [ {| minimumReached := true |} ])
  /\ (assignedElements DefaultSlot st2 = [0; 1; 2]%nat
      /\ attr_minimum_reached st2 = true
      /\ dispatched st2 = dispatched st1)
  /\ (assignedElements DefaultSlot single = [0%nat]
      /\ attr_minimum_reached single = false
      /\ dispatched single = []).
Proof. vm_compute. repeat split; reflexivity. Qed.

(** C2, amended. For a list with [minimum-items="2"] whose items are
    distinct elements: every reflow that leaves at least one item in the
    overflow slot and only 1 item visible sets [minimum-reached] and
    dispatches the notification with [minimumReached: true]; every
    reflow that leaves at least one item in the overflow slot and 2 or
    more items visible removes the attribute and dispatches
    [minimumReached: false]; a reflow that leaves the overflow slot
    empty neither touches the attribute nor dispatches. *)
Theorem minimum_reached_follows_overflowing_reflow g (forced : option Elem) st :
  NoDup (map fst (children st)) ->
  attr_minimum_items st = Some "2" ->
  let st' := reflowItems g forced st in
  let visible := length (assignedElements DefaultSlot st') in
  let overflowing := assignedElements OverflowSlot st' in
  (overflowing <> [] -> visible = 1%nat ->
     attr_minimum_reached st' = true
     /\ dispatched st' = dispatched st ++ [ {| minimumReached := true |} ])
  /\ (overflowing <> [] -> (2 <= visible)%nat ->
      attr_minimum_reached st' = false
      /\ dispatched st' = dispatched st ++ [ {| minimumReached := false |} ])
  /\ (overflowing = [] ->
      attr_minimum_reached st' = attr_minimum_reached st
      /\ dispatched st' = dispatched st).
Proof.
  intros Hnd Hmin st' visible overflowing.
  pose proof (reflowItems_minimum g forced st) as H. cbv zeta in H.
  rewrite (minimumItems_two _ Hmin) in H.
  subst st' visible overflowing.
  rewrite (reflow_visible_count g forced st Hnd).
  rewrite (proj1 (reflow_partition g forced st Hnd)).
  destruct (overflowingElements g forced (reflowElements st)) as [|o os].
  - apply pair_equal_spec in H as [Ha Hd]. repeat split; done.
  - apply pair_equal_spec in H as [Ha Hd]. rewrite Ha, Hd. unfold lessThan.
    split; [|split].
    + intros _ ->. done.
    + intros _ Hv.
      replace (Z.of_nat (length (visibleElements g forced (reflowElements st))) <? 2)%Z
        with false; [done|].
      symmetry. apply Z.ltb_ge. lia.
    + done.
Qed.

Lemma minimum_reached_follows_overflowing_reflow_witness :
  let st := threeItems (Some "2") false in
  let st' := reflowItems firstFitsGeometry None st in
  assignedElements DefaultSlot st' = [0%nat]
  /\ attr_minimum_reached st' = true
  /\ dispatched st' = dispatched st ++ [ {| minimumReached := true |} ].
Proof.
  intros st st'. split; [reflexivity|].
  assert (Hnd : NoDup (map fst (children st))).
  { apply (bool_decide_unpack _). by vm_compute. }
  apply (proj1 (minimum_reached_follows_overflowing_reflow
                  firstFitsGeometry None st Hnd eq_refl)).
  - vm_compute. discriminate.
  - reflexivity.
Defined.

(** C9, as stated, fails. A resize has scheduled a reflow; [showAll] is
    called before the scheduler runs. Right after [showAll] the overflow
    slot is empty and the placeholder is zero-width and hidden. The
    reflow that was already scheduled then runs: it fills the overflow
    slot again, gives the placeholder a width and observes the list
    again, so that a later resize schedules yet another reflow. *)
Lemma showAll_overtaken_by_pending_reflow :
  let st0 := initialize (flatGeometry 0 0)
               [(0, DefaultSlot); (1, DefaultSlot); (2, DefaultSlot)]%nat None in
  let before := run [ ResizeNotification [ResizeObserverEntry 300 40];
                      ResizeNotification [ResizeObserverEntry 200 40] ] st0 in
  let shown := showAll (flatGeometry 0 0) before in
  let after := run [ SchedulerRuns firstFitsGeometry;
                     ResizeNotification [ResizeObserverEntry 120 40];
                     ResizeNotification [ResizeObserverEntry 100 40] ] shown in
  pending before = 1%nat
  /\ (assignedElements OverflowSlot shown = []
      /\ placeholder_width (styles shown) = Some 0%Q
      /\ placeholder_display_none (styles shown) = true)
  /\ (assignedElements OverflowSlot after = [1; 2]%nat
      /\ placeholder_width (styles after) = Some 100%Q
      /\ resize_observing (observers after) = true
      /\ scheduled after = true /\ pending after = 1%nat).
Proof. vm_compute. repeat split; reflexivity. Qed.

(** C9, amended. After [showAll] is called on an initialised list for
    which no reflow is waiting in the scheduler, the overflow slot holds
    zero members, the placeholder is zero-width and hidden, [disabled]
    is ["true"], and no later resize notification, mutation notification
    or scheduler run changes the list: reflow is not triggered again and
    the overflow slot is not repopulated. *)
Theorem showAll_is_final_when_nothing_pending g st (steps : list Step) :
  pending st = 0%nat ->
  Forall isNotification steps ->
  let st' := showAll g st in
  assignedElements OverflowSlot st' = []
  /\ placeholder_width (styles st') = Some 0%Q
  /\ placeholder_display_none (styles st') = true
  /\ attr_disabled st' = Some "true"
  /\ run steps st' = st'.
Proof.
  intros Hp Hsteps st'. repeat split.
  - apply moveItems_overflow_empty.
  - unfold run. induction Hsteps as [|s steps Hs _ IH]; simpl; [done|].
    rewrite step_when_detached; done.
Qed.

Lemma showAll_is_final_when_nothing_pending_witness :
  let st := initialize firstFitsGeometry
              [(0, DefaultSlot); (1, DefaultSlot); (2, DefaultSlot)]%nat None in
  let steps := [ ResizeNotification [ResizeObserverEntry 300 40];
                 MutationNotification; SchedulerRuns (flatGeometry 0 0) ] in
  assignedElements OverflowSlot st = [1; 2]%nat
  /\ assignedElements OverflowSlot (showAll firstFitsGeometry st) = []
  /\ run steps (showAll firstFitsGeometry st) = showAll firstFitsGeometry st.
Proof.
  intros st steps. split; [reflexivity|].
  assert (Hsteps : Forall isNotification steps).
  { repeat constructor. }
  pose proof (showAll_is_final_when_nothing_pending firstFitsGeometry st steps
                eq_refl Hsteps) as H.
  split; [exact (proj1 H) | exact (proj2 (proj2 (proj2 (proj2 H))))].
Defined.

End OverflowClaims.

(* ===================================================================== *)
(** * Properties of the ref scan *)
(* ===================================================================== *)

Section TreeOrder.

Implicit Types (doc : Node) (this e : Path) (node : NodeRef).

(** Induction over a tree whose children come in a list. *)
Lemma Node_forest_ind (P : Node -> Prop) :
  (forall c t a s cs, Forall P cs -> P (Element c t a s cs)) ->
  (forall a content, P (Template a content)) ->
  forall n, P n.
Proof.
  intros HE HT. fix IH 1. intros [c t a s cs|a content].
  - apply HE. induction cs as [|x cs IHcs]; constructor; [apply IH | apply IHcs].
  - apply HT.
Qed.

Lemma forest_listed (step : nat -> PathStep) (p : Path) (cs : list Node) (i : nat) :
  (forall a b, step a = step b -> a = b) ->
  Forall listedOnce cs ->
  NoDup (forest subtree step p i cs)
  /\ forall x, x ∈ forest subtree step p i cs ->
       exists q j, x = q ++ step j :: p /\ (i <= j)%nat.
Proof.
  intros Hinj Hcs. revert i. induction Hcs as [|c cs Hc _ IH]; intros i; simpl.
  - split; [constructor | intros x Hx; by apply elem_of_nil in Hx].
  - destruct (Hc (step i :: p)) as [Hnd Hsuf]. destruct (IH (S i)) as [Hnd' Hsuf'].
    split.
    + apply NoDup_app. split; [done|]. split; [|done].
      intros x Hx Hx'. destruct (Hsuf x Hx) as [q ->].
      destruct (Hsuf' _ Hx') as (q' & j & Heq & Hj).
      change (q ++ step i :: p) with (q ++ [step i] ++ p) in Heq.
      change (q' ++ step j :: p) with (q' ++ [step j] ++ p) in Heq.
      rewrite !app_assoc in Heq. apply app_inv_tail in Heq.
      apply app_inj_tail in Heq as [_ Heq]. apply Hinj in Heq. lia.
    + intros x Hx. apply elem_of_app in Hx as [Hx|Hx].
      * destruct (Hsuf x Hx) as [q ->]. exists q, i. done.
      * destruct (Hsuf' x Hx) as (q & j & -> & Hj). exists q, j. split; [done | lia].
Qed.

Lemma subtree_listed (n : Node) : listedOnce n.
Proof.
  induction n as [c t a s cs IH|a content] using Node_forest_ind; intros p; simpl.
  - destruct (forest_listed Child p cs 0%nat ltac:(by intros ? ? [= ->]) IH)
      as [Hnd Hsuf].
    split.
    + apply NoDup_cons. split; [|done]. intros Hin.
      destruct (Hsuf p Hin) as (q & j & Heq & _).
      apply (f_equal length) in Heq. rewrite length_app in Heq. simpl in Heq. lia.
    + intros x Hx. apply elem_of_cons in Hx as [->|Hx]; [by exists []|].
      destruct (Hsuf x Hx) as (q & j & -> & _). exists (q ++ [Child j]).
      by rewrite <- app_assoc.
  - split; [apply NoDup_singleton|]. intros x Hx.
    apply list_elem_of_singleton in Hx as ->. by exists [].
Qed.

(** The component's subtree lists every element once. *)
Lemma componentSubtree_NoDup doc this : NoDup (componentSubtree doc this).
Proof.
  unfold componentSubtree. simpl.
  destruct (nodeAt doc this) as [n|]; [|constructor].
  assert (Hlight := forest_listed Child this (node_children n) 0%nat
                      ltac:(by intros ? ? [= ->])).
  assert (Hall : forall cs, Forall listedOnce cs).
  { intros cs. apply Forall_forall. intros c _. apply subtree_listed. }
  destruct (Hlight (Hall _)) as [Hnd Hsuf].
  destruct (node_shadowRoot n) as [sr|]; [|by rewrite app_nil_r].
  destruct (forest_listed ShadowChild this sr 0%nat
              ltac:(by intros ? ? [= ->]) (Hall _)) as [Hnd' Hsuf'].
  apply NoDup_app. split; [done|]. split; [|done].
  intros x Hx Hx'. destruct (Hsuf x Hx) as (q & j & -> & _).
  destruct (Hsuf' _ Hx') as (q' & j' & Heq & _).
  change (q ++ Child j :: this) with (q ++ [Child j] ++ this) in Heq.
  change (q' ++ ShadowChild j' :: this) with (q' ++ [ShadowChild j'] ++ this) in Heq.
  rewrite !app_assoc in Heq. apply app_inv_tail in Heq.
  by apply app_inj_tail in Heq as [_ Heq].
Qed.

Lemma scan_root_fresh (keep : Path -> bool) (found acc : list Path) :
  NoDup found -> (forall x, x ∈ found -> x ∉ acc) ->
  fold_left (fun acc x => if keep x then setAdd acc x else acc) found acc
  = acc ++ filter (fun x => keep x) found.
Proof.
  revert acc. induction found as [|x found IH]; intros acc Hnd Hfresh; simpl.
  - by rewrite app_nil_r.
  - apply NoDup_cons in Hnd as [Hx Hnd]. rewrite filter_cons.
    destruct (keep x) eqn:Hk.
    + assert (Hadd : setAdd acc x = acc ++ [x]).
      { unfold setAdd. rewrite bool_decide_eq_false_2; [done|]. apply Hfresh. left. }
      rewrite Hadd, IH; [|done|].
      * simpl. by rewrite <- app_assoc.
      * intros y Hy Hin. apply elem_of_app in Hin as [Hin|Hin].
        -- apply (Hfresh y); [by right | done].
        -- apply list_elem_of_singleton in Hin as ->. done.
    + rewrite IH; [|done|].
      * done.
      * intros y Hy. apply Hfresh. by right.
Qed.

Lemma roots_cases doc this :
  roots doc this = [ElementAt this; ShadowRootOf this]
  \/ (roots doc this = [ElementAt this]
      /\ descendants doc (ShadowRootOf this) = []).
Proof.
  unfold roots. simpl. destruct (nodeAt doc this) as [n|]; [|by right].
  destruct (node_shadowRoot n); [by left | by right].
Qed.

(** The scan keeps the elements it collects in tree order: those of the
    component's own tree first, then those under its shadow root. *)
Lemma scannedElements_tree_order doc this :
  scannedElements doc this =
  filter (fun e => hasAttribute doc e "ref"
                   && isDescendant doc this (ElementAt e))
         (componentSubtree doc this).
Proof.
  pose proof (componentSubtree_NoDup doc this) as Hnd.
  unfold scannedElements, componentSubtree, querySelectorAll_attr in *.
  set (keep := fun x => isDescendant doc this (ElementAt x)).
  assert (Hfilter : forall l : list Path,
            filter (fun e => hasAttribute doc e "ref" && keep e) l
            = filter (fun x => keep x) (filter (fun p => hasAttribute doc p "ref") l)).
  { intros l. rewrite list_filter_filter. apply list_filter_iff. intros x.
    rewrite andb_True. tauto. }
  rewrite Hfilter, !filter_app.
  apply NoDup_app in Hnd as (Hl & Hdisj & Hs).
  assert (Hfirst : forall found : list Path, NoDup found ->
    fold_left (fun acc x => if keep x then setAdd acc x else acc)
              (filter (fun p => hasAttribute doc p "ref") found) []
    = filter (fun x => keep x) (filter (fun p => hasAttribute doc p "ref") found)).
  { intros found Hfound. rewrite scan_root_fresh; [done | by apply NoDup_filter |].
    intros ? ?. apply not_elem_of_nil. }
  destruct (roots_cases doc this) as [->|[-> Hempty]]; simpl fold_left.
  - rewrite Hfirst by done. rewrite scan_root_fresh; [done | by apply NoDup_filter |].
    intros x Hx Hin. apply list_elem_of_filter in Hx as [_ Hx].
    apply list_elem_of_filter in Hin as [_ Hin].
    apply list_elem_of_filter in Hin as [_ Hin]. by apply (Hdisj x).
  - rewrite Hfirst by done. rewrite Hempty. simpl. by rewrite app_nil_r.
Qed.

End TreeOrder.

Section ScanFacts.

Implicit Types (doc : Node) (this e : Path) (node : NodeRef).


Lemma ancestors_step node ancestor :
  getAncestor node = Some ancestor -> ancestors node = ancestor :: ancestors ancestor.
Proof.
  destruct node as [|[|[i|i] p]|h]; simpl; intros H; inversion H; subst; done.
Qed.

Lemma ancestors_root node : getAncestor node = None -> ancestors node = [].
Proof. destruct node as [|[|[i|i] p]|h]; simpl; intros H; by inversion H. Qed.

(** [getClosestComponent] finds the first component among the node and
    its ancestors. *)
Lemma getClosestComponent_find doc node :
  getClosestComponent doc node = List.find (isComponent doc) (node :: ancestors node).
Proof.
  funelim (getClosestComponent doc node); simpl; unfold isComponent.
  - by rewrite Heq.
  - rewrite Heq0, Heq. done.
  - rewrite Heq0, Heq. simpl. rewrite H. by rewrite (ancestors_step _ _ Hancestor).
  - rewrite Heq0, Heq. simpl. by rewrite (ancestors_root _ e).
Qed.

Lemma isDescendant_nearest doc this e :
  isDescendant doc this (ElementAt e) =
  bool_decide (nearestComponentAncestor doc (ElementAt e) = Some (ElementAt this)).
Proof.
  unfold isDescendant, nearestComponentAncestor.
  destruct (getAncestor (ElementAt e)) as [a|] eqn:Ha.
  - by rewrite getClosestComponent_find, (ancestors_step _ _ Ha).
  - by destruct e as [|[i|i] p].
Qed.

Lemma elem_of_scannedElements doc this e :
  e ∈ scannedElements doc this
  <-> e ∈ componentSubtree doc this /\ hasAttribute doc e "ref" = true
      /\ nearestComponentAncestor doc (ElementAt e) = Some (ElementAt this).
Proof.
  rewrite scannedElements_tree_order, list_elem_of_filter, andb_True.
  rewrite isDescendant_nearest, !Is_true_true, bool_decide_eq_true. tauto.
Qed.





(** The boundary of the scan: an element in the shadow tree of a plain
    element has the component as nearest component ancestor, yet lies
    in neither tree that the scan queries. *)
Example nested_shadow_tree_not_scanned :
  nearestComponentAncestor hostingPlainShadow (ElementAt [ShadowChild 0; Child 0])
  = Some (ElementAt [])
  /\ hasAttribute hostingPlainShadow [ShadowChild 0; Child 0] "ref" = true
  /\ componentSubtree hostingPlainShadow [] = [[Child 0]]
  /\ scannedElements hostingPlainShadow [] = [].
Proof. vm_compute. repeat split; reflexivity. Qed.

End ScanFacts.

Section RefsFacts.

Implicit Types (doc : Node) (this e : Path) (refs : gmap string RefValue).

Lemma length_append (a b : string) :
  String.length (a ++ b) = (String.length a + String.length b)%nat.
Proof. induction a as [|c a IH]; simpl; [done | by rewrite IH]. Qed.

Lemma substring_whole (b : string) : substring 0 (String.length b) b = b.
Proof. induction b as [|c b IH]; simpl; [done | by rewrite IH]. Qed.

Lemma substring_append_right (a b : string) :
  substring (String.length a) (String.length b) (a ++ b) = b.
Proof. induction a as [|c a IH]; simpl; [apply substring_whole | done]. Qed.

Lemma substring_append_left (a b : string) :
  substring 0 (String.length a) (a ++ b) = a.
Proof.
  induction a as [|c a IH]; simpl; [by destruct b | by rewrite IH].
Qed.

Lemma endsWith_append (a b : string) : endsWith (a ++ b) b = true.
Proof.
  unfold endsWith. rewrite length_append. apply andb_true_intro. split.
  - apply Nat.leb_le. lia.
  - apply bool_decide_eq_true.
    replace (String.length a + String.length b - String.length b)%nat
      with (String.length a) by lia.
    apply substring_append_right.
Qed.

Lemma sliceOffLastTwo_append (a : string) : sliceOffLastTwo (a ++ "[]") = a.
Proof.
  unfold sliceOffLastTwo. rewrite length_append. simpl.
  replace (String.length a + 2 - 2)%nat with (String.length a) by lia.
  apply substring_append_left.
Qed.

Lemma addRef_spec doc refs e :
  addRef doc refs e =
  if bool_decide (refPath doc e = "__proto__") then None
  else Some (<[refPath doc e := default (Single e)
                                  (fileRef doc (refs !! refPath doc e) e)]> refs).
Proof.
  unfold addRef, refPath, fileRef. fold (refName doc e).
  destruct (endsWith (refName doc e) "[]"); simpl; by case_bool_decide.
Qed.

(** Keys are filed independently of one another: the value under [k]
    results from the elements filed under [k], in scan order. *)
Lemma collectRefs_lookup doc (l : list Path) refs refs' k :
  collectRefs doc l refs = Some refs' ->
  refs' !! k =
  fold_left (fileRef doc) (filter (fun e => refPath doc e = k) l) (refs !! k).
Proof.
  revert refs. induction l as [|e l IH]; intros refs; simpl.
  - by intros [= ->].
  - rewrite addRef_spec. case_bool_decide as Hproto; [done|].
    intros H. rewrite (IH _ H). rewrite filter_cons. case_decide as Hk.
    + subst k. simpl. rewrite lookup_insert_eq. f_equal.
      unfold fileRef. by destruct (endsWith _ _).
    + by rewrite lookup_insert_ne.
Qed.

Lemma collectRefs_dom doc (l : list Path) refs :
  Forall (fun e => refPath doc e <> "__proto__") l ->
  exists refs',
    collectRefs doc l refs = Some refs'
    /\ dom refs' = dom refs ∪ list_to_set (map (refPath doc) l).
Proof.
  revert refs. induction l as [|e l IH]; intros refs Hl; simpl.
  - exists refs. split; [done|]. set_solver.
  - apply Forall_cons in Hl as [He Hl]. rewrite addRef_spec.
    rewrite bool_decide_eq_false_2 by done.
    destruct (IH (<[refPath doc e := default (Single e)
                       (fileRef doc (refs !! refPath doc e) e)]> refs) Hl)
      as (refs' & Hrefs' & Hdom).
    exists refs'. split; [done|]. rewrite Hdom, dom_insert_L. set_solver.
Qed.

Lemma fileRef_many doc (l a : list Path) :
  Forall (fun e => endsWith (refName doc e) "[]" = true) l ->
  fold_left (fileRef doc) l (Some (Many a)) = Some (Many (a ++ l)).
Proof.
  intros Hl. revert a. induction Hl as [|e l He _ IH]; intros a; simpl.
  - by rewrite app_nil_r.
  - unfold fileRef at 2. rewrite He, IH. by rewrite <- app_assoc.
Qed.

Lemma fileRef_plural doc (l : list Path) :
  Forall (fun e => endsWith (refName doc e) "[]" = true) l -> l <> [] ->
  fold_left (fileRef doc) l None = Some (Many l).
Proof.
  intros Hl Hne. destruct l as [|e l]; [done|].
  apply Forall_cons in Hl as [He Hl]. simpl.
  unfold fileRef at 2. rewrite He. simpl. by rewrite fileRef_many.
Qed.

(** C4, as stated, fails when the shared name is also one of the unique
    names. With one element named [items] (N = 1) and two named
    [items[]] (M = 2), both kinds are filed under the key [items]: the
    mapping has one key, not N + 1 = 2. When the element with the single
    name comes last, that key does not even hold a list, but this
    element alone. *)
Lemma shared_name_collides_with_single_ref :
  map (refName (tabList false)) (scannedElements (tabList false) [])
  = ["items"; "items[]"; "items[]"]
  /\ scannedRefs (tabList false) []
     = Some {[ "items" := Many [[Child 1]; [Child 2]] ]}
  /\ size <$> scannedRefs (tabList false) [] = Some 1%nat
  /\ map (refName (tabList true)) (scannedElements (tabList true) [])
     = ["items[]"; "items[]"; "items"]
  /\ scannedRefs (tabList true) [] = Some {[ "items" := Single [Child 2] ]}
  /\ size <$> scannedRefs (tabList true) [] = Some 1%nat.
Proof. vm_compute. repeat split; reflexivity. Qed.

(** C4, amended. Let the elements that the scan of a component collects
    be N elements with pairwise distinct, non-pluralized ref names and
    M >= 1 elements that all carry the pluralized name [shared[]], the
    shared name being none of the N names and no name being [__proto__].
    Then the refs mapping built by the scan has exactly N + 1 keys, and
    the shared key holds the list of exactly those M elements in the
    order of the scan, which is tree order: the component's own tree
    first, then the tree under its shadow root. Each of the N names
    holds its element. *)
Theorem refs_mapping_shape doc this (shared : string) :
  let scanned := scannedElements doc this in
  let plural := filter (fun e => refName doc e = (shared ++ "[]")%string) scanned in
  let singles := filter (fun e => refName doc e <> (shared ++ "[]")%string) scanned in
  plural <> [] ->
  Forall (fun e => endsWith (refName doc e) "[]" = false) singles ->
  NoDup (map (refName doc) singles) ->
  shared ∉ map (refName doc) singles ->
  "__proto__" ∉ shared :: map (refName doc) singles ->
  exists refs,
    scannedRefs doc this = Some refs
    /\ size refs = (length singles + 1)%nat
    /\ refs !! shared = Some (Many plural)
    /\ (forall e, e ∈ singles -> refs !! refName doc e = Some (Single e))
    /\ scanned = filter (fun e => hasAttribute doc e "ref"
                                  && isDescendant doc this (ElementAt e))
                        (componentSubtree doc this).
Proof.
  intros scanned plural singles Hplural Hsingle Hunique Hshared Hproto.
  assert (Hpath_plural : forall e, e ∈ plural -> refPath doc e = shared).
  { intros e He. apply list_elem_of_filter in He as [He _].
    unfold refPath. by rewrite He, endsWith_append, sliceOffLastTwo_append. }
  assert (Hpath_single : forall e, e ∈ singles -> refPath doc e = refName doc e).
  { intros e He. unfold refPath.
    by rewrite (proj1 (Forall_forall _ _) Hsingle e He). }
  assert (Hsplit : forall e, e ∈ scanned -> e ∈ plural \/ e ∈ singles).
  { intros e He. destruct (decide (refName doc e = (shared ++ "[]")%string)).
    - left. by apply list_elem_of_filter.
    - right. by apply list_elem_of_filter. }
  assert (Hnoproto : Forall (fun e => refPath doc e <> "__proto__") scanned).
  { apply Forall_forall. intros e He Heq. apply Hproto.
    destruct (Hsplit e He) as [Hp|Hs].
    - rewrite (Hpath_plural e Hp) in Heq. subst. left.
    - rewrite (Hpath_single e Hs) in Heq. right. rewrite <- Heq.
      apply list_elem_of_In, in_map. by apply list_elem_of_In. }
  destruct (collectRefs_dom doc scanned ∅ Hnoproto) as (refs & Hrefs & Hdom).
  exists refs. split; [exact Hrefs|].
  assert (Hlookup := fun k => collectRefs_lookup doc scanned ∅ refs k Hrefs).
  split; [|split; [|split; [|apply scannedElements_tree_order]]].
  - rewrite <- size_dom, Hdom, dom_empty_L, union_empty_l_L.
    assert (Hset : list_to_set (C := gset string) (map (refPath doc) scanned)
                   = {[ shared ]} ∪ list_to_set (map (refName doc) singles)).
    { apply set_eq. intros k.
      rewrite elem_of_union, elem_of_singleton, !elem_of_list_to_set.
      rewrite !list_elem_of_In, !in_map_iff. split.
      - intros (e & <- & He). apply list_elem_of_In in He.
        destruct (Hsplit e He) as [Hp|Hs].
        + left. by apply Hpath_plural.
        + right. exists e. split; [by rewrite Hpath_single | by apply list_elem_of_In].
      - intros [->|(e & <- & He)].
        + assert (Hex : exists e, e ∈ plural).
          { generalize Hplural. generalize plural.
            intros [|e p] ?; [done|]. exists e. left. }
          destruct Hex as [e He].
          exists e. split; [by apply Hpath_plural|].
          apply list_elem_of_In. unfold plural in He.
          by apply list_elem_of_filter in He as [_ He].
        + apply list_elem_of_In in He. exists e. split; [by apply Hpath_single|].
          apply list_elem_of_In. unfold singles in He.
          by apply list_elem_of_filter in He as [_ He]. }
    rewrite Hset, size_union.
    + rewrite size_singleton, size_list_to_set by done. rewrite length_map. lia.
    + apply disjoint_singleton_l. by rewrite elem_of_list_to_set.
  - rewrite Hlookup, lookup_empty.
    assert (Hfilter : filter (fun e => refPath doc e = shared) scanned = plural).
    { unfold plural. apply filter_ext_elem. intros e He. split.
      - intros Hpath. destruct (Hsplit e He) as [Hp|Hs].
        + by apply list_elem_of_filter in Hp as [Hp _].
        + exfalso. apply Hshared. rewrite <- Hpath, (Hpath_single e Hs).
          apply list_elem_of_In, in_map. by apply list_elem_of_In.
      - intros Hname. apply Hpath_plural. by apply list_elem_of_filter. }
    rewrite Hfilter. apply fileRef_plural; [|done].
    apply Forall_forall. intros e He. apply list_elem_of_filter in He as [He _].
    rewrite He. apply endsWith_append.
  - intros e He. rewrite Hlookup, lookup_empty.
    assert (Hfilter : filter (fun x => refPath doc x = refName doc e) scanned = [e]).
    { rewrite <- (filter_unique (refName doc) singles e Hunique He).
      unfold singles. rewrite list_filter_filter. apply filter_ext_elem.
      intros x Hx. split.
      - intros Hpath. destruct (Hsplit x Hx) as [Hp|Hs].
        + exfalso. apply Hshared. rewrite <- (Hpath_plural x Hp), Hpath.
          apply list_elem_of_In, in_map. by apply list_elem_of_In.
        + split; [by rewrite <- (Hpath_single x Hs)|].
          by apply list_elem_of_filter in Hs as [Hs _].
      - intros [Hname Hs]. rewrite <- Hname. apply Hpath_single.
        by apply list_elem_of_filter. }
    rewrite Hfilter. simpl. unfold fileRef.
    by rewrite (proj1 (Forall_forall _ _) Hsingle e He).
Qed.

Lemma refs_mapping_shape_witness :
  exists refs,
    scannedRefs outerComponent [] = Some refs
    /\ size refs = 2%nat
    /\ refs !! "items" = Some (Many [[Child 2]; [Child 3]]).
Proof.
  destruct (refs_mapping_shape outerComponent [] "items") as (refs & H1 & H2 & H3 & _).
  - by vm_compute.
  - by repeat constructor.
  - apply (bool_decide_unpack _). by vm_compute.
  - apply (bool_decide_unpack _). by vm_compute.
  - apply (bool_decide_unpack _). by vm_compute.
  - exists refs. split; [exact H1|]. split; [exact H2 | exact H3].
Defined.

End RefsFacts.

(* ===================================================================== *)
(** * Properties of connecting a component *)
(* ===================================================================== *)

Section ConnectionFacts.

(** [firstMissing] stops at the first required name that [in] does not
    find: every name before it is found. *)
Lemma firstMissing_first (required : list string) (refs : gmap string RefValue) ref :
  ref ∈ required -> js_in ref refs = false ->
  exists found missing rest,
    required = found ++ missing :: rest
    /\ Forall (fun name => js_in name refs = true) found
    /\ js_in missing refs = false
    /\ firstMissing required refs = Some missing.
Proof.
  induction required as [|r rs IH]; intros Hin Hout.
  - by apply elem_of_nil in Hin.
  - simpl. destruct (js_in r refs) eqn:Hr.
    + apply elem_of_cons in Hin as [->|Hin]; [congruence|].
      destruct (IH Hin Hout) as (found & m & rest & -> & Hfound & Hm & Hfirst).
      exists (r :: found), m, rest. split; [done|]. split; [by constructor | done].
    + exists [], r, rs. split; [done|]. split; [by constructor | done].
Qed.

(** C3, as stated, fails on the order of effects. A component that
    requires the refs [panel] and [dialog] and contains only [panel]
    throws the missing-ref error for [dialog]; by then the event
    registry, which was untouched, has been initialised with its twelve
    listeners, and the shadow root has been attached from the template.
    Moreover a required name that every object inherits, such as
    [toString], is found by [in] although no element carries it, and
    nothing is thrown. *)
Lemma missing_ref_thrown_after_registration :
  let rt := freshRuntime cartDrawer in
  let result := connectedCallback [] (Some ["panel"; "dialog"]) rt in
  snd result = Thrown (MissingRefError (missingRefMessage "dialog" "CART-DRAWER"))
  /\ initialized (rt_registry rt) = false
  /\ initialized (rt_registry (fst result)) = true
  /\ length (listeners (rt_registry (fst result))) = 12%nat
  /\ node_shadowRoot (rt_document rt) = None
  /\ node_shadowRoot (rt_document (fst result)) =
     Some [ Element HTMLElementInstance "SLOT" [] None [] ]
  /\ snd (connectedCallback [] (Some ["toString"]) rt) = Returned.
Proof. vm_compute. repeat split; reflexivity. Qed.

(** C3, amended. For a component whose list of required refs is
    non-empty, the scan having built a refs object (no scanned element
    is named [__proto__]): if a required ref name is not found ([in]) in
    the refs collected by the scan, connecting the component throws a
    missing-required-ref error whose message carries the name of the
    first such ref, every required name listed before it being found,
    and the lower-cased tag of the component. The throw happens before
    the component's [refs] mapping is replaced and before its mutation
    observer is requested, and after the shadow root has been hydrated
    and the event registry has been initialised. *)
Theorem missing_required_ref_throws
    (this : Path) (required : list string) (rt : Runtime)
    (refs : gmap string RefValue) (ref : string) :
  let doc := hydrateShadowRoot (rt_document rt) this in
  let result := connectedCallback this (Some required) rt in
  scannedRefs doc this = Some refs ->
  ref ∈ required ->
  js_in ref refs = false ->
  (exists found missing rest,
     required = found ++ missing :: rest
     /\ Forall (fun name => js_in name refs = true) found
     /\ js_in missing refs = false
     /\ snd result =
        Thrown (MissingRefError
                  (missingRefMessage missing
                     (default "" (node_tagName <$> nodeAt doc this)))))
  /\ rt_refs (fst result) = rt_refs rt
  /\ rt_idle (fst result) = rt_idle rt
  /\ rt_registry (fst result) = registerEventListeners (rt_registry rt)
  /\ rt_document (fst result) = doc.
Proof.
  intros doc result Hscan Hin Hout.
  destruct (firstMissing_first required refs ref Hin Hout)
    as (found & m & rest & Hrequired & Hfound & Hm & Hfirst).
  assert (Hupdate : updateRefs doc this (Some required) =
                    RefsThrow (MissingRefError
                                 (missingRefMessage m
                                    (default "" (node_tagName <$> nodeAt doc this))))).
  { unfold updateRefs. rewrite Hscan. destruct required as [|r rs].
    - by apply elem_of_nil in Hin.
    - by rewrite Hfirst. }
  unfold result, connectedCallback. fold doc. rewrite Hupdate. simpl.
  split; [|done]. by exists found, m, rest.
Qed.

Lemma missing_required_ref_throws_witness :
  let rt := freshRuntime cartDrawer in
  let result := connectedCallback [] (Some ["panel"; "dialog"; "title"]) rt in
  snd result = Thrown (MissingRefError (missingRefMessage "dialog" "CART-DRAWER"))
  /\ rt_refs (fst result) = rt_refs rt /\ rt_idle (fst result) = [].
Proof.
  intros rt result.
  assert (Hscan : scannedRefs (hydrateShadowRoot (rt_document rt) []) [] =
                  Some {[ "panel" := Single [Child 1] ]}) by (by vm_compute).
  assert (Hin : "title" ∈ ["panel"; "dialog"; "title"]) by (right; right; left).
  pose proof (missing_required_ref_throws [] ["panel"; "dialog"; "title"] rt _ "title"
                Hscan Hin eq_refl) as H.
  split; [|split; [exact (proj1 (proj2 H)) | exact (proj1 (proj2 (proj2 H)))]].
  by vm_compute.
Defined.

End ConnectionFacts.

(* ===================================================================== *)
(** * Properties of the event-delegation registry *)
(* ===================================================================== *)

Section RegistryFacts.

Lemma registerEventListeners_initialized r :
  initialized (registerEventListeners r) = true.
Proof. unfold registerEventListeners. by destruct (initialized r) eqn:H. Qed.

Lemma registerEventListeners_idempotent r :
  registerEventListeners (registerEventListeners r) = registerEventListeners r.
Proof.
  unfold registerEventListeners at 1.
  by rewrite registerEventListeners_initialized.
Qed.

Lemma registerEventListeners_iter n r :
  Nat.iter (S n) registerEventListeners r = registerEventListeners r.
Proof.
  induction n as [|n IH]; [done|].
  change (Nat.iter (S (S n)) registerEventListeners r)
    with (registerEventListeners (Nat.iter (S n) registerEventListeners r)).
  rewrite IH. apply registerEventListeners_idempotent.
Qed.

Lemma connectedCallback_registry this required rt :
  rt_registry (fst (connectedCallback this required rt)) =
  registerEventListeners (rt_registry rt).
Proof. unfold connectedCallback. by destruct (updateRefs _ _ _). Qed.

Lemma connectAll_registry components rt :
  rt_registry (connectAll components rt) =
  Nat.iter (length components) registerEventListeners (rt_registry rt).
Proof.
  unfold connectAll. revert rt.
  induction components as [|c cs IH]; intros rt; simpl; [done|].
  rewrite IH, connectedCallback_registry.
  clear IH. induction (length cs) as [|n IHn]; simpl; [done|]. by rewrite IHn.
Qed.

(** On the initialised registry an event of a supported kind is handled
    by exactly one listener, the one registered for its kind. *)
Lemma dispatch_runs_one_listener pg event :
  event_type event ∈ events ++ expensiveEvents ->
  dispatch pg (registerEventListeners freshRegistry) event
  = [listener pg (event_type event) event].
Proof.
  intros Hkind. unfold dispatch.
  repeat (apply elem_of_cons in Hkind as [->|Hkind]; [reflexivity|]).
  by apply elem_of_nil in Hkind.
Qed.

(** C8. The registry is initialised once: any number of calls, at least
    one, of [registerEventListeners] on a freshly loaded module, and any
    number of components connecting, leave the registry that the first
    call produced; that registry holds one capturing listener for each
    of the twelve supported event kinds; and on any registry a second
    call changes nothing. *)
Theorem registry_initialized_once
    (n : nat) (doc : Node) (c : Path * option (list string))
    (cs : list (Path * option (list string))) (r : Registry) :
  let once := registerEventListeners freshRegistry in
  Nat.iter (S n) registerEventListeners freshRegistry = once
  /\ rt_registry (connectAll (c :: cs) (freshRuntime doc)) = once
  /\ map reg_eventName (listeners once) = events ++ expensiveEvents
  /\ NoDup (map reg_eventName (listeners once))
  /\ Forall (fun reg => reg_capture reg = true) (listeners once)
  /\ registerEventListeners (registerEventListeners r) = registerEventListeners r.
Proof.
  intros once. split; [apply registerEventListeners_iter|].
  split.
  { rewrite connectAll_registry. apply registerEventListeners_iter. }
  split; [reflexivity|].
  split.
  { apply (bool_decide_unpack _). by vm_compute. }
  split.
  { repeat constructor. }
  apply registerEventListeners_idempotent.
Qed.

End RegistryFacts.

Section ParsingFacts.

(** The string primitives on the inputs that the theme's templates
    produce. *)
Example split_examples :
  split "/" "/setQty?amount=2" = [""; "setQty?amount=2"]
  /\ split "/" "#cart-drawer/open" = ["#cart-drawer"; "open"]
  /\ split "/" "save" = ["save"]
  /\ split "/" "" = [""].
Proof. repeat split; reflexivity. Qed.

Example lastSegment_examples :
  lastSegment "/save" = None
  /\ lastSegment "/setQty?amount=2" = Some "?amount=2"
  /\ lastSegment "/select/3" = Some "/3"
  /\ lastSegment "#cart-drawer/open" = None
  /\ lastSegment "#cart-drawer/open?animate=false" = Some "?animate=false"
  /\ lastSegment "/a/b/" = None.
Proof. repeat split; reflexivity. Qed.

Example stripQuery_examples :
  stripQuery "setQty?amount=2" = "setQty" /\ stripQuery "save" = "save".
Proof. split; reflexivity. Qed.

Example parseValue_examples :
  parseValue "true" = VBoolean true
  /\ parseValue "false" = VBoolean false
  /\ parseValue "2" = VNumber (Finite false 2)
  /\ parseValue "2.50" = VNumber (Finite false (5 # 2))
  /\ parseValue "-0" = VNumber (Finite true 0)
  /\ parseValue " 12e-1 " = VNumber (Finite false (6 # 5))
  /\ parseValue "0x1F" = VNumber (Finite false 31)
  /\ parseValue "Infinity" = VNumber (Infinity false)
  /\ parseValue "" = VString ""
  /\ parseValue " " = VString " "
  /\ parseValue "1e" = VString "1e"
  /\ parseValue "12px" = VString "12px"
  /\ parseValue "True" = VString "True".
Proof. repeat split; by vm_compute. Qed.

Example urlSearchParams_examples :
  urlSearchParams "amount=2" = [("amount", "2")]
  /\ urlSearchParams "a=1&b=x%20y+z&&c" = [("a", "1"); ("b", "x y z"); ("c", "")]
  /\ urlSearchParams "k=a=b" = [("k", "a=b")].
Proof. repeat split; reflexivity. Qed.

Example parseInt10_examples :
  parseInt10 "2" = Some 2%Z /\ parseInt10 " -12px" = Some (-12)%Z
  /\ parseInt10 "two" = None /\ parseInt10 "" = None.
Proof. repeat split; reflexivity. Qed.

End ParsingFacts.

Section ListenerFacts.

Local Ltac quiet :=
  unfold silent; cbn [effects thrown]; intros Hnil; by apply elem_of_nil in Hnil.

Implicit Types (pg : Page) (event : Event) (element instance : Path).

(** The listener, once the bound element is known, in terms of the
    segments of its binding. *)
Lemma listener_unfold pg eventName event element :
  getElement pg event = Some element ->
  listener pg eventName event =
  match resolveInstance pg element (bindingSelector pg eventName element) with
  | inl e => {| effects := []; thrown := Some e |}
  | inr instance =>
      match instance, bindingMethod pg eventName element with
      | Some (ElementAt instance), Some (String c m) =>
          if instanceofComponent (document pg) (ElementAt instance) then
            if isFunction pg instance (stripQuery (String c m)) then
              let args :=
                match lastSegment (bindingValue pg eventName element) with
                | Some data => [ArgData (parseData data);
                                ArgEvent (deliveredEvent event element)]
                | None => [ArgEvent (deliveredEvent event element)]
                end in
              match callMethod pg instance (stripQuery (String c m)) args with
              | None => {| effects := [Invoke instance (stripQuery (String c m)) args];
                           thrown := None |}
              | Some error =>
                  {| effects := [Invoke instance (stripQuery (String c m)) args;
                                 ConsoleError error];
                     thrown := None |}
              end
            else silent
          else silent
      | _, _ => silent
      end
  end.
Proof.
  intros Hel. unfold listener. rewrite Hel.
  unfold bindingSelector, bindingMethod, bindingValue, deliveredEvent, silent.
  destruct (resolveInstance _ _ _) as [e|[[|instance|h]|]]; try done.
  destruct (split _ _ !! 1%nat) as [[|c m]|]; try done.
  destruct (instanceofComponent _ _); [|done].
  destruct (isFunction _ _ _); [|done].
  by destruct (bool_decide (event_target event = TargetElement element)).
Qed.

Lemma resolveInstance_no_selector pg element :
  resolveInstance pg element "" = inr (getClosestComponent (document pg) (ElementAt element)).
Proof. reflexivity. Qed.

(** The only exception that leaves the listener is the [SyntaxError] of
    a selector lookup, raised before any method is invoked. *)
Lemma listener_throws_only_on_selector pg eventName event e :
  thrown (listener pg eventName event) = Some e ->
  effects (listener pg eventName event) = []
  /\ exists selector, e = SyntaxError selector /\ parseSelector pg selector = None.
Proof.
  destruct (getElement pg event) as [element|] eqn:Hel.
  2:{ unfold listener. rewrite Hel. done. }
  rewrite (listener_unfold _ _ _ _ Hel).
  destruct (resolveInstance _ _ _) as [err|[[|inst|h]|]] eqn:Hres;
    try (first [ done | unfold silent; by destruct (bindingMethod _ _ _) as [[|? ?]|] ]).
  - cbn [effects thrown]. intros [= ->]. split; [done|].
    unfold resolveInstance, querySelector, closestSelector in Hres.
    destruct (negb _); [|done].
    exists (bindingSelector pg eventName element).
    destruct (startsWith _ _);
      destruct (parseSelector pg _) eqn:Hsel; try done; by injection Hres as <-.
  - destruct (bindingMethod _ _ _) as [[|c m]|]; try done.
    destruct (instanceofComponent _ _); [|done].
    destruct (isFunction _ _ _); [|done].
    cbv zeta. by destruct (callMethod _ _ _ _).
Qed.

(** C6. For a click whose bound element is enclosed by a [Component]
    instance: with [on:click="/save"] and a method [save], the listener
    invokes [save] on that instance with the (possibly wrapped) event as
    sole argument; with [on:click="/setQty?amount=2"] and a method
    [setQty], it invokes [setQty] with the object [{amount: 2}] followed
    by the event. A segment that starts with [?] is parsed as
    query-string pairs, one that starts with [/] as a single scalar, and
    every value becomes a boolean, a number or the string itself. *)
Theorem click_binding_invokes_method pg event element instance :
  getElement pg event = Some element ->
  getClosestComponent (document pg) (ElementAt element) = Some (ElementAt instance) ->
  instanceofComponent (document pg) (ElementAt instance) = true ->
  (getAttribute (document pg) element "on:click" = Some "/save" ->
   isFunction pg instance "save" = true ->
   exists logged,
     effects (listener pg "click" event) =
     Invoke instance "save" [ArgEvent (deliveredEvent event element)] :: logged)
  /\ (getAttribute (document pg) element "on:click" = Some "/setQty?amount=2" ->
      isFunction pg instance "setQty" = true ->
      exists logged,
        effects (listener pg "click" event) =
        Invoke instance "setQty"
          [ArgData (DObject {[ "amount" := VNumber (Finite false 2) ]});
           ArgEvent (deliveredEvent event element)] :: logged)
  /\ (forall query,
        parseData (String "?" query) =
        DObject (fromEntries (map (fun kv => (fst kv, parseValue (snd kv)))
                                  (urlSearchParams query))))
  /\ (forall scalar, parseData (String "/" scalar) = DValue (parseValue scalar))
  /\ (forall str,
        (str = "true" /\ parseValue str = VBoolean true)
        \/ (str = "false" /\ parseValue str = VBoolean false)
        \/ (exists n, Number str = Some n /\ trim str <> "" /\ parseValue str = VNumber n)
        \/ parseValue str = VString str).
Proof.
  intros Hel Hclosest Hcomponent.
  pose proof (listener_unfold pg "click" event element Hel) as Hl.
  split; [|split; [|split; [|split]]].
  - intros Hattr Hfun. revert Hl.
    unfold bindingSelector, bindingMethod, bindingValue.
    change ("on:" ++ "click")%string with "on:click". rewrite Hattr.
    change (default "" (split "/" (default "" (Some "/save")) !! 0%nat)) with "".
    change (split "/" (default "" (Some "/save")) !! 1%nat) with (Some "save").
    change (lastSegment (default "" (Some "/save"))) with (@None string).
    rewrite resolveInstance_no_selector, Hclosest. cbv beta iota.
    change (stripQuery "save") with "save".
    rewrite Hcomponent, Hfun. intros ->.
    cbv zeta. destruct (callMethod _ _ _ _); by eexists.
  - intros Hattr Hfun. revert Hl.
    unfold bindingSelector, bindingMethod, bindingValue.
    change ("on:" ++ "click")%string with "on:click". rewrite Hattr.
    change (default "" (split "/" (default "" (Some "/setQty?amount=2")) !! 0%nat))
      with "".
    change (split "/" (default "" (Some "/setQty?amount=2")) !! 1%nat)
      with (Some "setQty?amount=2").
    change (lastSegment (default "" (Some "/setQty?amount=2")))
      with (Some "?amount=2").
    rewrite resolveInstance_no_selector, Hclosest. cbv beta iota.
    change (stripQuery "setQty?amount=2") with "setQty".
    rewrite Hcomponent, Hfun. intros ->.
    assert (Hdata : parseData "?amount=2"
                    = DObject {[ "amount" := VNumber (Finite false 2) ]})
      by (by vm_compute).
    rewrite Hdata. cbv zeta. destruct (callMethod _ _ _ _); by eexists.
  - reflexivity.
  - reflexivity.
  - intros str. unfold parseValue.
    case_bool_decide; [by left|].
    case_bool_decide; [by right; left|].
    destruct (Number str) as [n|]; [|by right; right; right].
    case_bool_decide as Htrim; simpl; [by right; right; right|].
    right; right; left. by exists n.
Qed.

Lemma click_binding_invokes_method_witness :
  (exists logged,
     effects (listener (cartPage "/save" None) "click" clickOnSpan) =
     Invoke [] "save" [ArgEvent (ProxiedEvent clickOnSpan [Child 0])] :: logged)
  /\ (exists logged,
        effects (listener (cartPage "/setQty?amount=2" None) "click" clickOnSpan) =
        Invoke [] "setQty"
          [ArgData (DObject {[ "amount" := VNumber (Finite false 2) ]});
           ArgEvent (ProxiedEvent clickOnSpan [Child 0])] :: logged).
Proof.
  split.
  - refine (proj1 (click_binding_invokes_method (cartPage "/save" None) clickOnSpan
                     [Child 0] [] _ _ _) _ _); reflexivity.
  - refine (proj1 (proj2 (click_binding_invokes_method
                            (cartPage "/setQty?amount=2" None) clickOnSpan
                            [Child 0] [] _ _ _)) _ _); reflexivity.
Defined.

(** C7. Whenever the listener invokes a component method, no exception
    leaves the listener: if the method throws, the exception is logged
    with [console.error] right after the invocation, and the listener
    returns normally, as it does when the method returns. *)
Theorem method_exception_is_caught pg eventName event instance method args :
  Invoke instance method args ∈ effects (listener pg eventName event) ->
  thrown (listener pg eventName event) = None
  /\ (forall e, callMethod pg instance method args = Some e ->
        effects (listener pg eventName event) =
        [Invoke instance method args; ConsoleError e])
  /\ (callMethod pg instance method args = None ->
        effects (listener pg eventName event) = [Invoke instance method args]).
Proof.
  destruct (getElement pg event) as [element|] eqn:Hel.
  2:{ unfold listener. rewrite Hel. simpl. intros H. by apply elem_of_nil in H. }
  rewrite (listener_unfold _ _ _ _ Hel).
  destruct (resolveInstance _ _ _) as [e|[[|inst|h]|]]; try quiet.
  destruct (bindingMethod _ _ _) as [[|c m]|]; try quiet.
  destruct (instanceofComponent _ _); try quiet.
  destruct (isFunction _ _ _); try quiet.
  cbv zeta.
  generalize (stripQuery (String c m)) as name.
  generalize (match lastSegment (bindingValue pg eventName element) with
              | Some data => [ArgData (parseData data);
                              ArgEvent (deliveredEvent event element)]
              | None => [ArgEvent (deliveredEvent event element)]
              end) as passed.
  intros passed name.
  destruct (callMethod pg inst name passed) as [err|] eqn:Hcall; cbn [effects thrown]; intros Hin.
  - apply elem_of_cons in Hin as [Heq|Hin].
    2:{ apply elem_of_cons in Hin as [Heq|Hin]; [done | by apply elem_of_nil in Hin]. }
    inversion Heq; subst. rewrite Hcall. split; [done|].
    split; [by intros e [= <-] | done].
  - apply elem_of_cons in Hin as [Heq|Hin]; [|by apply elem_of_nil in Hin].
    inversion Heq; subst. rewrite Hcall. by split.
Qed.

Lemma method_exception_is_caught_witness :
  let pg := cartPage "/save" (Some (MethodError "cart is locked")) in
  let result := listener pg "click" clickOnSpan in
  thrown result = None
  /\ exists args, effects result =
                  [Invoke [] "save" args; ConsoleError (MethodError "cart is locked")].
Proof.
  intros pg result.
  assert (Hin : Invoke [] "save" [ArgEvent (ProxiedEvent clickOnSpan [Child 0])]
                ∈ effects result) by (vm_compute; left).
  destruct (method_exception_is_caught pg "click" clickOnSpan _ _ _ Hin)
    as (Hthrown & Hcaught & _).
  split; [exact Hthrown|]. eexists. exact (Hcaught _ eq_refl).
Defined.

(** C10, as stated, fails. A binding whose only segment is the invalid
    selector ["["] has an empty method segment, yet the dispatch does
    not complete silently: looking the selector up throws a
    [SyntaxError] out of the listener. *)
Lemma invalid_selector_throws :
  let pg := cartPage "[" None in
  getElement pg clickOnSpan = Some [Child 0]
  /\ bindingSelector pg "click" [Child 0] = "["
  /\ bindingMethod pg "click" [Child 0] = None
  /\ listener pg "click" clickOnSpan =
     {| effects := []; thrown := Some (SyntaxError "[") |}.
Proof. vm_compute. repeat split; reflexivity. Qed.

(** C10, amended. For a dispatched event whose bound element carries a
    binding attribute whose selector segment is empty or a valid
    selector: if no target instance resolves to a [Component], or the
    method segment is missing or empty, or the resolved instance has no
    function under the parsed method name, the dispatch is a silent
    no-op: no method is invoked and no error is thrown. *)
Theorem unresolved_binding_is_silent pg eventName event element :
  getElement pg event = Some element ->
  (bindingSelector pg eventName element = ""
   \/ is_Some (parseSelector pg (bindingSelector pg eventName element))) ->
  ((forall instance,
      resolveInstance pg element (bindingSelector pg eventName element)
      = inr (Some (ElementAt instance)) ->
      instanceofComponent (document pg) (ElementAt instance) = false)
   \/ bindingMethod pg eventName element = None
   \/ bindingMethod pg eventName element = Some ""
   \/ (forall instance method,
         resolveInstance pg element (bindingSelector pg eventName element)
         = inr (Some (ElementAt instance)) ->
         bindingMethod pg eventName element = Some method ->
         isFunction pg instance (stripQuery method) = false)) ->
  listener pg eventName event = silent.
Proof.
  intros Hel Hvalid Hcases. rewrite (listener_unfold _ _ _ _ Hel).
  destruct (resolveInstance _ _ _) as [err|[[|inst|h]|]] eqn:Hres;
    try (first [ done | by destruct (bindingMethod _ _ _) as [[|? ?]|] ]).
  - exfalso. unfold resolveInstance, querySelector, closestSelector in Hres.
    destruct Hvalid as [Hempty|[matches Hsel]].
    + by rewrite Hempty in Hres.
    + rewrite Hsel in Hres. destruct (negb _); [|done]. by destruct (startsWith _ _).
  - destruct (bindingMethod _ _ _) as [[|c m]|] eqn:Hm; try done.
    destruct Hcases as [Hnone|[?|[?|Hfun]]]; try done.
    + by rewrite (Hnone inst eq_refl).
    + destruct (instanceofComponent _ _); [|done].
      by rewrite (Hfun inst _ eq_refl eq_refl).
Qed.

Lemma unresolved_binding_is_silent_witness :
  listener (cartPage "#cart-drawer/open" None) "click" clickOnSpan = silent
  /\ listener (cartPage "/" None) "click" clickOnSpan = silent
  /\ listener (cartPage "/checkout" None) "click" clickOnSpan = silent.
Proof.
  split; [|split].
  - apply (unresolved_binding_is_silent _ _ _ [Child 0]).
    + reflexivity.
    + right. by eexists.
    + left. intros instance H. by vm_compute in H.
  - apply (unresolved_binding_is_silent _ _ _ [Child 0]).
    + reflexivity.
    + by left.
    + right. right. by left.
  - apply (unresolved_binding_is_silent _ _ _ [Child 0]).
    + reflexivity.
    + by left.
    + right. right. right. intros instance method Hres Hm.
      vm_compute in Hres. vm_compute in Hm.
      injection Hres as <-. injection Hm as <-. reflexivity.
Defined.

End ListenerFacts.

(* ===================================================================== *)
(** * Further properties of the overflow list *)
(* ===================================================================== *)

Section OverflowCoverage.

Implicit Types (st : OverflowList) (g : Geometry) (cs : list (Elem * Slot)).
Implicit Types (e : Elem) (l elements : list Elem) (forced : option Elem).

(** Children are distinct elements, so a child sits in one slot. *)
Lemma slot_unique cs e (s s' : Slot) :
  NoDup (map fst cs) -> (e, s) ∈ cs -> (e, s') ∈ cs -> s = s'.
Proof.
  intros Hnd H1 H2.
  apply list_elem_of_lookup in H1 as [i Hi]. apply list_elem_of_lookup in H2 as [j Hj].
  assert (i = j).
  { apply (NoDup_lookup _ i j e Hnd).
    - change (map fst ?l) with (fst <$> l). by rewrite list_lookup_fmap, Hi.
    - change (map fst ?l) with (fst <$> l). by rewrite list_lookup_fmap, Hj. }
  subst j. congruence.
Qed.

(** The items of a reflow are the members of the default and of the
    overflow slot. *)
Lemma elem_of_reflowElements st e :
  e ∈ reflowElements st
  <-> (e, DefaultSlot) ∈ children st \/ (e, OverflowSlot) ∈ children st.
Proof.
  unfold reflowElements. rewrite elem_of_assignedElements, moveItems_map.
  rewrite list_elem_of_In, in_map_iff. split.
  - intros [[x s] [Hx Hin]]. simpl in Hx. apply list_elem_of_In in Hin.
    destruct (includes x (assignedElements OverflowSlot st)) eqn:Hinc.
    + inversion Hx; subst. right.
      by apply elem_of_assignedElements, includes_true.
    + inversion Hx; subst. by left.
  - intros [H|H].
    + exists (e, DefaultSlot). split; [|by apply list_elem_of_In].
      simpl. by destruct (includes _ _).
    + exists (e, OverflowSlot). split; [|by apply list_elem_of_In].
      simpl. apply elem_of_assignedElements, includes_true in H. by rewrite H.
Qed.

Lemma elem_of_getVisibleElements g top elements e :
  e ∈ getVisibleElements g top elements <-> e ∈ elements /\ (top e <= rootTop g)%Q.
Proof.
  unfold getVisibleElements. rewrite list_elem_of_filter.
  rewrite <- Qle_bool_iff, Is_true_true. tauto.
Qed.

Lemma getVisibleElements_all g top elements :
  (forall e, e ∈ elements -> (top e <= rootTop g)%Q) ->
  getVisibleElements g top elements = elements.
Proof.
  intros Hfit. unfold getVisibleElements. induction elements as [|x l IH]; [done|].
  rewrite filter_cons. rewrite decide_True.
  - f_equal. apply IH. intros e He. apply Hfit. by right.
  - apply Is_true_true, Qle_bool_iff, Hfit. left.
Qed.

Lemma measuredVisible_subset g forced elements e :
  e ∈ measuredVisible g forced elements -> e ∈ elements.
Proof.
  unfold measuredVisible.
  destruct (needsMore _ _ _); rewrite elem_of_getVisibleElements; tauto.
Qed.

Lemma elem_of_overflowing g forced elements e :
  e ∈ overflowingElements g forced elements
  <-> e ∈ elements /\ e ∉ measuredVisible g forced elements.
Proof.
  unfold overflowingElements. rewrite list_elem_of_filter, negb_True.
  rewrite <- elem_of_visibleElements. split.
  - intros [Hn He]. split; [done|]. intros Hin. apply Hn.
    by apply Is_true_true, includes_true.
  - intros [He Hn]. split; [|done]. intros Hin. apply Hn.
    by apply includes_true, Is_true_true.
Qed.

Lemma elem_of_moveItems_named st e name :
  NoDup (map fst (children st)) ->
  (e, NamedSlot name) ∈ children (moveItemsToDefaultSlot st)
  <-> (e, NamedSlot name) ∈ children st.
Proof.
  intros Hnd. rewrite moveItems_map. rewrite list_elem_of_In, in_map_iff. split.
  - intros [[x s] [Hx Hin]]. simpl in Hx. apply list_elem_of_In in Hin.
    destruct (includes x _); [done|]. by inversion Hx; subst.
  - intros Hin. exists (e, NamedSlot name). split; [|by apply list_elem_of_In].
    simpl. destruct (includes e _) eqn:Hinc; [|done].
    apply includes_true, elem_of_assignedElements in Hinc.
    by pose proof (slot_unique _ _ _ _ Hnd Hin Hinc).
Qed.

Lemma named_slot_kept g forced st e name :
  NoDup (map fst (children st)) ->
  (e, NamedSlot name) ∈ children (reflowItems g forced st)
  <-> (e, NamedSlot name) ∈ children st.
Proof.
  intros Hnd. rewrite children_reflowItems, assignSlots_map.
  assert (Hnd' : NoDup (map fst (children (moveItemsToDefaultSlot st))))
    by (by rewrite map_fst_moveItems).
  rewrite <- (elem_of_moveItems_named st e name Hnd).
  rewrite list_elem_of_In, in_map_iff. split.
  - intros [[x s] [Hx Hin]]. simpl in Hx. apply list_elem_of_In in Hin.
    destruct (includes x (reflowElements st)).
    + by destruct (includes x (overflowingElements _ _ _)).
    + by inversion Hx; subst.
  - intros Hin. exists (e, NamedSlot name). split; [|by apply list_elem_of_In].
    simpl. destruct (includes e (reflowElements st)) eqn:Hinc; [|done].
    apply includes_true in Hinc. unfold reflowElements in Hinc.
    apply elem_of_assignedElements in Hinc.
    by pose proof (slot_unique _ _ _ _ Hnd' Hin Hinc).
Qed.

Lemma map_fst_reflowItems g forced st :
  map fst (children (reflowItems g forced st)) = map fst (children st).
Proof.
  rewrite children_reflowItems, assignSlots_map, map_map.
  rewrite <- map_fst_moveItems. apply map_ext. intros [x s]. simpl.
  by destruct (includes x (reflowElements st)).
Qed.

(** The styles that a reflow leaves behind. *)
Lemma styles_reflowItems g forced st :
  let overflowing := overflowingElements g forced (reflowElements st) in
  styles (reflowItems g forced st) =
  {| list_height := if truthy (firstChildHeight g) then firstChildHeight g
                    else list_height (styles st);
     list_counter_reset := Some (length overflowing);
     overflow_count := Some (length overflowing);
     more_hidden := bool_decide (overflowing = []);
     placeholder_hidden := bool_decide (overflowing = []);
     placeholder_width :=
       match overflowing with
       | first :: _ => Some (clientWidth g first)
       | [] => placeholder_width (styles st)
       end;
     placeholder_display_none := placeholder_display_none (styles st) |}.
Proof.
  cbv zeta. unfold reflowItems.
  change (assignedElements DefaultSlot (moveItemsToDefaultSlot (disconnectObservers st)))
    with (reflowElements st).
  destruct (overflowingElements g forced (reflowElements st)) as [|o os]; simpl; [done|].
  unfold updateMinimumReached. by destruct (minimumItems _).
Qed.

Lemma needsMore_false g elements :
  (forall e, e ∈ elements -> (topPlain g e <= rootTop g)%Q) ->
  needsMore g None elements = false.
Proof.
  intros Hfit. unfold needsMore.
  rewrite getVisibleElements_all by done. by rewrite Nat.eqb_refl.
Qed.

Lemma needsMore_true g forced elements :
  is_Some forced \/ (exists e, e ∈ elements /\ ~ (topPlain g e <= rootTop g)%Q) ->
  needsMore g forced elements = true.
Proof.
  intros [Hf|[e [He Htop]]]; unfold needsMore.
  - rewrite (bool_decide_eq_true_2 _ Hf). apply orb_true_r.
  - apply orb_true_iff. left. apply negb_true_iff, Nat.eqb_neq. intros Hlen.
    apply Htop. unfold getVisibleElements in Hlen.
    assert (Hall : filter (fun el => Qle_bool (topPlain g el) (rootTop g)) elements
                   = elements).
    { clear He Htop. induction elements as [|x l IH]; [done|].
      rewrite filter_cons in *. destruct (decide _) as [Hx|Hx]; simpl in Hlen.
      - f_equal. apply IH. lia.
      - pose proof (length_filter (fun el => Qle_bool (topPlain g el) (rootTop g)) l).
        lia. }
    rewrite <- Hall in He. apply list_elem_of_filter in He as [He _].
    by apply Qle_bool_iff, Is_true_true.
Qed.

Lemma reflow_without_overflow g forced st :
  overflowingElements g forced (reflowElements st) = [] ->
  dispatched (reflowItems g forced st) = dispatched st
  /\ attr_minimum_reached (reflowItems g forced st) = attr_minimum_reached st.
Proof.
  intros Hov. pose proof (reflowItems_minimum g forced st) as H. cbv zeta in H.
  rewrite Hov in H. by apply pair_equal_spec in H as [-> ->].
Qed.

Lemma lessThan_spec n (m : option Z) :
  lessThan n m = match m with
                 | Some z => bool_decide (Z.of_nat n < z)%Z
                 | None => false
                 end.
Proof.
  destruct m as [z|]; [|done]. simpl.
  destruct (Z.ltb_spec (Z.of_nat n) z).
  - by rewrite bool_decide_eq_true_2.
  - rewrite bool_decide_eq_false_2; [done | lia].
Qed.

Lemma assignedElements_children s st1 st2 :
  children st1 = children st2 -> assignedElements s st1 = assignedElements s st2.
Proof. unfold assignedElements. by intros ->. Qed.

(** Moving the items back after a reflow gives what moving them back
    before it gave. *)
Lemma moveItems_after_reflow g forced st :
  NoDup (map fst (children st)) ->
  children (moveItemsToDefaultSlot (reflowItems g forced st))
  = children (moveItemsToDefaultSlot st).
Proof.
  intros Hnd.
  assert (Hnd0 : NoDup (map fst (children (moveItemsToDefaultSlot st))))
    by (by rewrite map_fst_moveItems).
  rewrite (moveItems_map (reflowItems g forced st)).
  rewrite (proj1 (reflow_partition g forced st Hnd)).
  rewrite children_reflowItems, assignSlots_map, map_map.
  rewrite <- (map_id (children (moveItemsToDefaultSlot st))) at 2.
  apply map_ext_in. intros [x s] Hin. apply list_elem_of_In in Hin. simpl.
  destruct (includes x (reflowElements st)) eqn:Hel.
  - assert (s = DefaultSlot).
    { apply includes_true in Hel. unfold reflowElements in Hel.
      apply elem_of_assignedElements in Hel.
      by apply (slot_unique _ _ _ _ Hnd0 Hin Hel). }
    subst s. simpl.
    destruct (includes x (overflowingElements g forced (reflowElements st))); simpl.
    + done.
    + by destruct (includes x _).
  - simpl. destruct (includes x (overflowingElements g forced (reflowElements st)))
      eqn:Hov; [|done].
    apply includes_true, elem_of_overflowing in Hov as [Hx _].
    apply includes_false in Hel. done.
Qed.

Lemma scheduler_reflowItems g forced st :
  scheduled (reflowItems g forced st) = scheduled st
  /\ pending (reflowItems g forced st) = pending st.
Proof.
  unfold reflowItems. simpl. destruct (negb _); [|done].
  unfold updateMinimumReached. by destruct (minimumItems _).
Qed.

Lemma observers_reflowItems g forced st :
  observers (reflowItems g forced st)
  = {| resize_observing := true; notifier_initialized := false;
       mutation_observing := true |}
  /\ lastDimensions (reflowItems g forced st)
     = (Some (Math_round (rootWidth g)), Some (Math_round (rootHeight g))).
Proof.
  unfold reflowItems. simpl. destruct (negb _); [|done].
  unfold updateMinimumReached. by destruct (minimumItems _).
Qed.

(** The scheduler holds a reflow exactly while [#scheduled] is set. *)
Lemma scheduler_handleChange entries st :
  pending st = (if scheduled st then 1 else 0)%nat ->
  pending (handleChange entries st)
  = (if scheduled (handleChange entries st) then 1 else 0)%nat.
Proof.
  intros Hinv. unfold handleChange. destruct (scheduled st) eqn:Hs; [by rewrite Hs|].
  destruct (readEntries entries None) as [[w h]|]; simpl.
  - destruct (_ || _); simpl; [by rewrite Hs | by rewrite Hinv].
  - by rewrite Hinv.
Qed.

Lemma scheduler_step s st :
  pending st = (if scheduled st then 1 else 0)%nat ->
  pending (step s st) = (if scheduled (step s st) then 1 else 0)%nat.
Proof.
  intros Hinv. destruct s as [entries| |g|g last|g]; cbn [step].
  - destruct (resize_observing _); [|done].
    destruct (notifier_initialized _); [by apply scheduler_handleChange | done].
  - destruct (mutation_observing _); [by apply scheduler_handleChange | done].
  - destruct (pending st) as [|n] eqn:Hp; [congruence|].
    unfold scheduledReflow. cbn -[reflowItems].
    destruct (scheduler_reflowItems g None (set_scheduler (scheduled st) n st)) as [_ ->].
    simpl. destruct (scheduled st); lia.
  - by destruct (scheduler_reflowItems g (Some last) st) as [-> ->].
  - done.
Qed.

Lemma scheduler_run steps st :
  pending st = (if scheduled st then 1 else 0)%nat ->
  pending (run steps st) = (if scheduled (run steps st) then 1 else 0)%nat.
Proof.
  revert st. induction steps as [|s steps IH]; intros st Hinv; [done|].
  simpl. apply IH. by apply scheduler_step.
Qed.






(** X1. A reflow neither adds, removes nor reorders the children of the
    list. Its items are the members of the default and of the overflow
    slot; afterwards every item sits in exactly one of these two slots,
    both slots list their members in document order, and the children
    assigned to any other slot (such as "more") are the same as before. *)
Theorem reflow_distributes_every_item g forced st :
  NoDup (map fst (children st)) ->
  let st' := reflowItems g forced st in
  let items := reflowElements st in
  let visible := assignedElements DefaultSlot st' in
  let overflowing := assignedElements OverflowSlot st' in
  map fst (children st') = map fst (children st)
  /\ (forall e, e ∈ items
        <-> (e, DefaultSlot) ∈ children st \/ (e, OverflowSlot) ∈ children st)
  /\ (forall e, e ∈ items <-> e ∈ visible \/ e ∈ overflowing)
  /\ (forall e, e ∈ visible -> e ∉ overflowing)
  /\ visible = filter (fun e => e ∉ overflowing) items
  /\ overflowing = filter (fun e => e ∈ overflowing) items
  /\ (forall e name, (e, NamedSlot name) ∈ children st'
        <-> (e, NamedSlot name) ∈ children st).
Proof.
  intros Hnd. cbv zeta.
  destruct (reflow_partition g forced st Hnd) as [Ho Hd]. rewrite Ho, Hd.
  split; [apply map_fst_reflowItems|].
  split; [apply elem_of_reflowElements|].
  split; [|split; [|split; [|split]]].
  - intros e. rewrite elem_of_overflowing.
    destruct (decide (e ∈ measuredVisible g forced (reflowElements st))) as [Hv|Hv].
    + split; [by left|]. intros _. by apply measuredVisible_subset in Hv.
    + split; [by right|]. by intros [?|[? _]].
  - intros e Hv. rewrite elem_of_overflowing. by intros [_ Hn].
  - by rewrite not_overflowing_measured.
  - by rewrite overflowing_filter.
  - intros e name. by apply named_slot_kept.
Qed.

Lemma reflow_distributes_every_item_witness :
  let st := threeItems None false in
  let st' := reflowItems firstFitsGeometry None st in
  map fst (children st') = [0; 1; 2; 9]%nat
  /\ assignedElements DefaultSlot st' = [0%nat]
  /\ assignedElements OverflowSlot st' = [1; 2]%nat
  /\ (forall e, e ∈ assignedElements DefaultSlot st' ->
                e ∉ assignedElements OverflowSlot st')
  /\ (9%nat, NamedSlot "more") ∈ children st'.
Proof.
  intros st st'.
  assert (Hnd : NoDup (map fst (children st))).
  { apply (bool_decide_unpack _). by vm_compute. }
  pose proof (reflow_distributes_every_item firstFitsGeometry None st Hnd) as H.
  cbv zeta in H. destruct H as (Hids & _ & _ & Hdisjoint & _ & _ & Hnamed).
  split; [exact Hids|]. split; [reflexivity|]. split; [reflexivity|].
  split; [exact Hdisjoint|]. apply Hnamed, list_elem_of_In. simpl. auto 10.
Defined.

(** X2. When no last visible element is forced and every item has its
    top edge on the first row while the "more" slot is hidden, a reflow
    leaves every item in the default slot, hides the "more" slot, sets
    the overflow count to 0 and neither dispatches an event nor touches
    [minimum-reached]. Otherwise the second measurement, taken with the
    "more" slot (and the forced item) in front, decides alone: an item
    stays in the default slot when its top edge is then on the first
    row, and goes to the overflow slot when it is not. *)
Theorem overflow_follows_deciding_measurement g forced st :
  NoDup (map fst (children st)) ->
  let st' := reflowItems g forced st in
  let items := reflowElements st in
  (forced = None ->
   (forall e, e ∈ items -> (topPlain g e <= rootTop g)%Q) ->
   assignedElements OverflowSlot st' = []
   /\ assignedElements DefaultSlot st' = items
   /\ more_hidden (styles st') = true
   /\ overflow_count (styles st') = Some 0%nat
   /\ dispatched st' = dispatched st
   /\ attr_minimum_reached st' = attr_minimum_reached st)
  /\ (is_Some forced \/ (exists e, e ∈ items /\ ~ (topPlain g e <= rootTop g)%Q) ->
      forall e,
        (e ∈ assignedElements DefaultSlot st'
         <-> e ∈ items /\ (topMoreFirst g forced e <= rootTop g)%Q)
        /\ (e ∈ assignedElements OverflowSlot st'
            <-> e ∈ items /\ ~ (topMoreFirst g forced e <= rootTop g)%Q)).
Proof.
  intros Hnd. cbv zeta.
  destruct (reflow_partition g forced st Hnd) as [Ho Hd]. rewrite Ho, Hd.
  split.
  - intros -> Hfit.
    assert (Hvis : measuredVisible g None (reflowElements st) = reflowElements st).
    { unfold measuredVisible. rewrite needsMore_false by done.
      by apply getVisibleElements_all. }
    assert (Hov : overflowingElements g None (reflowElements st) = []).
    { apply elem_of_nil_inv. intros e. rewrite elem_of_overflowing, Hvis. tauto. }
    destruct (reflow_without_overflow g None st Hov) as [-> ->].
    by rewrite Hov, Hvis, styles_reflowItems, Hov.
  - intros Hmore e. rewrite elem_of_overflowing.
    unfold measuredVisible. rewrite needsMore_true by done.
    rewrite elem_of_getVisibleElements. tauto.
Qed.

Lemma overflow_follows_deciding_measurement_witness :
  let st := threeItems (Some "2") true in
  let st' := reflowItems (flatGeometry 0 0) None st in
  assignedElements OverflowSlot st' = []
  /\ assignedElements DefaultSlot st' = [0; 1; 2]%nat
  /\ more_hidden (styles st') = true
  /\ overflow_count (styles st') = Some 0%nat
  /\ dispatched st' = []
  /\ attr_minimum_reached st' = true.
Proof.
  intros st st'.
  assert (Hnd : NoDup (map fst (children st))).
  { apply (bool_decide_unpack _). by vm_compute. }
  apply (proj1 (overflow_follows_deciding_measurement (flatGeometry 0 0) None st Hnd)).
  - reflexivity.
  - intros e _. apply Qle_refl.
Defined.

(** X3. After a reflow the [--overflow-count] property and the
    [overflow-count] counter both hold the number of members of the
    overflow slot; the "more" slot is hidden exactly when that slot is
    empty; when it is not, the placeholder is shown with the client
    width of the first overflowing item, and when it is, the
    placeholder is hidden and keeps the width it had. *)
Theorem reflow_styles_follow_overflow g forced st :
  NoDup (map fst (children st)) ->
  let st' := reflowItems g forced st in
  let overflowing := assignedElements OverflowSlot st' in
  overflow_count (styles st') = Some (length overflowing)
  /\ list_counter_reset (styles st') = Some (length overflowing)
  /\ (more_hidden (styles st') = true <-> overflowing = [])
  /\ (forall first rest, overflowing = first :: rest ->
        placeholder_hidden (styles st') = false
        /\ placeholder_width (styles st') = Some (clientWidth g first))
  /\ (overflowing = [] ->
        placeholder_hidden (styles st') = true
        /\ placeholder_width (styles st') = placeholder_width (styles st)).
Proof.
  intros Hnd. cbv zeta.
  rewrite (proj1 (reflow_partition g forced st Hnd)), styles_reflowItems. simpl.
  split; [done|]. split; [done|]. split; [by rewrite bool_decide_eq_true|].
  split.
  - intros first rest ->. by rewrite bool_decide_eq_false_2.
  - intros ->. by rewrite bool_decide_eq_true_2.
Qed.

Lemma reflow_styles_follow_overflow_witness :
  let st' := reflowItems firstFitsGeometry None (threeItems None false) in
  overflow_count (styles st') = Some 2%nat
  /\ placeholder_hidden (styles st') = false
  /\ placeholder_width (styles st') = Some 100%Q.
Proof.
  intros st'.
  assert (Hnd : NoDup (map fst (children (threeItems None false)))).
  { apply (bool_decide_unpack _). by vm_compute. }
  pose proof (reflow_styles_follow_overflow firstFitsGeometry None
                (threeItems None false) Hnd) as H.
  cbv zeta in H. destruct H as (Hcount & _ & _ & Hshown & _).
  split; [exact Hcount|]. exact (Hshown 1%nat [2%nat] eq_refl).
Defined.

(** X4. The [minimum-items] attribute is read by [parseInt]. With the
    attribute absent or empty, or when nothing overflows, a reflow
    leaves [minimum-reached] alone and dispatches nothing. Otherwise it
    dispatches exactly one [overflowMinimum] event and sets
    [minimum-reached] to whether the number of visible items is below
    the parsed number; a value that [parseInt] reads as [NaN] gives
    [false] however few items are visible. *)
Theorem minimum_items_read_by_parseInt g forced st :
  NoDup (map fst (children st)) ->
  let st' := reflowItems g forced st in
  let visible := length (assignedElements DefaultSlot st') in
  let overflowing := assignedElements OverflowSlot st' in
  (attr_minimum_items st = None \/ attr_minimum_items st = Some "" \/ overflowing = [] ->
   attr_minimum_reached st' = attr_minimum_reached st
   /\ dispatched st' = dispatched st)
  /\ (forall value, attr_minimum_items st = Some value -> value <> "" ->
      overflowing <> [] ->
      let reached :=
        match parseInt10 value with
        | Some minimum => bool_decide (Z.of_nat visible < minimum)%Z
        | None => false
        end in
      attr_minimum_reached st' = reached
      /\ dispatched st' = dispatched st ++ [ {| minimumReached := reached |} ]).
Proof.
  intros Hnd. cbv zeta.
  rewrite (reflow_visible_count g forced st Hnd).
  rewrite (proj1 (reflow_partition g forced st Hnd)).
  pose proof (reflowItems_minimum g forced st) as H. cbv zeta in H.
  split.
  - intros Hcase.
    assert (Hsame : match overflowingElements g forced (reflowElements st),
                          minimumItems st with
                    | _ :: _, Some _ => False
                    | _, _ => True
                    end).
    { destruct Hcase as [Hn|[Hn| ->]]; [| |done];
        unfold minimumItems; rewrite Hn; by destruct (overflowingElements _ _ _). }
    destruct (overflowingElements g forced (reflowElements st)) as [|o os],
             (minimumItems st); try done; by apply pair_equal_spec in H.
  - intros value Hvalue Hne Hov.
    assert (Hmin : minimumItems st = Some (parseInt10 value)).
    { unfold minimumItems. rewrite Hvalue. by destruct value. }
    rewrite Hmin in H.
    destruct (overflowingElements g forced (reflowElements st)) as [|o os]; [done|].
    rewrite lessThan_spec in H. by apply pair_equal_spec in H.
Qed.

Lemma minimum_items_read_by_parseInt_witness :
  let numbered := reflowItems firstFitsGeometry None (threeItems (Some "2 items") false) in
  let worded := reflowItems firstFitsGeometry None (threeItems (Some "two") true) in
  (attr_minimum_reached numbered = true
   /\ dispatched numbered = [ {| minimumReached := true |} ])
  /\ (attr_minimum_reached worded = false
      /\ dispatched worded = [ {| minimumReached := false |} ]).
Proof.
  intros numbered worded.
  assert (Hnd : forall v r, NoDup (map fst (children (threeItems v r)))).
  { intros v r. apply (bool_decide_unpack _). by vm_compute. }
  split.
  - apply (proj2 (minimum_items_read_by_parseInt firstFitsGeometry None
                    (threeItems (Some "2 items") false) (Hnd _ _))
             "2 items" eq_refl); [discriminate | vm_compute; discriminate].
  - apply (proj2 (minimum_items_read_by_parseInt firstFitsGeometry None
                    (threeItems (Some "two") true) (Hnd _ _))
             "two" eq_refl); [discriminate | vm_compute; discriminate].
Defined.

(** X5. The distribution that a reflow produces does not depend on how
    an earlier reflow had distributed the items: reflowing after any
    other reflow gives the same slots as reflowing at once. *)
Theorem reflow_forgets_previous_distribution g forced g0 forced0 st :
  NoDup (map fst (children st)) ->
  children (reflowItems g forced (reflowItems g0 forced0 st))
  = children (reflowItems g forced st).
Proof.
  intros Hnd. rewrite !children_reflowItems.
  pose proof (moveItems_after_reflow g0 forced0 st Hnd) as Hmove.
  assert (Hel : reflowElements (reflowItems g0 forced0 st) = reflowElements st)
    by (by apply assignedElements_children).
  by rewrite Hel, Hmove.
Qed.

Lemma reflow_forgets_previous_distribution_witness :
  let st := threeItems None false in
  children (reflowItems (flatGeometry 0 0) None (reflowItems firstFitsGeometry None st))
  = children (reflowItems (flatGeometry 0 0) None st).
Proof.
  intros st. apply reflow_forgets_previous_distribution.
  apply (bool_decide_unpack _). by vm_compute.
Defined.

(** X6. Whatever resize notifications, mutation notifications, reflow
    requests, [showAll] calls and scheduler runs follow the
    initialisation of a list, the scheduler never holds more than one
    reflow of that list, and it holds one exactly while [#scheduled] is
    set. *)
Theorem at_most_one_reflow_pending g cs minimum_items (steps : list Step) :
  let st := run steps (initialize g cs minimum_items) in
  (pending st <= 1)%nat
  /\ (scheduled st = true <-> pending st = 1%nat)
  /\ (scheduled st = false <-> pending st = 0%nat).
Proof.
  cbv zeta.
  assert (Hinv : pending (run steps (initialize g cs minimum_items))
                 = (if scheduled (run steps (initialize g cs minimum_items))
                    then 1 else 0)%nat).
  { apply scheduler_run. unfold initialize.
    by destruct (scheduler_reflowItems g None
                   {| children := cs; attr_disabled := None;
                      attr_minimum_items := minimum_items;
                      attr_minimum_reached := false;
                      styles := {| list_height := None; list_counter_reset := None;
                                   overflow_count := None; more_hidden := false;
                                   placeholder_hidden := false;
                                   placeholder_width := None;
                                   placeholder_display_none := false |};
                      observers := {| resize_observing := false;
                                      notifier_initialized := false;
                                      mutation_observing := false |};
                      scheduled := false; pending := 0%nat;
                      lastDimensions := (None, None); dispatched := [] |})
      as [-> ->]. }
  rewrite Hinv. destruct (scheduled _); split; try lia; split; split; done.
Qed.

Lemma at_most_one_reflow_pending_witness :
  let st := run [ ResizeNotification [ResizeObserverEntry 300 40];
                  ResizeNotification [ResizeObserverEntry 200 40];
                  MutationNotification;
                  ResizeNotification [ResizeObserverEntry 100 40] ]
                (initialize (flatGeometry 0 0) [(0%nat, DefaultSlot)] None) in
  scheduled st = true /\ pending st = 1%nat.
Proof.
  intros st. split; [reflexivity|].
  apply (proj1 (proj2 (at_most_one_reflow_pending (flatGeometry 0 0)
                         [(0%nat, DefaultSlot)] None
                         [ ResizeNotification [ResizeObserverEntry 300 40];
                           ResizeNotification [ResizeObserverEntry 200 40];
                           MutationNotification;
                           ResizeNotification [ResizeObserverEntry 100 40] ]))).
  reflexivity.
Defined.

(** X7. The first size that the resize observer reports after a reflow
    is swallowed by the notifier: it only marks the notifier as
    initialised. A later report is ignored when a reflow is already
    scheduled, when either rounded dimension is 0, or when both rounded
    dimensions equal those of the list at the last reflow. Any other
    report schedules one reflow, records the rounded dimensions and
    leaves the slots as they are. *)
Theorem resize_reports_without_change_are_ignored g forced st entries (w h : Q) :
  let st' := reflowItems g forced st in
  let quiet := step (ResizeNotification entries) st' in
  let report := ResizeNotification [ResizeObserverEntry w h] in
  quiet = set_observers {| resize_observing := true; notifier_initialized := true;
                           mutation_observing := true |} st'
  /\ ((Math_round w = Math_round (rootWidth g)
       /\ Math_round h = Math_round (rootHeight g))
      \/ Math_round w = 0%Z \/ Math_round h = 0%Z \/ scheduled st = true ->
      step report quiet = quiet)
  /\ (scheduled st = false ->
      Math_round w <> 0%Z -> Math_round h <> 0%Z ->
      (Math_round w <> Math_round (rootWidth g)
       \/ Math_round h <> Math_round (rootHeight g)) ->
      scheduled (step report quiet) = true
      /\ pending (step report quiet) = S (pending st)
      /\ lastDimensions (step report quiet)
         = (Some (Math_round w), Some (Math_round h))
      /\ children (step report quiet) = children st').
Proof.
  cbv zeta.
  destruct (observers_reflowItems g forced st) as [Hobs Hdim].
  destruct (scheduler_reflowItems g forced st) as [Hsch Hpen].
  assert (Hquiet : step (ResizeNotification entries) (reflowItems g forced st)
                   = set_observers {| resize_observing := true;
                                      notifier_initialized := true;
                                      mutation_observing := true |}
                       (reflowItems g forced st)).
  { cbn [step]. by rewrite Hobs. }
  rewrite Hquiet. split; [done|].
  generalize dependent (reflowItems g forced st). intros st' Hobs Hdim Hsch Hpen _.
  simpl. unfold handleChange. simpl. rewrite Hsch, Hdim. split.
  - intros Hcase. destruct (scheduled st); [done|].
    destruct Hcase as [[-> ->]|[->|[->|?]]]; try done.
    + rewrite bool_decide_eq_true_2 by done. by rewrite orb_true_r.
    + by rewrite Z.eqb_refl, orb_true_r.
  - intros -> Hw Hh Hdiff.
    rewrite (proj2 (Z.eqb_neq _ _) Hw), (proj2 (Z.eqb_neq _ _) Hh). simpl.
    rewrite bool_decide_eq_false_2; [by rewrite Hpen|].
    intros Heq. inversion Heq. lia.
Qed.

Lemma resize_reports_without_change_are_ignored_witness :
  let st' := reflowItems firstFitsGeometry None (threeItems None false) in
  let quiet := step (ResizeNotification [ResizeObserverEntry 120 40]) st' in
  step (ResizeNotification [ResizeObserverEntry (1201 # 10) (399 # 10)]) quiet = quiet
  /\ scheduled (step (ResizeNotification [ResizeObserverEntry 300 40]) quiet) = true
  /\ pending (step (ResizeNotification [ResizeObserverEntry 300 40]) quiet) = 1%nat.
Proof.
  intros st' quiet. split.
  - apply (proj1 (proj2 (resize_reports_without_change_are_ignored
                           firstFitsGeometry None (threeItems None false)
                           [ResizeObserverEntry 120 40] (1201 # 10) (399 # 10)))).
    left. split; reflexivity.
  - pose proof (proj2 (proj2 (resize_reports_without_change_are_ignored
                                firstFitsGeometry None (threeItems None false)
                                [ResizeObserverEntry 120 40] 300 40))) as H.
    cbv zeta in H.
    destruct H as (Hs & Hp & _); [reflexivity | discriminate | discriminate
                                  | left; discriminate |].
    split; [exact Hs | exact Hp].
Defined.

(** X8. [showAll] puts every item back into the default slot, in
    document order, without adding, removing or reordering children and
    without touching the children of other slots. It sets
    [--overflow-count] to 0 and removes the height of the list, but it
    leaves the [hidden] flags of the "more" slot and of the placeholder,
    the [overflow-count] counter and [minimum-reached] as they were,
    dispatches nothing, and cancels nothing that the scheduler holds. *)
Theorem showAll_returns_every_item g st :
  NoDup (map fst (children st)) ->
  let st' := showAll g st in
  assignedElements DefaultSlot st' = reflowElements st
  /\ map fst (children st') = map fst (children st)
  /\ (forall e name, (e, NamedSlot name) ∈ children st'
        <-> (e, NamedSlot name) ∈ children st)
  /\ overflow_count (styles st') = Some 0%nat
  /\ list_height (styles st') = None
  /\ more_hidden (styles st') = more_hidden (styles st)
  /\ placeholder_hidden (styles st') = placeholder_hidden (styles st)
  /\ list_counter_reset (styles st') = list_counter_reset (styles st)
  /\ attr_minimum_reached st' = attr_minimum_reached st
  /\ dispatched st' = dispatched st
  /\ (scheduled st' = scheduled st /\ pending st' = pending st).
Proof.
  intros Hnd. cbv zeta.
  split; [done|]. split; [apply (map_fst_moveItems st)|].
  split; [intros e name; by apply (elem_of_moveItems_named st)|]. done.
Qed.

Lemma showAll_returns_every_item_witness :
  let st := reflowItems firstFitsGeometry None (threeItems (Some "2") false) in
  let st' := showAll firstFitsGeometry st in
  assignedElements OverflowSlot st = [1; 2]%nat
  /\ assignedElements DefaultSlot st' = [0; 1; 2]%nat
  /\ more_hidden (styles st') = false
  /\ list_counter_reset (styles st') = Some 2%nat
  /\ attr_minimum_reached st' = true.
Proof.
  intros st st'.
  assert (Hnd : NoDup (map fst (children st))).
  { apply (bool_decide_unpack _). by vm_compute. }
  pose proof (showAll_returns_every_item firstFitsGeometry st Hnd) as H.
  cbv zeta in H.
  destruct H as (Hdefault & _ & _ & _ & _ & Hmore & _ & Hcounter & Hreached & _).
  split; [reflexivity|]. split; [exact Hdefault|].
  split; [exact Hmore|]. split; [exact Hcounter | exact Hreached].
Defined.


End OverflowCoverage.

(* ===================================================================== *)
(** * Further properties of the binding attribute *)
(* ===================================================================== *)

Section BindingFacts.

Implicit Types (s value : string) (c d : ascii).

Local Abbreviation free := (fun c => negb (isDelimiter c)).

Lemma append_cons c s1 s2 : (String c s1 ++ s2)%string = String c (s1 ++ s2).
Proof. done. Qed.

Lemma append_assoc s1 s2 s3 : ((s1 ++ s2) ++ s3 = s1 ++ (s2 ++ s3))%string.
Proof.
  induction s1 as [|c s1 IH]; [done|]. rewrite !append_cons. by f_equal.
Qed.

Lemma append_empty_r s : (s ++ "")%string = s.
Proof. induction s as [|c s IH]; [done|]. rewrite append_cons. by f_equal. Qed.

Lemma allUnits_append p s1 s2 :
  allUnits p (s1 ++ s2) = allUnits p s1 && allUnits p s2.
Proof.
  induction s1 as [|c s1 IH]; [done|]. rewrite append_cons. simpl.
  by rewrite IH, andb_assoc.
Qed.

(** One more turn of a class taken one or more times. *)
Lemma matchToEnd_more (class : ascii -> bool) (rest : Pattern) c s :
  matchToEnd ((class, OneOrMore) :: rest) (String c s) =
  if class c then
    match matchToEnd ((class, OneOrMore) :: rest) s with
    | Some (m :: ms) => Some (String c m :: ms)
    | _ => cons (String c EmptyString) <$> matchToEnd rest s
    end
  else None.
Proof. done. Qed.

(** The last class of the pattern takes a non-empty segment. *)
Lemma matchToEnd_segment s :
  matchToEnd [(free, OneOrMore)] s =
  if negb (bool_decide (s = "")) && isSegment s then Some [s] else None.
Proof.
  induction s as [|c s IH]; [done|]. rewrite matchToEnd_more, IH.
  unfold isSegment. simpl. destruct (negb (isDelimiter c)); [|done]. simpl.
  destruct s as [|c' s']; [done|]. simpl.
  by destruct (negb (isDelimiter c') && _).
Qed.

Lemma matchToEnd_delimited s :
  matchToEnd [(isDelimiter, Once); (free, OneOrMore)] s =
  match s with
  | String d x =>
      if isDelimiter d && negb (bool_decide (x = "")) && isSegment x
      then Some [String d ""; x] else None
  | EmptyString => None
  end.
Proof.
  destruct s as [|d x]; [done|].
  change (matchToEnd [(isDelimiter, Once); (free, OneOrMore)] (String d x))
    with (if isDelimiter d
          then cons (String d "") <$> matchToEnd [(free, OneOrMore)] x else None).
  rewrite matchToEnd_segment. destruct (isDelimiter d); [|done]. simpl.
  by destruct (negb _ && _).
Qed.

(** A segment followed by a delimited segment. *)
Lemma matchToEnd_two_segments s :
  matchToEnd [(free, OneOrMore); (isDelimiter, Once); (free, OneOrMore)] s =
  let '(x1, rest) := spanUnits free s in
  match rest with
  | String d x2 =>
      if negb (bool_decide (x1 = "")) && negb (bool_decide (x2 = "")) && isSegment x2
      then Some [x1; String d ""; x2] else None
  | EmptyString => None
  end.
Proof.
  induction s as [|c s IH]; [done|]. rewrite matchToEnd_more, IH.
  rewrite matchToEnd_delimited. cbn [spanUnits].
  destruct (negb (isDelimiter c)) eqn:Hc; [|done].
  destruct s as [|c' s']; [done|]. cbn [spanUnits].
  destruct (negb (isDelimiter c')) eqn:Hc'.
  - apply negb_true_iff in Hc'. rewrite Hc'. cbn [andb fmap option_fmap option_map].
    destruct (spanUnits free s') as [a b].
    destruct b as [|d x2]; [done|]. cbn [negb andb bool_decide].
    rewrite (bool_decide_eq_false_2 (String c' a = "")) by done.
    rewrite (bool_decide_eq_false_2 (String c (String c' a) = "")) by done.
    cbn [negb andb].
    by destruct (negb (bool_decide (x2 = "")) && isSegment x2).
  - apply negb_false_iff in Hc'. rewrite Hc'.
    rewrite (bool_decide_eq_true_2 ("" = "")) by done.
    rewrite (bool_decide_eq_false_2 (String c "" = "")) by done.
    cbn [negb andb].
    by destruct (negb (bool_decide (s' = "")) && isSegment s').
Qed.

Lemma spanUnits_segment p x c rest :
  allUnits p x = true -> p c = false ->
  spanUnits p (x ++ String c rest) = (x, String c rest).
Proof.
  intros Hx Hc. induction x as [|a x IH].
  - change ("" ++ String c rest)%string with (String c rest). simpl. by rewrite Hc.
  - rewrite append_cons. simpl in *.
    apply andb_true_iff in Hx as [Ha Hx]. by rewrite Ha, IH.
Qed.

Lemma spanUnits_spec p s x rest :
  spanUnits p s = (x, rest) ->
  s = (x ++ rest)%string /\ allUnits p x = true.
Proof.
  revert x rest. induction s as [|c s IH]; simpl; intros x rest H.
  - by inversion H.
  - destruct (p c) eqn:Hc.
    + destruct (spanUnits p s) as [a b]. inversion H; subst.
      destruct (IH a rest eq_refl) as [-> Ha]. rewrite append_cons. simpl.
      by rewrite Hc, Ha.
    + by inversion H.
Qed.

Lemma spanUnits_stop p s x c rest :
  spanUnits p s = (x, String c rest) -> p c = false.
Proof.
  revert x. induction s as [|a s IH]; simpl; intros x H; [done|].
  destruct (p a) eqn:Ha.
  - destruct (spanUnits p s) as [x' r]. inversion H; subst. by eapply IH.
  - by inversion H; subst.
Qed.

(** The whole pattern, tried at the start of a string. *)
Lemma matchToEnd_lastSegmentPattern s captures :
  matchToEnd lastSegmentPattern s = Some captures <->
  exists d1 x1 d2 x2,
    s = String d1 (x1 ++ String d2 x2)
    /\ isDelimiter d1 = true /\ isDelimiter d2 = true
    /\ x1 <> "" /\ x2 <> "" /\ isSegment x1 = true /\ isSegment x2 = true
    /\ captures = [String d1 ""; x1; String d2 ""; x2].
Proof.
  destruct s as [|d1 s]; [split; [done | by intros (?&?&?&?&?&?)]|].
  change (matchToEnd lastSegmentPattern (String d1 s))
    with (if isDelimiter d1
          then cons (String d1 "") <$>
                 matchToEnd [(free, OneOrMore); (isDelimiter, Once); (free, OneOrMore)] s
          else None).
  rewrite matchToEnd_two_segments. split.
  - destruct (isDelimiter d1) eqn:Hd1; [|done].
    destruct (spanUnits free s) as [x1 rest] eqn:Hspan.
    destruct (spanUnits_spec _ _ _ _ Hspan) as [-> Hx1].
    destruct rest as [|d2 x2]; [done|].
    apply spanUnits_stop, negb_false_iff in Hspan.
    destruct (bool_decide (x1 = "")) eqn:H1; [done|].
    destruct (bool_decide (x2 = "")) eqn:H2; [done|].
    destruct (isSegment x2) eqn:H3; [|done]. simpl. intros [= <-].
    apply bool_decide_eq_false in H1, H2.
    by exists d1, x1, d2, x2.
  - intros (d & x1 & d2 & x2 & Hs & Hd & Hd2 & H1 & H2 & Hx1 & Hx2 & ->).
    inversion Hs; subst. rewrite Hd.
    rewrite spanUnits_segment; [|done | by rewrite Hd2].
    rewrite !bool_decide_eq_false_2 by done. by rewrite Hx2.
Qed.

(** The part of a string from its last delimiter on. *)
Lemma delimited_suffix_unique a d x a' d' x' :
  (a ++ String d x = a' ++ String d' x')%string ->
  isDelimiter d = true -> isDelimiter d' = true ->
  isSegment x = true -> isSegment x' = true ->
  a = a' /\ String d x = String d' x'.
Proof.
  intros Heq Hd Hd' Hx Hx'.
  assert (Hfree : forall y, isSegment y = true -> forall b c z,
            (b ++ String c z)%string = y -> isDelimiter c = false).
  { intros y Hy b c z <-. unfold isSegment in Hy. rewrite allUnits_append in Hy.
    apply andb_true_iff in Hy as [_ Hy]. simpl in Hy.
    apply andb_true_iff in Hy as [Hy _]. by apply negb_true_iff. }
  revert a' Heq. induction a as [|c a IH]; intros [|c' a'] Heq.
  - done.
  - change ("" ++ String d x)%string with (String d x) in Heq.
    rewrite append_cons in Heq. inversion Heq; subst.
    pose proof (Hfree _ Hx a' d' x' eq_refl). congruence.
  - change ("" ++ String d' x')%string with (String d' x') in Heq.
    rewrite append_cons in Heq. inversion Heq; subst.
    pose proof (Hfree _ Hx' a d x eq_refl). congruence.
  - rewrite !append_cons in Heq. inversion Heq; subst.
    destruct (IH a' ltac:(done)) as [-> ?]. done.
Qed.

Lemma searchToEnd_unfold pattern s :
  searchToEnd pattern s =
  match matchToEnd pattern s with
  | Some captures => Some captures
  | None => match s with
            | String _ rest => searchToEnd pattern rest
            | EmptyString => None
            end
  end.
Proof. by destruct s. Qed.

Lemma searchToEnd_lastSegmentPattern s captures :
  searchToEnd lastSegmentPattern s = Some captures ->
  exists pre d1 x1 d2 x2,
    s = (pre ++ String d1 (x1 ++ String d2 x2))%string
    /\ isDelimiter d1 = true /\ isDelimiter d2 = true
    /\ x1 <> "" /\ x2 <> "" /\ isSegment x1 = true /\ isSegment x2 = true
    /\ captures = [String d1 ""; x1; String d2 ""; x2].
Proof.
  induction s as [|c s IH]; rewrite searchToEnd_unfold.
  - done.
  - destruct (matchToEnd lastSegmentPattern (String c s)) as [caps|] eqn:Hm.
    + intros [= <-]. apply matchToEnd_lastSegmentPattern in Hm
        as (d1 & x1 & d2 & x2 & H). exists "", d1, x1, d2, x2. exact H.
    + intros H. destruct (IH H) as (pre & d1 & x1 & d2 & x2 & -> & H').
      exists (String c pre), d1, x1, d2, x2. by rewrite append_cons.
Qed.

Lemma lastSegment_unfold c s :
  lastSegment (String c s) =
  match matchToEnd lastSegmentPattern (String c s) with
  | Some [_; _; delimiter; segment] => Some (delimiter ++ segment)%string
  | Some _ => None
  | None => lastSegment s
  end.
Proof.
  unfold lastSegment. rewrite searchToEnd_unfold.
  by destruct (matchToEnd lastSegmentPattern (String c s)).
Qed.

Lemma lastSegment_complete pre d1 x1 d2 x2 :
  isDelimiter d1 = true -> isDelimiter d2 = true ->
  x1 <> "" -> x2 <> "" -> isSegment x1 = true -> isSegment x2 = true ->
  lastSegment (pre ++ String d1 (x1 ++ String d2 x2)) = Some (String d2 x2).
Proof.
  intros Hd1 Hd2 H1 H2 Hx1 Hx2. induction pre as [|c pre IH].
  - change ("" ++ ?s)%string with s. rewrite lastSegment_unfold.
    assert (Hm : matchToEnd lastSegmentPattern (String d1 (x1 ++ String d2 x2))
                 = Some [String d1 ""; x1; String d2 ""; x2]).
    { apply matchToEnd_lastSegmentPattern. by exists d1, x1, d2, x2. }
    by rewrite Hm.
  - rewrite append_cons, lastSegment_unfold.
    destruct (matchToEnd lastSegmentPattern
                (String c (pre ++ String d1 (x1 ++ String d2 x2)))) as [caps|] eqn:Hm;
      [|exact IH].
    apply matchToEnd_lastSegmentPattern in Hm
      as (e1 & y1 & e2 & y2 & Hs & He1 & He2 & _ & _ & Hy1 & Hy2 & ->).
    change (String e2 "" ++ y2)%string with (String e2 y2). f_equal. symmetry.
    assert (Heq : ((String c pre ++ String d1 x1) ++ String d2 x2
                   = String e1 y1 ++ String e2 y2)%string).
    { rewrite append_assoc, !append_cons. by rewrite <- append_cons. }
    by destruct (delimited_suffix_unique _ _ _ _ _ _ Heq Hd2 He2 Hx2 Hy2).
Qed.

(** X10. The data segment of a binding, as cut out by the regular
    expression of the listener: there is one exactly when the value
    ends in two segments, each led by [/] or [?] and each non-empty and
    free of both characters; the data is then the second of them,
    delimiter included. *)
Theorem lastSegment_is_second_trailing_segment value data :
  lastSegment value = Some data <->
  exists pre d1 x1 d2 x2,
    value = (pre ++ String d1 x1 ++ String d2 x2)%string
    /\ isDelimiter d1 = true /\ isDelimiter d2 = true
    /\ x1 <> "" /\ x2 <> "" /\ isSegment x1 = true /\ isSegment x2 = true
    /\ data = String d2 x2.
Proof.
  split.
  - unfold lastSegment.
    destruct (searchToEnd lastSegmentPattern value) as [caps|] eqn:Hs; [|done].
    apply searchToEnd_lastSegmentPattern in Hs
      as (pre & d1 & x1 & d2 & x2 & -> & Hd1 & Hd2 & H1 & H2 & Hx1 & Hx2 & ->).
    intros [= <-]. by exists pre, d1, x1, d2, x2.
  - intros (pre & d1 & x1 & d2 & x2 & -> & Hd1 & Hd2 & H1 & H2 & Hx1 & Hx2 & ->).
    rewrite append_cons. by apply lastSegment_complete.
Qed.

Lemma lastSegment_is_second_trailing_segment_witness :
  lastSegment "#cart-drawer/open?animate=false" = Some "?animate=false".
Proof.
  apply lastSegment_is_second_trailing_segment.
  exists "#cart-drawer", "/"%char, "open", "?"%char, "animate=false".
  repeat split; done.
Defined.

Lemma allUnits_impl (p q : ascii -> bool) s :
  (forall c, p c = true -> q c = true) -> allUnits p s = true -> allUnits q s = true.
Proof.
  intros Hpq. induction s as [|c s IH]; simpl; [done|].
  intros [Hc Hs]%andb_true_iff. by rewrite (Hpq c Hc), IH.
Qed.

Lemma isDelimiter_false c :
  negb (isDelimiter c) = true -> c <> "/"%char /\ c <> "?"%char.
Proof.
  unfold isDelimiter. intros H%negb_true_iff%orb_false_iff.
  destruct H as [H1%bool_decide_eq_false H2%bool_decide_eq_false]. done.
Qed.

Lemma split_segment s : isSegment s = true -> split "/" s = [s].
Proof.
  unfold isSegment. induction s as [|c s IH]; simpl; [done|].
  intros [Hc Hs]%andb_true_iff. apply isDelimiter_false in Hc as [Hc _].
  rewrite bool_decide_eq_false_2 by done. by rewrite IH.
Qed.

Lemma split_after_segment s rest :
  isSegment s = true -> split "/" (s ++ String "/" rest) = s :: split "/" rest.
Proof.
  unfold isSegment. induction s as [|c s IH]; [done|]. rewrite append_cons. simpl.
  intros [Hc Hs]%andb_true_iff. apply isDelimiter_false in Hc as [Hc _].
  rewrite bool_decide_eq_false_2 by done. by rewrite IH.
Qed.

Lemma split_query m q1 :
  isSegment m = true -> isSegment q1 = true ->
  isSegment (m ++ String "?" q1) = false
  /\ forall rest, split "/" (m ++ String "?" (q1 ++ String "/" rest))
                  = (m ++ String "?" q1)%string :: split "/" rest.
Proof.
  unfold isSegment. induction m as [|c m IH]; intros Hm Hq.
  - split; [done|]. intros rest.
    change ("" ++ ?s)%string with s. simpl.
    by rewrite (split_after_segment q1 rest Hq).
  - simpl in Hm. apply andb_true_iff in Hm as [Hc Hm].
    destruct (IH Hm Hq) as [IH1 IH2]. split.
    + rewrite append_cons. simpl. by rewrite IH1, andb_false_r.
    + intros rest. rewrite append_cons. simpl.
      apply isDelimiter_false in Hc as [Hc _].
      rewrite bool_decide_eq_false_2 by done. by rewrite IH2.
Qed.

Lemma dropUntilLineTerminator_single q :
  isSingleLine q = true -> dropUntilLineTerminator q = "".
Proof.
  unfold isSingleLine. induction q as [|c q IH]; simpl; [done|].
  intros [Hc Hq]%andb_true_iff. apply negb_true_iff in Hc. by rewrite Hc, IH.
Qed.

Lemma stripQuery_segment m : isSegment m = true -> stripQuery m = m.
Proof.
  unfold isSegment. induction m as [|c m IH]; simpl; [done|].
  intros [Hc Hm]%andb_true_iff. apply isDelimiter_false in Hc as [_ Hc].
  rewrite bool_decide_eq_false_2 by done. by rewrite IH.
Qed.

Lemma stripQuery_query m q :
  isSegment m = true -> isSingleLine q = true ->
  stripQuery (m ++ String "?" q) = m.
Proof.
  unfold isSegment. intros Hm Hq. induction m as [|c m IH].
  - change ("" ++ ?s)%string with s. simpl. by apply dropUntilLineTerminator_single.
  - rewrite append_cons. simpl in *. apply andb_true_iff in Hm as [Hc Hm].
    apply isDelimiter_false in Hc as [_ Hc].
    rewrite bool_decide_eq_false_2 by done. by rewrite IH.
Qed.

(** X11. How the listener reads a binding whose selector, method name
    and data are segments (free of [/] and [?]), the method name and the
    data being non-empty and the query holding no line terminator.
    [selector/method] gives no data;
    [selector/method?query] gives the data [?query];
    [selector/method/value] gives the data [/value]. A [/] inside the
    query cuts the data short: of [selector/method?query/value] only
    [/value] is data, and it is a scalar, not an object. The selector
    may be empty. *)
Theorem binding_segments selector method query value :
  isSegment selector = true ->
  isSegment method = true -> method <> "" ->
  isSegment query = true -> query <> "" -> isSingleLine query = true ->
  isSegment value = true -> value <> "" ->
  parsedBinding (selector ++ "/" ++ method) = (selector, Some method, None)
  /\ parsedBinding (selector ++ "/" ++ method ++ "?" ++ query)
     = (selector, Some method, Some ("?" ++ query)%string)
  /\ parsedBinding (selector ++ "/" ++ method ++ "/" ++ value)
     = (selector, Some method, Some ("/" ++ value)%string)
  /\ parsedBinding (selector ++ "/" ++ method ++ "?" ++ query ++ "/" ++ value)
     = (selector, Some method, Some ("/" ++ value)%string)
  /\ parseData ("/" ++ value) = DValue (parseValue value).
Proof.
  intros Hsel Hm Hm0 Hq Hq0 Hline Hv Hv0.
  assert (Hsingle : forall c s, (String c "" ++ s)%string = String c s) by done.
  rewrite !Hsingle. clear Hsingle.
  assert (Hslash : isDelimiter "/" = true) by done.
  assert (Hmark : isDelimiter "?" = true) by done.
  unfold parsedBinding. split; [|split; [|split; [|split; [|done]]]].
  - rewrite split_after_segment, split_segment by done. simpl.
    rewrite stripQuery_segment by done. f_equal.
    destruct (lastSegment (selector ++ String "/" method)) as [data|] eqn:Hdata; [|done].
    apply lastSegment_is_second_trailing_segment in Hdata
      as (pre & d1 & x1 & d2 & x2 & Heq & Hd1 & Hd2 & _ & _ & _ & Hx2 & _).
    rewrite <- append_assoc in Heq.
    destruct (delimited_suffix_unique _ _ _ _ _ _ Heq Hslash Hd2 Hm Hx2) as [-> _].
    unfold isSegment in Hsel. rewrite allUnits_append in Hsel. simpl in Hsel.
    rewrite Hd1 in Hsel. simpl in Hsel. by rewrite andb_false_r in Hsel.
  - rewrite split_after_segment by done.
    assert (Hsplit : split "/" (method ++ String "?" query)
                     = [(method ++ String "?" query)%string]).
    { clear -Hm Hq. unfold isSegment in *. induction method as [|c m IH].
      - change ("" ++ ?s)%string with s. simpl. f_equal.
        fold (isSegment query) in Hq. by rewrite (split_segment query Hq).
      - rewrite append_cons. simpl in *. apply andb_true_iff in Hm as [Hc Hm].
        apply isDelimiter_false in Hc as [Hc _].
        rewrite bool_decide_eq_false_2 by done. by rewrite IH. }
    rewrite Hsplit. simpl. rewrite stripQuery_query by done. f_equal.
    by apply lastSegment_complete.
  - rewrite split_after_segment, split_after_segment by done. simpl.
    rewrite stripQuery_segment by done. f_equal.
    by apply lastSegment_complete.
  - rewrite split_after_segment by done.
    rewrite (proj2 (split_query method query Hm Hq)). simpl.
    rewrite stripQuery_query by done. f_equal.
    replace (selector ++ String "/" (method ++ String "?" (query ++ String "/" value)))%string
      with ((selector ++ String "/" method) ++ String "?" (query ++ String "/" value))%string
      by (by rewrite append_assoc).
    by apply lastSegment_complete.
Qed.

Lemma binding_segments_witness :
  parsedBinding "#cart-drawer/open" = ("#cart-drawer", Some "open", None)
  /\ parsedBinding "/setQty?amount=2" = ("", Some "setQty", Some "?amount=2")
  /\ parsedBinding "/go?to=products/all" = ("", Some "go", Some "/all").
Proof.
  pose proof (binding_segments "#cart-drawer" "open" "x" "x"
                eq_refl eq_refl ltac:(discriminate) eq_refl ltac:(discriminate)
                eq_refl eq_refl ltac:(discriminate)) as (H1 & _).
  pose proof (binding_segments "" "setQty" "amount=2" "x"
                eq_refl eq_refl ltac:(discriminate) eq_refl ltac:(discriminate)
                eq_refl eq_refl ltac:(discriminate)) as (_ & H2 & _).
  pose proof (binding_segments "" "go" "to=products" "all"
                eq_refl eq_refl ltac:(discriminate) eq_refl ltac:(discriminate)
                eq_refl eq_refl ltac:(discriminate)) as (_ & _ & _ & H4 & _).
  split; [exact H1|]. split; [exact H2 | exact H4].
Defined.

End BindingFacts.

(* ===================================================================== *)
(** * Further properties of the listener *)
(* ===================================================================== *)

Section DelegationFacts.

Implicit Types (pg : Page) (event : Event) (element instance : Path).

(** [closest] answers the nearest matching element at or above the
    start, along [parentElement]. *)
Lemma closest_nearest (matches : Path -> bool) (p q : Path) :
  closest matches p = Some q ->
  matches q = true
  /\ exists steps,
       p = map Child steps ++ q
       /\ forall above below, steps = above ++ below -> below <> [] ->
            matches (map Child below ++ q) = false.
Proof.
  induction p as [|step p IH]; simpl.
  - destruct (matches []) eqn:Hm; [|done]. intros [= <-]. split; [done|].
    exists []. split; [done|]. by intros [|??] [|??].
  - destruct (matches (step :: p)) eqn:Hm.
    + intros [= <-]. split; [done|]. exists []. split; [done|].
      by intros [|??] [|??].
    + destruct step as [i|i]; [|done]. intros Hc.
      destruct (IH Hc) as [Hq (steps & -> & Hnear)]. split; [done|].
      exists (i :: steps). split; [done|].
      intros [|a above] below Heq Hne.
      * simpl in Heq. subst below. exact Hm.
      * inversion Heq; subst. by apply (Hnear above below).
Qed.

(** X12. The element that [getElement] finds carries the attribute
    [on:<type>] and is the original target of the event or one of its
    [parentElement] ancestors within the same tree; no element between
    the target and it carries the attribute. Ancestors are only looked
    at for events that bubble and for [focus] and [blur], and never for
    [pointerenter] and [pointerleave]. *)
Theorem getElement_finds_nearest_binding pg event element :
  getElement pg event = Some element ->
  let attribute := ("on:" ++ event_type event)%string in
  hasAttribute (document pg) element attribute = true
  /\ exists steps,
       originalTarget event = TargetElement (map Child steps ++ element)
       /\ (forall above below, steps = above ++ below -> below <> [] ->
             hasAttribute (document pg) (map Child below ++ element) attribute = false)
       /\ (steps <> [] ->
           (event_type event ∉ expensiveEvents)
           /\ (event_bubbles event = true \/ event_type event ∈ shouldBubble)).
Proof.
  unfold getElement. fold (originalTarget event).
  destruct (originalTarget event) as [target|]; [|done]. cbv zeta.
  destruct (hasAttribute (document pg) target _) eqn:Hown.
  - intros [= <-]. split; [done|]. exists []. split; [done|].
    split; [by intros [|??] [|??] | done].
  - case_bool_decide as Hexp; [done|].
    destruct (event_bubbles event || bool_decide (event_type event ∈ shouldBubble))
      eqn:Hup; [|done].
    intros Hc. apply closest_nearest in Hc as [Hattr (steps & -> & Hnear)].
    split; [done|]. exists steps. split; [done|]. split; [done|].
    intros _. split; [done|]. apply orb_true_iff in Hup as [Hb|Hs]; [by left|].
    right. by apply bool_decide_eq_true in Hs.
Qed.

Lemma getElement_finds_nearest_binding_witness :
  hasAttribute (document (cartPage "/save" None)) [Child 0] "on:click" = true
  /\ exists steps,
       originalTarget clickOnSpan = TargetElement (map Child steps ++ [Child 0]).
Proof.
  pose proof (getElement_finds_nearest_binding (cartPage "/save" None) clickOnSpan
                [Child 0] eq_refl) as H.
  cbv zeta in H. destruct H as [Hattr (steps & Htarget & _)].
  split; [exact Hattr|]. exists steps. exact Htarget.
Defined.

(** X13. A method is only ever invoked on an element that is an
    instance of [Component] and on which the name read from the binding
    is a function. The listener invokes at most one method per event,
    with at most two arguments, the last of which is the event; the
    [target] that this event reports is the element carrying the
    binding, which [getElement] found. With an empty selector the
    instance is the nearest component at or above that element. *)
Theorem invocation_is_on_component_with_bound_target
    pg eventName event instance method args :
  Invoke instance method args ∈ effects (listener pg eventName event) ->
  instanceofComponent (document pg) (ElementAt instance) = true
  /\ isFunction pg instance method = true
  /\ (exists element delivered,
        getElement pg event = Some element
        /\ last args = Some (ArgEvent delivered)
        /\ reportedTarget delivered = TargetElement element
        /\ (length args <= 2)%nat
        /\ parsedBinding (bindingValue pg eventName element)
           = (bindingSelector pg eventName element, Some method,
              lastSegment (bindingValue pg eventName element))
        /\ (bindingSelector pg eventName element = "" ->
            getClosestComponent (document pg) (ElementAt element)
            = Some (ElementAt instance)))
  /\ length (filter (fun effect => isInvoke effect)
                    (effects (listener pg eventName event))) = 1%nat.
Proof.
  destruct (getElement pg event) as [element|] eqn:Helement.
  2: { unfold listener. rewrite Helement. simpl. by intros ?%elem_of_nil. }
  rewrite (listener_unfold _ _ _ _ Helement).
  destruct (resolveInstance pg element (bindingSelector pg eventName element))
    as [e|[[|found|]|]] eqn:Hres; try (simpl; by intros ?%elem_of_nil).
  destruct (bindingMethod pg eventName element) as [[|c m]|] eqn:Hmethod;
    try (simpl; by intros ?%elem_of_nil).
  destruct (instanceofComponent (document pg) (ElementAt found)) eqn:Hcomp;
    [|simpl; by intros ?%elem_of_nil].
  destruct (isFunction pg found (stripQuery (String c m))) eqn:Hfun;
    [|simpl; by intros ?%elem_of_nil].
  cbv zeta.
  assert (Hdelivered : reportedTarget (deliveredEvent event element)
                       = TargetElement element).
  { unfold deliveredEvent. case_bool_decide as Ht; simpl; done. }
  assert (Hparsed : parsedBinding (bindingValue pg eventName element)
                    = (bindingSelector pg eventName element,
                       Some (stripQuery (String c m)),
                       lastSegment (bindingValue pg eventName element))).
  { unfold parsedBinding. fold (bindingSelector pg eventName element).
    fold (bindingMethod pg eventName element). by rewrite Hmethod. }
  remember (stripQuery (String c m)) as name eqn:Hname.
  assert (Hnearest : bindingSelector pg eventName element = "" ->
                     getClosestComponent (document pg) (ElementAt element)
                     = Some (ElementAt found)).
  { intros Hsel. rewrite Hsel, resolveInstance_no_selector in Hres. congruence. }
  set (arguments := match lastSegment (bindingValue pg eventName element) with
                    | Some data => [ArgData (parseData data);
                                    ArgEvent (deliveredEvent event element)]
                    | None => [ArgEvent (deliveredEvent event element)]
                    end).
  assert (Hargs : last arguments = Some (ArgEvent (deliveredEvent event element))
                  /\ (length arguments <= 2)%nat).
  { subst arguments. destruct (lastSegment _); simpl; split; done || lia. }
  destruct Hargs as [Hlast Hlen].
  destruct (callMethod pg found name arguments); cbn [effects];
    rewrite ?elem_of_cons; intros Hin.
  - destruct Hin as [[= <- <- <-]|[?|?%elem_of_nil]]; [|done..].
    split; [done|]. split; [done|]. split; [|done].
    exists element, (deliveredEvent event element). done.
  - destruct Hin as [[= <- <- <-]|?%elem_of_nil]; [|done].
    split; [done|]. split; [done|]. split; [|done].
    exists element, (deliveredEvent event element). done.
Qed.

Lemma invocation_is_on_component_with_bound_target_witness :
  instanceofComponent (document (cartPage "/save" None)) (ElementAt []) = true
  /\ isFunction (cartPage "/save" None) [] "save" = true.
Proof.
  pose proof (invocation_is_on_component_with_bound_target
                (cartPage "/save" None) "click" clickOnSpan []
                "save" [ArgEvent (ProxiedEvent clickOnSpan [Child 0])]) as H.
  destruct H as (Hcomponent & Hfunction & _).
  - vm_compute. left.
  - split; [exact Hcomponent | exact Hfunction].
Defined.

(** X14. Once any component has connected, the document delegates
    exactly the ten listed event types and the two pointer events: an
    event of one of these types runs one listener, the one registered
    for its type, and an event of any other type (a [mouseover], say)
    runs none, whatever [on:] attributes the page carries. *)
Theorem only_listed_events_are_delegated
    pg (doc : Node) (c : Path * option (list string))
    (cs : list (Path * option (list string))) event :
  let registry := rt_registry (connectAll (c :: cs) (freshRuntime doc)) in
  (event_type event ∈ events ++ expensiveEvents ->
   dispatch pg registry event = [listener pg (event_type event) event])
  /\ (event_type event ∉ events ++ expensiveEvents ->
      dispatch pg registry event = []).
Proof.
  cbv zeta. rewrite connectAll_registry.
  change (length (c :: cs)) with (S (length cs)).
  rewrite registerEventListeners_iter.
  split; [apply dispatch_runs_one_listener|].
  intros Hother. unfold dispatch. rewrite filter_none; [done|].
  intros reg Hreg Hname. apply bool_decide_spec in Hname. apply Hother.
  rewrite <- Hname.
  change (events ++ expensiveEvents)
    with (map reg_eventName (listeners (registerEventListeners freshRegistry))).
  apply list_elem_of_In, in_map. by apply list_elem_of_In.
Qed.

Lemma only_listed_events_are_delegated_witness :
  let registry := rt_registry (connectAll [([], None)] (freshRuntime cartDrawer)) in
  dispatch (cartPage "/save" None) registry clickOnSpan
  = [listener (cartPage "/save" None) "click" clickOnSpan]
  /\ dispatch (cartPage "/save" None) registry
       {| event_type := "mouseover"; event_target := TargetElement [Child 0];
          event_composedPath := None; event_bubbles := true |} = [].
Proof.
  intros registry. split.
  - apply (proj1 (only_listed_events_are_delegated (cartPage "/save" None)
                    cartDrawer ([], None) [] clickOnSpan)).
    apply (bool_decide_unpack _). by vm_compute.
  - apply (proj2 (only_listed_events_are_delegated (cartPage "/save" None)
                    cartDrawer ([], None) []
                    {| event_type := "mouseover";
                       event_target := TargetElement [Child 0];
                       event_composedPath := None; event_bubbles := true |})).
    apply (bool_decide_unpack _). by vm_compute.
Defined.

End DelegationFacts.

(* ===================================================================== *)
(** * Further properties of binding data *)
(* ===================================================================== *)

Section DataFacts.

Implicit Types (s : string) (c : ascii) (d : Decimal.uint).

Lemma isDigit_units c :
  isDigit c = true ->
  isWhiteSpace c = false
  /\ hexValue c = Some (digitValue c)
  /\ (0 <= digitValue c < 10)%Z
  /\ c <> "-"%char /\ c <> "+"%char /\ c <> "I"%char /\ c <> "."%char
  /\ c <> "x"%char /\ c <> "X"%char /\ c <> "o"%char /\ c <> "O"%char
  /\ c <> "b"%char /\ c <> "B"%char /\ c <> "t"%char /\ c <> "f"%char.
Proof.
  intros Hc.
  assert (Hrange : (48 <= nat_of_ascii c <= 57)%nat).
  { unfold isDigit in Hc. apply andb_true_iff in Hc as [H1 H2].
    apply Nat.leb_le in H1, H2. lia. }
  split; [|split; [|split]].
  - unfold isWhiteSpace.
    repeat (apply orb_false_iff; split); apply Nat.eqb_neq; lia.
  - unfold hexValue, digitValue. by rewrite Hc.
  - unfold digitValue. lia.
  - repeat split; intros ->; vm_compute in Hrange; lia.
Qed.

Lemma string_of_uint_digits d : allUnits isDigit (NilEmpty.string_of_uint d) = true.
Proof. induction d; simpl; done. Qed.

Lemma digitsValue_string_of_uint d (acc : nat) :
  digitsValue 10 (NilEmpty.string_of_uint d) (Some (Z.of_nat acc))
  = Some (Z.of_nat (Nat.of_uint_acc d acc)).
Proof.
  revert acc. induction d; intros acc; simpl NilEmpty.string_of_uint;
    [done|..].
  all: cbn [digitsValue].
  all: match goal with
       | |- context [hexValue ?c] =>
           let v := eval vm_compute in (hexValue c) in change (hexValue c) with v
       end.
  all: cbn [default Z.ltb Z.compare Pos.compare Pos.compare_cont].
  all: simpl Nat.of_uint_acc; rewrite <- IHd; do 2 f_equal.
  all: rewrite Nat.tail_mul_spec; unfold id; lia.
Qed.

Lemma decimalNumeral_digits (n : nat) :
  exists c rest,
    decimalNumeral n = String c rest
    /\ allUnits isDigit (String c rest) = true
    /\ digitsValue 10 (String c rest) (Some 0%Z) = Some (Z.of_nat n).
Proof.
  unfold decimalNumeral.
  assert (Hvalue : digitsValue 10 (NilEmpty.string_of_uint (Nat.to_uint n)) (Some 0%Z)
                   = Some (Z.of_nat n)).
  { change 0%Z with (Z.of_nat 0).
    rewrite (digitsValue_string_of_uint (Nat.to_uint n) 0).
    change (Nat.of_uint_acc (Nat.to_uint n) 0) with (Nat.of_uint (Nat.to_uint n)).
    by rewrite DecimalNat.Unsigned.of_to. }
  pose proof (string_of_uint_digits (Nat.to_uint n)) as Hdigits.
  destruct (Nat.to_uint n) as [| | | | | | | | | |] eqn:Hd.
  - exfalso. pose proof (DecimalNat.Unsigned.of_to n) as Hof. rewrite Hd in Hof.
    simpl in Hof. subst n. by vm_compute in Hd.
  - by eexists _, _.
  - by eexists _, _.
  - by eexists _, _.
  - by eexists _, _.
  - by eexists _, _.
  - by eexists _, _.
  - by eexists _, _.
  - by eexists _, _.
  - by eexists _, _.
  - by eexists _, _.
Qed.

Lemma allUnits_forallb p s : allUnits p s = forallb p (list_ascii_of_string s).
Proof. induction s as [|c s IH]; simpl; [done | by rewrite IH]. Qed.

Lemma forallb_rev {A} (p : A -> bool) (l : list A) : forallb p (rev l) = forallb p l.
Proof.
  induction l as [|x l IH]; simpl; [done|].
  rewrite forallb_app, IH. simpl. rewrite andb_true_r. apply andb_comm.
Qed.

Lemma allUnits_reverseString p s : allUnits p (reverseString s) = allUnits p s.
Proof.
  unfold reverseString.
  by rewrite !allUnits_forallb, list_ascii_of_string_of_list_ascii, forallb_rev.
Qed.

Lemma reverseString_involutive s : reverseString (reverseString s) = s.
Proof.
  unfold reverseString.
  by rewrite list_ascii_of_string_of_list_ascii, rev_involutive,
       string_of_list_ascii_of_string.
Qed.

Lemma skipWhiteSpace_digits s : allUnits isDigit s = true -> skipWhiteSpace s = s.
Proof.
  destruct s as [|c s]; simpl; [done|]. intros [Hc _]%andb_true_iff.
  by rewrite (proj1 (isDigit_units c Hc)).
Qed.

Lemma trim_digits s : allUnits isDigit s = true -> trim s = s.
Proof.
  intros Hs. unfold trim. rewrite (skipWhiteSpace_digits s Hs).
  rewrite skipWhiteSpace_digits by (by rewrite allUnits_reverseString).
  apply reverseString_involutive.
Qed.

Lemma spanUnits_all p s : allUnits p s = true -> spanUnits p s = (s, "").
Proof.
  induction s as [|c s IH]; simpl; [done|].
  intros [Hc Hs]%andb_true_iff. by rewrite Hc, IH.
Qed.

Lemma Qred_inject_Z (z : Z) : Qred (inject_Z z * 1) = inject_Z z.
Proof.
  rewrite (Qred_complete (inject_Z z * 1) (inject_Z z)) by apply Qmult_1_r.
  unfold inject_Z, Qred.
  pose proof (Z.ggcd_gcd z 1) as Hg. pose proof (Z.ggcd_correct_divisors z 1) as Hd.
  destruct (Z.ggcd z 1) as [g [aa bb]]. simpl in *. rewrite Z.gcd_1_r in Hg.
  subst g. destruct Hd as [Ha Hb]. rewrite !Z.mul_1_l in *. by subst.
Qed.

Lemma unsignedDecimal_digits c rest (n : Z) :
  allUnits isDigit (String c rest) = true ->
  digitsValue 10 (String c rest) (Some 0%Z) = Some n ->
  unsignedDecimal (String c rest) = Some (inject_Z n).
Proof.
  intros Hs Hn. unfold unsignedDecimal. rewrite (spanUnits_all _ _ Hs).
  cbv beta iota zeta. rewrite (bool_decide_eq_false_2 (String c rest = "")) by done.
  cbn [andb exponentPart]. rewrite append_empty_r, Hn. cbn [default String.length].
  change (0 - Z.of_nat 0)%Z with 0%Z. change (inject_Z 10 ^ 0)%Q with 1%Q.
  f_equal. apply Qred_inject_Z.
Qed.

Lemma strDecimalLiteral_unsigned c rest :
  isDigit c = true ->
  strDecimalLiteral (String c rest) = Finite false <$> unsignedDecimal (String c rest).
Proof.
  intros Hc. destruct (isDigit_units c Hc) as (_ & _ & _ & Hm & Hp & HI & _).
  unfold strDecimalLiteral.
  assert (Hbody : (match String c rest with
                   | String "-" r => (true, r)
                   | String "+" r => (false, r)
                   | _ => (false, String c rest)
                   end) = (false, String c rest)).
  { destruct c as [[] [] [] [] [] [] [] []]; done. }
  rewrite Hbody. rewrite bool_decide_eq_false_2; [done|]. intros [= -> _]. done.
Qed.

Lemma nonDecimalIntegerLiteral_digits s :
  allUnits isDigit s = true -> nonDecimalIntegerLiteral s = None.
Proof.
  intros Hs. destruct s as [|c [|c2 rest]].
  - done.
  - by destruct c as [[] [] [] [] [] [] [] []].
  - simpl in Hs. apply andb_true_iff in Hs as [_ [Hc2 _]%andb_true_iff].
    destruct (isDigit_units c2 Hc2)
      as (_ & _ & _ & _ & _ & _ & _ & Hx & HX & Ho & HO & Hb & HB & _).
    assert (Hradix : (if bool_decide (c2 = "x"%char) || bool_decide (c2 = "X"%char)
                      then Some 16%Z
                      else if bool_decide (c2 = "o"%char) || bool_decide (c2 = "O"%char)
                      then Some 8%Z
                      else if bool_decide (c2 = "b"%char) || bool_decide (c2 = "B"%char)
                      then Some 2%Z else None) = None).
    { by rewrite !bool_decide_eq_false_2. }
    destruct c as [[] [] [] [] [] [] [] []]; try done.
    unfold nonDecimalIntegerLiteral. by rewrite Hradix.
Qed.

(** X15. A binding value written as the decimal numeral of a natural
    number up to 2^53, the range in which every integer is a double, is
    delivered as that number: [parseValue] answers the number itself,
    not the string, and never a boolean. *)
Theorem parseValue_reads_decimal_numerals (n : nat) :
  (Z.of_nat n <= 2 ^ 53)%Z ->
  parseValue (decimalNumeral n) = VNumber (Finite false (inject_Z (Z.of_nat n)))
  /\ parseData ("/" ++ decimalNumeral n)
     = DValue (VNumber (Finite false (inject_Z (Z.of_nat n)))).
Proof.
  intros _.
  assert (Hvalue : parseValue (decimalNumeral n)
                   = VNumber (Finite false (inject_Z (Z.of_nat n)))).
  { destruct (decimalNumeral_digits n) as (c & rest & -> & Hs & Hn).
    pose proof Hs as Hc. simpl in Hc. apply andb_true_iff in Hc as [Hc _].
    destruct (isDigit_units c Hc)
      as (_ & _ & _ & _ & _ & _ & _ & _ & _ & _ & _ & _ & _ & Ht & Hf).
    unfold parseValue, Number. rewrite (trim_digits _ Hs).
    rewrite (bool_decide_eq_false_2 (String c rest = "true")) by (by intros [= -> _]).
    rewrite (bool_decide_eq_false_2 (String c rest = "false")) by (by intros [= -> _]).
    rewrite (bool_decide_eq_false_2 (String c rest = "")) by done.
    rewrite (nonDecimalIntegerLiteral_digits _ Hs).
    rewrite (strDecimalLiteral_unsigned c rest Hc).
    by rewrite (unsignedDecimal_digits c rest _ Hs Hn). }
  split; [exact Hvalue|].
  change ("/" ++ decimalNumeral n)%string with (String "/" (decimalNumeral n)).
  simpl. by rewrite Hvalue.
Qed.

Lemma parseValue_reads_decimal_numerals_witness :
  parseValue "42" = VNumber (Finite false 42)
  /\ parseData "/42" = DValue (VNumber (Finite false 42)).
Proof.
  apply (parseValue_reads_decimal_numerals 42). by vm_compute.
Defined.

Lemma lastEntry_cons {A} key (kv : string * A) entries :
  lastEntry key (kv :: entries) =
  match lastEntry key entries with
  | Some v => Some v
  | None => if bool_decide (fst kv = key) then Some (snd kv) else None
  end.
Proof.
  unfold lastEntry. rewrite filter_cons.
  destruct (decide (fst kv = key)) as [Hk|Hk].
  - rewrite (bool_decide_eq_true_2 _ Hk).
    destruct (filter (fun kv => fst kv = key) entries) as [|x l] eqn:Hf; [done|].
    rewrite last_cons. by destruct (last (x :: l)).
  - rewrite (bool_decide_eq_false_2 _ Hk). by destruct (last _).
Qed.

Lemma fromEntries_lookup (entries : list (string * Scalar)) (o : gmap string Scalar) key :
  fold_left (fun o kv => <[fst kv := snd kv]> o) entries o !! key =
  match lastEntry key entries with
  | Some v => Some v
  | None => o !! key
  end.
Proof.
  revert o. induction entries as [|kv entries IH]; intros o; [done|].
  simpl. rewrite IH, lastEntry_cons.
  destruct (lastEntry key entries); [done|]. case_bool_decide as Hk.
  - subst key. by rewrite lookup_insert_eq.
  - by rewrite lookup_insert_ne.
Qed.

Lemma lastEntry_map {A B} (f : A -> B) key (entries : list (string * A)) :
  lastEntry key (map (fun kv => (fst kv, f (snd kv))) entries)
  = f <$> lastEntry key entries.
Proof.
  induction entries as [|kv entries IH]; [done|].
  simpl map. rewrite !lastEntry_cons, IH. simpl.
  destruct (lastEntry key entries); [done|]. by case_bool_decide.
Qed.

(** X16. The object that [parseData] builds from a query holds, under
    each key, the parsed value of the last entry of the query with that
    key; a key that the query does not name is absent. *)
Theorem parseData_object_keeps_last_entry query :
  exists object,
    parseData (String "?" query) = DObject object
    /\ forall key,
         object !! key = parseValue <$> lastEntry key (urlSearchParams query).
Proof.
  eexists. split; [reflexivity|]. intros key. unfold fromEntries.
  rewrite fromEntries_lookup, lastEntry_map.
  by destruct (lastEntry key (urlSearchParams query)).
Qed.

End DataFacts.

(* ===================================================================== *)
(** * Further properties of refs and of hydration *)
(* ===================================================================== *)

Section RefsCoverage.

Implicit Types (doc : Node) (this e : Path) (refs : gmap string RefValue).

(** X17. What the refs object holds under a key, in terms of the
    scanned elements filed under that key, in scan order: nothing when
    there is none; the last element when that element has a single
    name, whatever came before it; and when the elements since the last
    single name (or all of them) have pluralized names, the list of
    exactly these, the earlier ones being dropped. *)
Theorem refs_hold_last_single_or_trailing_plurals doc this refs key :
  scannedRefs doc this = Some refs ->
  let filed := filter (fun e => refPath doc e = key) (scannedElements doc this) in
  (filed = [] -> refs !! key = None)
  /\ (forall before e,
        filed = before ++ [e] -> endsWith (refName doc e) "[]" = false ->
        refs !! key = Some (Single e))
  /\ (forall before plural,
        filed = before ++ plural -> plural <> [] ->
        Forall (fun e => endsWith (refName doc e) "[]" = true) plural ->
        (before = []
         \/ exists earlier e, before = earlier ++ [e]
                              /\ endsWith (refName doc e) "[]" = false) ->
        refs !! key = Some (Many plural)).
Proof.
  intros Hrefs filed. unfold scannedRefs in Hrefs.
  pose proof (collectRefs_lookup doc _ ∅ refs key Hrefs) as Hlookup.
  rewrite lookup_empty in Hlookup. fold filed in Hlookup. rewrite Hlookup.
  split; [by intros ->|]. split.
  - intros before e -> He. rewrite fold_left_app. simpl. unfold fileRef at 1.
    by rewrite He.
  - intros before plural -> Hne Hplural [->|(earlier & e & -> & He)].
    + by apply fileRef_plural.
    + rewrite !fold_left_app. simpl. unfold fileRef at 2. rewrite He.
      destruct plural as [|p ps]; [done|].
      apply Forall_cons in Hplural as [Hp Hps]. simpl. unfold fileRef at 2.
      rewrite Hp. simpl. by rewrite fileRef_many.
Qed.

Lemma refs_hold_last_single_or_trailing_plurals_witness :
  exists refs,
    scannedRefs menuList [] = Some refs
    /\ refs !! "item" = Some (Many [[Child 1]; [Child 2]])
    /\ refs !! "title" = Some (Single [Child 4])
    /\ refs !! "items" = None.
Proof.
  destruct (scannedRefs menuList []) as [refs|] eqn:Hrefs;
    [|by vm_compute in Hrefs].
  exists refs. split; [reflexivity|].
  pose proof (refs_hold_last_single_or_trailing_plurals menuList [] refs) as H.
  split; [|split].
  - apply (proj2 (proj2 (H "item" Hrefs)) [[Child 0]] [[Child 1]; [Child 2]]).
    + reflexivity.
    + discriminate.
    + by repeat constructor.
    + right. by exists [], [Child 0].
  - by apply (proj1 (proj2 (H "title" Hrefs)) [[Child 3]] [Child 4]).
  - by apply (proj1 (H "items" Hrefs)).
Defined.

Lemma descend_graft (new : Node) (steps : list PathStep) (n old : Node) :
  descend n steps = Some old -> descend (graft new n steps) steps = Some new.
Proof.
  revert n. induction steps as [|[i|i] rest IH]; intros n Hold; simpl in *.
  - by destruct n.
  - destruct n as [c t a s cs|a content]; simpl in *; [|by destruct i].
    rewrite list_lookup_alter_eq.
    destruct (cs !! i) as [child|]; [|done]. simpl. by apply IH.
  - destruct n as [c t a [sr|] cs|a content]; simpl in *; try done.
    rewrite list_lookup_alter_eq.
    destruct (sr !! i) as [child|]; [|done]. simpl. by apply IH.
Qed.

(** The element that hydration leaves at the place of the host. *)
Lemma nodeAt_hydrateShadowRoot doc this :
  nodeAt (hydrateShadowRoot doc this) this =
  match nodeAt doc this with
  | Some (Element c t a None cs) =>
      match List.find isOpenShadowTemplate cs with
      | Some (Template _ content) => Some (Element c t a (Some content) cs)
      | _ => nodeAt doc this
      end
  | other => other
  end.
Proof.
  unfold hydrateShadowRoot.
  destruct (nodeAt doc this) as [[c t a [sr|] cs|a content]|] eqn:Hn; try done.
  destruct (List.find isOpenShadowTemplate cs) as [[|a' content]|]; try done.
  unfold nodeAt in *. by eapply descend_graft.
Qed.

(** X18. Hydrating the declarative shadow root twice is hydrating it
    once. Hydration keeps the class, tag, attributes and children of
    the host (the template stays where it is); a host that has a shadow
    root keeps it, and a host without one whose first matching child is
    a template receives the content of that template as its shadow
    root. *)
Theorem hydration_happens_once doc this :
  hydrateShadowRoot (hydrateShadowRoot doc this) this = hydrateShadowRoot doc this
  /\ (nodeAt doc this = None -> hydrateShadowRoot doc this = doc)
  /\ (forall host, nodeAt doc this = Some host ->
      exists host',
        nodeAt (hydrateShadowRoot doc this) this = Some host'
        /\ node_class host' = node_class host
        /\ node_tagName host' = node_tagName host
        /\ node_attributes host' = node_attributes host
        /\ node_children host' = node_children host
        /\ (is_Some (node_shadowRoot host) -> host' = host)
        /\ (forall attributes content,
              node_shadowRoot host = None ->
              List.find isOpenShadowTemplate (node_children host)
              = Some (Template attributes content) ->
              node_shadowRoot host' = Some content)).
Proof.
  split; [|split].
  - pose proof (nodeAt_hydrateShadowRoot doc this) as Hat.
    remember (hydrateShadowRoot doc this) as doc' eqn:Hdoc'.
    unfold hydrateShadowRoot. rewrite Hat.
    destruct (nodeAt doc this) as [[c t a [sr|] cs|a content]|]; try done.
    destruct (List.find isOpenShadowTemplate cs) as [[|a' content']|] eqn:Hfind;
      cbv beta iota; rewrite ?Hfind; done.
  - unfold hydrateShadowRoot. by intros ->.
  - intros host Hhost. rewrite nodeAt_hydrateShadowRoot, Hhost.
    destruct host as [c t a [sr|] cs|a content]; simpl.
    + eexists. repeat split; done.
    + destruct (List.find isOpenShadowTemplate cs) as [[|a' content']|] eqn:Hfind;
        eexists; (repeat split; try done);
        try (by intros [x Hx]); try (by intros ? ? _ [= _ <-]).
    + eexists. repeat split; done.
Qed.

Lemma hydration_happens_once_witness :
  node_shadowRoot (hydrateShadowRoot cartDrawer [])
  = Some [ Element HTMLElementInstance "SLOT" [] None [] ]
  /\ node_children (hydrateShadowRoot cartDrawer []) = node_children cartDrawer.
Proof.
  destruct (proj2 (proj2 (hydration_happens_once cartDrawer [])) cartDrawer eq_refl)
    as (host' & Hat & _ & _ & _ & Hchildren & _ & Hshadow).
  injection Hat as <-. split.
  - exact (Hshadow _ _ eq_refl eq_refl).
  - exact Hchildren.
Defined.

End RefsCoverage.

Section TemplateRefs.

Implicit Types (doc : Node) (this e : Path).

Lemma descend_app (n : Node) (steps1 steps2 : list PathStep) :
  descend n (steps1 ++ steps2)
  = match descend n steps1 with
    | Some m => descend m steps2
    | None => None
    end.
Proof.
  revert n. induction steps1 as [|[i|i] steps1 IH]; intros n; simpl; [done|..].
  - destruct (node_children n !! i); [apply IH | done].
  - destruct (node_shadowRoot n) as [sr|]; [|done].
    destruct (sr !! i); [apply IH | done].
Qed.

(** The child at index [i] of a forest is listed under its own step. *)
Lemma forest_child_listed (step : nat -> PathStep) (p : Path) (cs : list Node)
    (k i : nat) (c : Node) :
  cs !! i = Some c -> step (k + i)%nat :: p ∈ forest subtree step p k cs.
Proof.
  revert k i. induction cs as [|x cs IH]; intros k i Hi; [done|].
  simpl. apply elem_of_app. destruct i as [|i]; simpl in Hi.
  - left. rewrite Nat.add_0_r. destruct x; left.
  - right. replace (k + S i)%nat with (S k + i)%nat by lia. by apply IH.
Qed.

(** X27. Hydration comes before the scan. For a component without a
    shadow root whose first matching child is a declarative shadow
    template, an element with a [ref] attribute at the top of the
    template's content is no element of the scan before hydration, and
    is one after it; [connectedCallback] scans the hydrated document,
    and when it returns, the refs of the component are the refs of
    that scan. *)
Theorem template_refs_are_scanned_after_hydration
    doc this tagName attributes children templateAttributes content
    (i : nat) (element : Node) (required : option (list string)) (rt : Runtime) :
  nodeAt doc this = Some (Element ComponentInstance tagName attributes None children) ->
  List.find isOpenShadowTemplate children = Some (Template templateAttributes content) ->
  content !! i = Some element ->
  is_Some (lookupAttribute "ref" (node_attributes element)) ->
  rt_document rt = doc ->
  let e := ShadowChild i :: this in
  let result := connectedCallback this required rt in
  (e ∉ scannedElements doc this)
  /\ e ∈ scannedElements (hydrateShadowRoot doc this) this
  /\ e ∈ scannedElements (rt_document (fst result)) this
  /\ (snd result = Returned ->
      scannedRefs (rt_document (fst result)) this = Some (rt_refs (fst result) this)).
Proof.
  intros Hhost Hfind Hi Href Hdoc e result.
  assert (Hhost' : nodeAt (hydrateShadowRoot doc this) this
                   = Some (Element ComponentInstance tagName attributes
                             (Some content) children)).
  { by rewrite nodeAt_hydrateShadowRoot, Hhost, Hfind. }
  assert (Hdocument : rt_document (fst result) = hydrateShadowRoot doc this).
  { subst result. unfold connectedCallback. rewrite Hdoc.
    by destruct (updateRefs _ _ _). }
  assert (Hscanned : e ∈ scannedElements (hydrateShadowRoot doc this) this).
  { apply elem_of_scannedElements. split; [|split].
    - unfold componentSubtree. apply elem_of_app. right.
      unfold descendants. rewrite Hhost'. simpl.
      apply (forest_child_listed ShadowChild this content 0 i element Hi).
    - unfold hasAttribute, getAttribute, nodeAt. subst e. simpl rev.
      rewrite descend_app. fold (nodeAt (hydrateShadowRoot doc this) this).
      rewrite Hhost'. simpl. rewrite Hi. by apply bool_decide_eq_true.
    - unfold nearestComponentAncestor. subst e. simpl.
      unfold isComponent at 1. simpl.
      unfold isComponent, instanceofComponent. by rewrite Hhost'. }
  split; [|split; [done|split]].
  - intros Hin. apply elem_of_scannedElements in Hin as [Hin _].
    unfold componentSubtree, descendants in Hin. rewrite Hhost in Hin. simpl in Hin.
    rewrite app_nil_r in Hin.
    destruct (forest_listed Child this children 0) as [_ Hform].
    + by intros ?? [= ->].
    + apply Forall_forall. intros x _. apply subtree_listed.
    + destruct (Hform e Hin) as (q & j & Heq & _). subst e.
      destruct q as [|x q]; [done|].
      apply (f_equal length) in Heq. simpl in Heq. rewrite length_app in Heq.
      simpl in Heq. lia.
  - by rewrite Hdocument.
  - rewrite Hdocument. subst result. unfold connectedCallback. rewrite Hdoc.
    unfold updateRefs.
    destruct (scannedRefs (hydrateShadowRoot doc this) this) as [refs|]; [|done].
    destruct required as [[|r rs]|]; [| destruct (firstMissing (r :: rs) refs) |];
      cbn [fst snd rt_refs]; try done; intros _; by rewrite bool_decide_eq_true_2.
Qed.

Lemma template_refs_are_scanned_after_hydration_witness :
  let drawer :=
    Element ComponentInstance "CART-DRAWER" [] None
      [ Template [("shadowrootmode", "open")]
          [ Element HTMLElementInstance "DIALOG" [("ref", "dialog")] None [] ] ] in
  ([ShadowChild 0] ∉ scannedElements drawer [])
  /\ [ShadowChild 0] ∈ scannedElements (hydrateShadowRoot drawer []) [].
Proof.
  intros drawer.
  destruct (template_refs_are_scanned_after_hydration drawer [] "CART-DRAWER" []
              [ Template [("shadowrootmode", "open")]
                  [ Element HTMLElementInstance "DIALOG" [("ref", "dialog")] None [] ] ]
              [("shadowrootmode", "open")]
              [ Element HTMLElementInstance "DIALOG" [("ref", "dialog")] None [] ]
              0 (Element HTMLElementInstance "DIALOG" [("ref", "dialog")] None [])
              None (freshRuntime drawer) eq_refl eq_refl eq_refl
              ltac:(by eexists) eq_refl) as (Hbefore & Hafter & _).
  split; [exact Hbefore | exact Hafter].
Defined.

End TemplateRefs.

(* ===================================================================== *)
(** * Properties of the theme loader and of the header group height *)
(* ===================================================================== *)

Section LoaderFacts.

Implicit Types (loads : string -> bool) (files : list string).

(** The scripts of a file list: its names ending in [.js]. *)
Local Abbreviation scriptsOf files := (filter (fun f => endsWith f ".js") files).

Lemma requestedScripts_app effects1 effects2 :
  requestedScripts (effects1 ++ effects2)
  = requestedScripts effects1 ++ requestedScripts effects2.
Proof. unfold requestedScripts. apply omap_app. Qed.

(** The loop requests the scripts in order and stops at the first one
    that fails to load. *)
Lemma loadScripts_spec loads files :
  let '(effects, error) := loadScripts loads files in
  match error with
  | None =>
      requestedScripts effects = map assetPath (scriptsOf files)
      /\ (forall f, f ∈ scriptsOf files -> loads (assetPath f) = true)
      /\ (forall x, x ∈ effects ->
            (exists src, x = ScriptAppended src) \/ (exists f, x = LogLoaded f))
  | Some message =>
      exists loaded f rest,
        scriptsOf files = loaded ++ f :: rest
        /\ (forall x, x ∈ loaded -> loads (assetPath x) = true)
        /\ loads (assetPath f) = false
        /\ message = ("Failed to load " ++ f)%string
        /\ requestedScripts effects = map assetPath (loaded ++ [f])
        /\ (forall x, x ∈ effects ->
              (exists src, x = ScriptAppended src) \/ (exists f, x = LogLoaded f))
  end.
Proof.
  induction files as [|filename files IH]; simpl.
  - split; [done|]. split; by intros ? ?%elem_of_nil.
  - rewrite filter_cons. destruct (endsWith filename ".js") eqn:Hjs; simpl.
    + destruct (loads (assetPath filename)) eqn:Hload.
      * destruct (loadScripts loads files) as [effects [message|]].
        -- destruct IH as (loaded & f & rest & Heq & Hloaded & Hf & Hm & Hreq & Hkind).
           exists (filename :: loaded), f, rest. rewrite Heq.
           split; [done|]. split.
           { intros x [->|Hx]%elem_of_cons; [done | by apply Hloaded]. }
           split; [done|]. split; [done|]. split.
           { simpl. by rewrite Hreq. }
           intros x [->|[->|Hx]%elem_of_cons]%elem_of_cons; eauto.
        -- destruct IH as (Hreq & Hall & Hkind). split.
           { simpl. by rewrite Hreq. }
           split.
           { intros f [->|Hf]%elem_of_cons; [done | by apply Hall]. }
           intros x [->|[->|Hx]%elem_of_cons]%elem_of_cons; eauto.
      * exists [], filename, (scriptsOf files). split; [done|].
        split; [by intros ? ?%elem_of_nil|]. split; [done|]. split; [done|].
        split; [done|]. intros x [->|[]%elem_of_nil]%elem_of_cons; eauto.
    + exact IH.
Qed.

(** X19. The loader requests scripts from [/assets/], only for the
    names of [componentFiles] that end in [.js] (the two style sheets
    of the list are never requested), in the order of the list and one
    after the other. When every script loads, all of them are
    requested and the last thing the loader does is to dispatch
    [vessel-theme-loaded]. When one fails, it is the last script
    requested: the error [Failed to load <name>] is logged, no later
    script is requested and the event is not dispatched. *)
Theorem loader_stops_at_first_failure loads :
  let scripts := filter (fun f => endsWith f ".js") componentFiles in
  let effects := loadVesselTheme loads in
  let requested := requestedScripts effects in
  requested `prefix_of` map assetPath scripts
  /\ length scripts = 61%nat
  /\ ("overflow-list.css" ∉ scripts) /\ ("template-giftcard.css" ∉ scripts)
  /\ ((forall f, f ∈ scripts -> loads (assetPath f) = true) ->
      requested = map assetPath scripts
      /\ last effects = Some (EventDispatched "vessel-theme-loaded")
      /\ forall message, LogError message ∉ effects)
  /\ (forall loaded f rest,
        scripts = loaded ++ f :: rest ->
        (forall x, x ∈ loaded -> loads (assetPath x) = true) ->
        loads (assetPath f) = false ->
        requested = map assetPath (loaded ++ [f])
        /\ last effects = Some (LogError ("Failed to load " ++ f)%string)
        /\ EventDispatched "vessel-theme-loaded" ∉ effects).
Proof.
  cbv zeta. unfold loadVesselTheme.
  pose proof (loadScripts_spec loads componentFiles) as Hspec.
  destruct (loadScripts loads componentFiles) as [effects [message|]].
  - destruct Hspec as (loaded & f & rest & Heq & Hloaded & Hf & -> & Hreq & Hkind).
    assert (Hrequested :
              requestedScripts (LogLoading :: effects
                                ++ [LogError ("Failed to load " ++ f)%string])
              = map assetPath (loaded ++ [f])).
    { change (LogLoading :: ?l) with ([LogLoading] ++ l).
      rewrite !requestedScripts_app, Hreq. simpl. by rewrite ?app_nil_r. }
    rewrite Hrequested. split.
    { rewrite Heq. exists (map assetPath rest).
      by rewrite !map_app, <- app_assoc. }
    split; [by vm_compute|].
    split; [apply (bool_decide_unpack _); by vm_compute|].
    split; [apply (bool_decide_unpack _); by vm_compute|].
    split.
    + intros Hall. exfalso. rewrite Hall in Hf; [done|]. rewrite Heq.
      apply elem_of_app. right. left.
    + intros loaded' f' rest' Heq' Hloaded' Hf'.
      assert (Hsame : loaded' = loaded /\ f' = f).
      { rewrite Heq in Heq'. clear -Heq' Hloaded Hloaded' Hf Hf'.
        revert loaded' Heq' Hloaded'.
        induction loaded as [|x loaded IH]; intros [|y loaded'] Heq' Hloaded'.
        - by inversion Heq'.
        - inversion Heq'; subst. rewrite Hloaded' in Hf; [done | left].
        - inversion Heq'; subst. rewrite Hloaded in Hf'; [done | left].
        - inversion Heq'; subst. destruct (IH ltac:(intros; apply Hloaded; by right)
                                             loaded' ltac:(done)
                                             ltac:(intros; apply Hloaded'; by right))
            as [-> ->]. done. }
      destruct Hsame as [-> ->]. split; [done|]. split.
      * change (LogLoading :: ?l) with ([LogLoading] ++ l).
        by rewrite app_assoc, last_snoc.
      * intros [Hin|[Hin|Hin%list_elem_of_singleton]%elem_of_app]%elem_of_cons;
          [done| |done].
        destruct (Hkind _ Hin) as [[? ?]|[? ?]]; done.
  - destruct Hspec as (Hreq & Hall & Hkind).
    assert (Hrequested :
              requestedScripts (LogLoading :: effects
                                ++ [LogAllLoaded; EventDispatched "vessel-theme-loaded"])
              = map assetPath (filter (fun f => endsWith f ".js") componentFiles)).
    { change (LogLoading :: ?l) with ([LogLoading] ++ l).
      rewrite !requestedScripts_app, Hreq. simpl. by rewrite ?app_nil_r. }
    rewrite Hrequested. split; [done|].
    split; [by vm_compute|].
    split; [apply (bool_decide_unpack _); by vm_compute|].
    split; [apply (bool_decide_unpack _); by vm_compute|].
    split.
    + intros _. split; [done|]. split.
      * change (LogLoading :: effects ++ [LogAllLoaded; ?e])
          with ([LogLoading] ++ effects ++ [LogAllLoaded] ++ [e]).
        by rewrite !app_assoc, last_snoc.
      * intros message
          [Hin|[Hin|[Hin|Hin%list_elem_of_singleton]%elem_of_cons]%elem_of_app]%elem_of_cons;
          try done.
        destruct (Hkind _ Hin) as [[? ?]|[? ?]]; done.
    + intros loaded f rest Heq Hloaded Hf. exfalso.
      rewrite Hall in Hf; [done|]. rewrite Heq. apply elem_of_app. right. left.
Qed.

Lemma loader_stops_at_first_failure_witness :
  let loads := fun src => negb (bool_decide (src = "/assets/component.js")) in
  requestedScripts (loadVesselTheme loads)
  = ["/assets/utilities.js"; "/assets/critical.js"; "/assets/component.js"]
  /\ last (loadVesselTheme loads) = Some (LogError "Failed to load component.js")
  /\ requestedScripts (loadVesselTheme (fun _ => true))
     = map assetPath (filter (fun f => endsWith f ".js") componentFiles).
Proof.
  intros loads.
  pose proof (loader_stops_at_first_failure loads) as H. cbv zeta in H.
  destruct H as (_ & _ & _ & _ & _ & Hfail).
  destruct (Hfail ["utilities.js"; "critical.js"] "component.js"
              (drop 3 (filter (fun f => endsWith f ".js") componentFiles)))
    as (Hrequested & Hlast & _).
  - by vm_compute.
  - intros x Hx. apply list_elem_of_In in Hx. simpl in Hx.
    destruct Hx as [<-|[<-|[]]]; reflexivity.
  - reflexivity.
  - split; [exact Hrequested|]. split; [exact Hlast|].
    apply (proj1 (proj1 (proj2 (proj2 (proj2 (proj2
             (loader_stops_at_first_failure (fun _ => true))))))
               (fun _ _ => eq_refl))).
Defined.

End LoaderFacts.

Section HeaderGroupFacts.

Implicit Types (group : list GroupChild) (header : option nat).

Lemma headerGroup_loop header group (total : Z) :
  fold_left
    (fun totalHeight element =>
       if bool_decide (Some (child_element element) = header)
          || negb (child_isHTMLElement element)
       then totalHeight
       else (totalHeight + child_offsetHeight element)%Z)
    group total
  = (total + calculateHeaderGroupHeight header (Some group))%Z.
Proof.
  unfold calculateHeaderGroupHeight.
  set (add := fun (totalHeight : Z) (element : GroupChild) =>
                if bool_decide (Some (child_element element) = header)
                   || negb (child_isHTMLElement element)
                then totalHeight
                else (totalHeight + child_offsetHeight element)%Z).
  revert total. induction group as [|c group IH]; intros total; simpl; [lia|].
  rewrite (IH (add total c)), (IH (add 0%Z c)). unfold add.
  destruct (bool_decide _ || negb _); lia.
Qed.

Lemma calculateHeaderGroupHeight_cons header c group :
  calculateHeaderGroupHeight header (Some (c :: group))
  = ((if bool_decide (Some (child_element c) = header)
         || negb (child_isHTMLElement c)
      then 0 else child_offsetHeight c)
     + calculateHeaderGroupHeight header (Some group))%Z.
Proof.
  unfold calculateHeaderGroupHeight at 1. simpl. rewrite headerGroup_loop.
  destruct (bool_decide (Some (child_element c) = header)),
           (child_isHTMLElement c); simpl; lia.
Qed.

Lemma htmlChildrenHeight_cons c group :
  htmlChildrenHeight (c :: group)
  = ((if child_isHTMLElement c then child_offsetHeight c else 0)
     + htmlChildrenHeight group)%Z.
Proof.
  unfold htmlChildrenHeight. rewrite filter_cons.
  destruct (child_isHTMLElement c); simpl; lia.
Qed.

(** X20. Without a header group the height is 0. Otherwise it is the
    sum of the heights of the children that are [HTMLElement]s, the
    header left out: it equals the whole sum when the header is [null],
    is no child of the group or is no [HTMLElement], and the whole sum
    less the height of the header when the header is one of these
    children. Heights being non-negative, so is the result. *)
Theorem header_group_height_leaves_header_out header group :
  NoDup (map child_element group) ->
  calculateHeaderGroupHeight header None = 0%Z
  /\ ((forall c, c ∈ group -> Some (child_element c) = header ->
                 child_isHTMLElement c = false) ->
      calculateHeaderGroupHeight header (Some group) = htmlChildrenHeight group)
  /\ (forall c, c ∈ group -> Some (child_element c) = header ->
                child_isHTMLElement c = true ->
      calculateHeaderGroupHeight header (Some group)
      = (htmlChildrenHeight group - child_offsetHeight c)%Z)
  /\ ((forall c, c ∈ group -> (0 <= child_offsetHeight c)%Z) ->
      (0 <= calculateHeaderGroupHeight header (Some group)
       <= htmlChildrenHeight group)%Z).
Proof.
  intros Hnd. split; [done|].
  assert (Hout : forall group,
            (forall c, c ∈ group -> Some (child_element c) = header ->
                       child_isHTMLElement c = false) ->
            calculateHeaderGroupHeight header (Some group) = htmlChildrenHeight group).
  { clear. induction group as [|c group IH]; intros Hno; [done|].
    rewrite calculateHeaderGroupHeight_cons, htmlChildrenHeight_cons, IH.
    - case_bool_decide as Hc; cbn [orb].
      + by rewrite (Hno c ltac:(left) Hc).
      + by destruct (child_isHTMLElement c).
    - intros x Hx. apply Hno. by right. }
  split; [apply Hout|]. split.
  - induction group as [|x group IH]; intros c Hc Hheader Hhtml;
      [by apply elem_of_nil in Hc|].
    apply NoDup_cons in Hnd as [Hx Hnd].
    rewrite calculateHeaderGroupHeight_cons, htmlChildrenHeight_cons.
    apply elem_of_cons in Hc as [->|Hc].
    + rewrite (bool_decide_eq_true_2 _ Hheader), Hhtml. cbn [orb].
      rewrite Hout; [lia|]. intros y Hy Hyh. exfalso. apply Hx.
      apply list_elem_of_In, in_map_iff. exists y.
      split; [congruence | by apply list_elem_of_In].
    + rewrite (IH Hnd c Hc Hheader Hhtml).
      rewrite bool_decide_eq_false_2.
      * cbn [orb]. destruct (child_isHTMLElement x); cbn [negb]; lia.
      * intros Hxh. apply Hx. apply list_elem_of_In, in_map_iff. exists c.
        split; [congruence | by apply list_elem_of_In].
  - clear Hnd Hout. induction group as [|x group IH]; intros Hpos; [done|].
    rewrite calculateHeaderGroupHeight_cons, htmlChildrenHeight_cons.
    pose proof (Hpos x ltac:(left)).
    assert (0 <= calculateHeaderGroupHeight header (Some group)
            <= htmlChildrenHeight group)%Z
      by (apply IH; intros c Hc; apply Hpos; by right).
    destruct (bool_decide _), (child_isHTMLElement x); cbn [orb negb]; lia.
Qed.

Lemma header_group_height_leaves_header_out_witness :
  let announcement := {| child_element := 0; child_isHTMLElement := true;
                         child_offsetHeight := 32 |} in
  let header := {| child_element := 1; child_isHTMLElement := true;
                   child_offsetHeight := 64 |} in
  let icon := {| child_element := 2; child_isHTMLElement := false;
                 child_offsetHeight := 500 |} in
  calculateHeaderGroupHeight (Some 1%nat) (Some [announcement; header; icon]) = 32%Z.
Proof.
  intros announcement header icon.
  assert (Hnd : NoDup (map child_element [announcement; header; icon])).
  { apply (bool_decide_unpack _). by vm_compute. }
  destruct (header_group_height_leaves_header_out (Some 1%nat)
              [announcement; header; icon] Hnd) as (_ & _ & Hin & _).
  rewrite (Hin header); [reflexivity | | reflexivity | reflexivity].
  apply elem_of_cons. right. left.
Defined.

End HeaderGroupFacts.

(* ===================================================================== *)
(** * Properties of the utilities *)
(* ===================================================================== *)

Section UtilitiesFacts.

(** X21. [clamp] answers a number between the bounds whenever the
    bounds are in order, and the value itself when it lies between
    them; clamping twice is clamping once. With the bounds out of order
    the answer is [max], whatever the value. *)
Theorem clamp_stays_within_bounds (value min max : Q) :
  ((min <= max)%Q ->
   (min <= Utilities.clamp value min max)%Q
   /\ (Utilities.clamp value min max <= max)%Q)
  /\ ((min <= value)%Q -> (value <= max)%Q ->
      (Utilities.clamp value min max == value)%Q)
  /\ ((max < min)%Q -> (Utilities.clamp value min max == max)%Q)
  /\ (Utilities.clamp (Utilities.clamp value min max) min max
      == Utilities.clamp value min max)%Q.
Proof.
  unfold Utilities.clamp.
  assert (Hbounds : forall v, (min <= max)%Q ->
            (min <= Qmin (Qmax v min) max)%Q /\ (Qmin (Qmax v min) max <= max)%Q).
  { intros v Hle. split; [|apply Q.le_min_r].
    apply Q.min_glb; [apply Q.le_max_r | done]. }
  assert (Hinside : forall v, (min <= v)%Q -> (v <= max)%Q ->
            (Qmin (Qmax v min) max == v)%Q).
  { intros v H1 H2. pose proof (Q.max_l v min H1) as Hv.
    rewrite Q.min_l; [done|]. by rewrite Hv. }
  assert (Hcrossed : forall v, (max < min)%Q -> (Qmin (Qmax v min) max == max)%Q).
  { intros v Hlt. apply Q.min_r. apply Qlt_le_weak.
    apply (Qlt_le_trans _ min); [done | apply Q.le_max_r]. }
  split; [apply Hbounds|]. split; [apply Hinside|]. split; [apply Hcrossed|].
  destruct (Qlt_le_dec max min) as [Hlt|Hle].
  - by rewrite !Hcrossed.
  - destruct (Hbounds value Hle). by apply Hinside.
Qed.

Lemma clamp_stays_within_bounds_witness :
  (Utilities.clamp 15 0 10 <= 10)%Q
  /\ (Utilities.clamp 5 0 10 == 5)%Q
  /\ (Utilities.clamp 5 10 0 == 0)%Q.
Proof.
  split; [|split].
  - apply (proj1 (clamp_stays_within_bounds 15 0 10)). discriminate.
  - apply (proj1 (proj2 (clamp_stays_within_bounds 5 0 10))); discriminate.
  - apply (proj1 (proj2 (proj2 (clamp_stays_within_bounds 5 10 0)))). reflexivity.
Defined.








Lemma indexOf_absent c s :
  lacksUnit c s = true -> Utilities.indexOf c s = (-1)%Z.
Proof.
  unfold lacksUnit. induction s as [|a s IH]; simpl; [done|].
  intros [Ha Hs]%andb_true_iff. apply negb_true_iff in Ha. by rewrite Ha, IH.
Qed.

Lemma indexOf_first c a rest :
  lacksUnit c a = true ->
  Utilities.indexOf c (a ++ String c rest) = Z.of_nat (String.length a).
Proof.
  unfold lacksUnit. induction a as [|u a IH]; intros Ha.
  - change ("" ++ ?s)%string with s. simpl. by rewrite bool_decide_eq_true_2.
  - rewrite append_cons. simpl in *. apply andb_true_iff in Ha as [Hu Ha].
    apply negb_true_iff in Hu. rewrite Hu, IH by done.
    destruct (Z.ltb_spec (Z.of_nat (String.length a)) 0); lia.
Qed.

Lemma replace_absent c replacement s :
  lacksUnit c s = true -> Utilities.replace c replacement s = s.
Proof.
  unfold lacksUnit. induction s as [|a s IH]; simpl; [done|].
  intros [Ha Hs]%andb_true_iff. apply negb_true_iff in Ha. by rewrite Ha, IH.
Qed.

Lemma replace_first c replacement a rest :
  lacksUnit c a = true ->
  Utilities.replace c replacement (a ++ String c rest)
  = (a ++ replacement ++ rest)%string.
Proof.
  unfold lacksUnit. induction a as [|u a IH]; intros Ha.
  - change ("" ++ ?s)%string with s. simpl. by rewrite bool_decide_eq_true_2.
  - rewrite !append_cons. simpl in *. apply andb_true_iff in Ha as [Hu Ha].
    apply negb_true_iff in Hu. by rewrite Hu, IH.
Qed.

Lemma lacksUnit_append c x d y :
  lacksUnit c x = true -> d <> c -> lacksUnit c y = true ->
  lacksUnit c (x ++ String d y) = true.
Proof.
  unfold lacksUnit. intros Hx Hd Hy. rewrite allUnits_append, Hx. simpl.
  by rewrite Hy, bool_decide_eq_false_2.
Qed.

(** X24. [formatMoney] on a string. The first space is taken out
    before anything else, and only that one: later spaces stay. Without
    a comma the rest is returned as it is. A single comma is read as
    the decimal mark and becomes a dot. With the first comma before the
    first dot, that comma is a thousands separator and is taken out;
    later commas stay. With the first dot before the first comma, that
    dot is taken out and that comma becomes a dot; later dots and
    commas stay. *)
Theorem formatMoney_normalises_separators (a b rest : string) :
  isGroup a = true -> lacksUnit " " b = true -> lacksUnit " " rest = true ->
  Utilities.formatMoney a = a
  /\ (lacksUnit "," b = true ->
      Utilities.formatMoney (a ++ "." ++ b) = (a ++ "." ++ b)%string)
  /\ (lacksUnit "," b = true -> lacksUnit "." b = true ->
      Utilities.formatMoney (a ++ "," ++ b) = (a ++ "." ++ b)%string)
  /\ (lacksUnit "." b = true ->
      Utilities.formatMoney (a ++ "," ++ b ++ "." ++ rest)
      = (a ++ b ++ "." ++ rest)%string)
  /\ (lacksUnit "," b = true ->
      Utilities.formatMoney (a ++ "." ++ b ++ "," ++ rest)
      = (a ++ b ++ "." ++ rest)%string)
  /\ Utilities.formatMoney (a ++ " " ++ rest) = Utilities.formatMoney (a ++ rest)
  /\ (forall tail, lacksUnit "," tail = true ->
        Utilities.formatMoney (a ++ " " ++ tail) = (a ++ tail)%string).
Proof.
  intros Ha Hb1 Hrest. unfold isGroup in Ha.
  apply andb_true_iff in Ha as [[Ha1 Ha2]%andb_true_iff Ha3].
  assert (Hsingle : forall c s, (String c "" ++ s)%string = String c s) by done.
  rewrite !Hsingle.
  assert (Hspace : forall s, lacksUnit " " s = true -> Utilities.replace " " "" s = s).
  { intros s Hs. by apply replace_absent. }
  unfold Utilities.formatMoney. split; [|split; [|split; [|split; [|split; [|split]]]]].
  - rewrite (Hspace a Ha1), (indexOf_absent "," a Ha2). done.
  - intros Hb2. rewrite Hspace by (by apply lacksUnit_append).
    by rewrite (indexOf_absent "," (a ++ String "." b)) by (by apply lacksUnit_append).
  - intros Hb2 Hb3. rewrite Hspace by (by apply lacksUnit_append).
    rewrite (indexOf_first "," a b Ha2).
    rewrite (indexOf_absent "." (a ++ String "," b)) by (by apply lacksUnit_append).
    rewrite (proj2 (Z.eqb_neq _ (-1))) by lia.
    rewrite (proj2 (Z.ltb_ge _ (-1))) by lia.
    rewrite (proj2 (Z.ltb_lt (-1) _)) by lia.
    rewrite (replace_absent "." "" (a ++ String "," b)) by (by apply lacksUnit_append).
    by rewrite (replace_first "," "." a b Ha2).
  - intros Hb3.
    rewrite Hspace by (apply lacksUnit_append; [done..|]; by apply lacksUnit_append).
    rewrite (indexOf_first "," a _ Ha2).
    replace (a ++ String "," (b ++ String "." rest))%string
      with ((a ++ String "," b) ++ String "." rest)%string
      by (by rewrite append_assoc).
    rewrite (indexOf_first "." (a ++ String "," b) rest) by (by apply lacksUnit_append).
    rewrite length_append. simpl String.length.
    rewrite (proj2 (Z.eqb_neq _ (-1))) by lia.
    rewrite (proj2 (Z.ltb_lt _ _)) by lia.
    rewrite append_assoc, append_cons.
    by rewrite (replace_first "," "" a _ Ha2).
  - intros Hb2.
    rewrite Hspace by (apply lacksUnit_append; [done..|]; by apply lacksUnit_append).
    rewrite (indexOf_first "." a _ Ha3).
    replace (a ++ String "." (b ++ String "," rest))%string
      with ((a ++ String "." b) ++ String "," rest)%string
      by (by rewrite append_assoc).
    rewrite (indexOf_first "," (a ++ String "." b) rest) by (by apply lacksUnit_append).
    rewrite length_append. simpl String.length.
    rewrite (proj2 (Z.eqb_neq _ (-1))) by lia.
    rewrite (proj2 (Z.ltb_ge _ _)) by lia.
    rewrite (proj2 (Z.ltb_lt _ _)) by lia.
    rewrite append_assoc, append_cons.
    rewrite (replace_first "." "" a _ Ha3).
    change ("" ++ ?s)%string with s.
    rewrite <- append_assoc.
    rewrite (replace_first "," "." (a ++ b) rest);
      [by rewrite append_assoc|].
    unfold lacksUnit in *. by rewrite allUnits_append, Ha2, Hb2.
  - rewrite (replace_first " " "" a rest Ha1). change ("" ++ rest)%string with rest.
    rewrite (Hspace (a ++ rest)%string); [done|].
    unfold lacksUnit in *. by rewrite allUnits_append, Ha1, Hrest.
  - intros tail Htail. rewrite Hsingle, (replace_first " " "" a tail Ha1).
    change ("" ++ tail)%string with tail.
    rewrite (indexOf_absent "," (a ++ tail)%string); [done|].
    unfold lacksUnit in *. by rewrite allUnits_append, Ha2, Htail.
Qed.

Lemma formatMoney_normalises_separators_witness :
  Utilities.formatMoney "1,234.56" = "1234.56"
  /\ Utilities.formatMoney "1.234,56" = "1234.56"
  /\ Utilities.formatMoney "12,5" = "12.5"
  /\ Utilities.formatMoney "1,234,567.89" = "1234,567.89"
  /\ Utilities.formatMoney "1 234 567" = "1234 567".
Proof.
  pose proof (formatMoney_normalises_separators "1" "234" "56"
                eq_refl eq_refl eq_refl) as (_ & _ & _ & H1 & H2 & _ & H5).
  pose proof (formatMoney_normalises_separators "12" "5" ""
                eq_refl eq_refl eq_refl) as (_ & _ & H3 & _).
  pose proof (formatMoney_normalises_separators "1" "234,567" "89"
                eq_refl eq_refl eq_refl) as (_ & _ & _ & H4 & _).
  split; [exact (H1 eq_refl)|]. split; [exact (H2 eq_refl)|].
  split; [exact (H3 eq_refl eq_refl)|]. split; [exact (H4 eq_refl)|].
  exact (H5 "234 567" eq_refl).
Defined.

End UtilitiesFacts.

(* ===================================================================== *)
(** * Properties of the paginated list and of the countdown *)
(* ===================================================================== *)

Section PaginationFacts.

Context {A : Type}.
Implicit Types (items : list A) (this : PaginatedList).

(** [slice] between two indexes that are not negative. *)
Lemma slice_nonnegative (start finish : Z) items :
  (0 <= start)%Z -> (start <= finish)%Z ->
  slice start finish items
  = take (Z.to_nat (finish - start)) (drop (Z.to_nat start) items).
Proof.
  intros Hs Hf. unfold slice.
  rewrite (proj2 (Z.ltb_ge start 0)), (proj2 (Z.ltb_ge finish 0)) by lia.
  destruct (Z.le_gt_cases (Z.of_nat (length items)) start) as [Hout|Hin].
  - rewrite Z.min_r by lia. rewrite !drop_ge by lia. by rewrite !take_nil.
  - rewrite (Z.min_l start) by lia.
    destruct (Z.le_gt_cases finish (Z.of_nat (length items))) as [Hle|Hgt].
    + by rewrite Z.min_l by lia.
    + rewrite Z.min_r by lia. rewrite !take_ge; [done|..]; rewrite length_drop; lia.
Qed.

(** A page of the list, for a page number from 1 on. *)
Lemma getPageItems_page (page : nat) (size : nat) items :
  getPageItems {| currentPage := Z.of_nat (S page); itemsPerPage := Z.of_nat size |} items
  = take size (drop (page * size) items).
Proof.
  unfold getPageItems. simpl currentPage. simpl itemsPerPage. cbv zeta.
  rewrite slice_nonnegative by nia. f_equal; [lia|]. f_equal. nia.
Qed.

(** Cutting a list into consecutive runs of [size] and joining them
    gives the list back. *)
Lemma chunks_concat (size pages : nat) items :
  (length items <= pages * size)%nat ->
  concat (map (fun page => take size (drop (page * size) items)) (seq 0 pages)) = items.
Proof.
  revert items. induction pages as [|pages IH]; intros items Hlen.
  - destruct items as [|x items]; [done|]. simpl in Hlen. lia.
  - rewrite <- cons_seq, <- fmap_S_seq. simpl concat.
    change (S <$> seq 0 pages) with (map S (seq 0 pages)). rewrite map_map.
    rewrite (map_ext _ (fun page => take size (drop (page * size) (drop size items)))).
    + rewrite IH by (rewrite length_drop; lia). simpl. apply take_drop.
    + intros page. rewrite drop_drop. do 2 f_equal; lia.
Qed.

(** X25. With a page size above 0, the pages [1 .. getTotalPages] of a
    list, joined in order, give the list back: every item is on one
    page and the order is kept. No page holds more than [itemsPerPage]
    items, every page but the last holds that many, and the pages
    after the last one, like page 0, are empty. *)
Theorem pages_partition_the_items (size : Z) items :
  (0 < size)%Z ->
  exists pages : nat,
    getTotalPages {| currentPage := 1; itemsPerPage := size |}
      (Z.of_nat (length items)) = Some (Z.of_nat pages)
    /\ concat (map (fun page =>
                      getPageItems {| currentPage := Z.of_nat page;
                                      itemsPerPage := size |} items)
                   (seq 1 pages)) = items
    /\ (forall page : Z,
          (Z.of_nat (length (getPageItems {| currentPage := page;
                                             itemsPerPage := size |} items))
           <= size)%Z)
    /\ (forall page : Z, (1 <= page < Z.of_nat pages)%Z ->
          Z.of_nat (length (getPageItems {| currentPage := page;
                                            itemsPerPage := size |} items)) = size)
    /\ (forall page : Z, (Z.of_nat pages < page)%Z \/ page = 0%Z ->
          getPageItems {| currentPage := page; itemsPerPage := size |} items = []).
Proof.
  intros Hsize.
  set (n := length items).
  set (k := Z.to_nat size).
  assert (Hk : size = Z.of_nat k) by lia.
  assert (Hceil : exists pages : nat,
            (- (- Z.of_nat n / size))%Z = Z.of_nat pages
            /\ (n <= pages * k)%nat /\ (pages * k < n + k)%nat).
  { exists (Z.to_nat (- (- Z.of_nat n / size))).
    pose proof (Z.div_mod (- Z.of_nat n) size ltac:(lia)) as Hdm.
    pose proof (Z.mod_pos_bound (- Z.of_nat n) size Hsize) as Hmod.
    assert (0 <= - (- Z.of_nat n / size))%Z by nia.
    split; [lia|]. split; nia. }
  destruct Hceil as (pages & Hpages & Hcover & Htight).
  exists pages. split.
  { unfold getTotalPages. simpl itemsPerPage.
    rewrite (proj2 (Z.eqb_neq size 0)) by lia. by rewrite Hpages. }
  split.
  { rewrite <- fmap_S_seq. change (S <$> seq 0 pages) with (map S (seq 0 pages)).
    rewrite map_map.
    rewrite (map_ext _ (fun page => take k (drop (page * k) items))).
    - by apply chunks_concat.
    - intros page. rewrite Hk. apply getPageItems_page. }
  assert (Hunfold : forall page : Z,
            getPageItems {| currentPage := page; itemsPerPage := size |} items
            = slice ((page - 1) * size) ((page - 1) * size + size) items).
  { done. }
  split; [|split].
  - intros page. rewrite Hunfold. unfold slice. rewrite length_take, length_drop.
    destruct (Z.ltb_spec ((page - 1) * size) 0),
             (Z.ltb_spec ((page - 1) * size + size) 0); lia.
  - intros page Hpage. rewrite Hunfold, slice_nonnegative by nia.
    rewrite length_take, length_drop. fold n. nia.
  - intros page [Hpage| ->].
    + rewrite Hunfold, slice_nonnegative by nia.
      rewrite drop_ge; [by rewrite take_nil|]. fold n. nia.
    + rewrite Hunfold. apply nil_length_inv. unfold slice.
      rewrite length_take, length_drop.
      destruct (Z.ltb_spec ((0 - 1) * size) 0),
               (Z.ltb_spec ((0 - 1) * size + size) 0); lia.
Qed.

End PaginationFacts.

Lemma pages_partition_the_items_witness :
  exists pages : nat,
    getTotalPages {| currentPage := 1; itemsPerPage := 2 |} 5 = Some (Z.of_nat pages)
    /\ concat (map (fun page =>
                      getPageItems {| currentPage := Z.of_nat page;
                                      itemsPerPage := 2 |} [10; 11; 12; 13; 14]%nat)
                   (seq 1 pages)) = [10; 11; 12; 13; 14]%nat.
Proof.
  destruct (pages_partition_the_items 2 [10; 11; 12; 13; 14]%nat)
    as (pages & Htotal & Hconcat & _); [reflexivity|].
  exists pages. split; [exact Htotal | exact Hconcat].
Defined.

Section CountdownFacts.

(** X26. While the end date is not reached, the four numbers that a
    countdown shows split the remaining whole seconds: hours stay below
    24, minutes and seconds below 60, none is negative, and together
    with the days they add up to the remaining time in seconds, rounded
    down. Once the end date has passed the tick shows [EXPIRED] and
    clears the interval. *)
Theorem countdown_splits_remaining_seconds (endDate now : Z) :
  ((now <= endDate)%Z ->
   let '(days, hours, minutes, seconds) := countdownParts (endDate - now) in
   (0 <= days)%Z /\ (0 <= hours < 24)%Z /\ (0 <= minutes < 60)%Z
   /\ (0 <= seconds < 60)%Z
   /\ (((days * 24 + hours) * 60 + minutes) * 60 + seconds
       = (endDate - now) / 1000)%Z
   /\ snd (countdownTick endDate now) = false)
  /\ ((endDate < now)%Z -> countdownTick endDate now = ("EXPIRED", true)).
Proof.
  split.
  - intros Hle.
    assert (Htick : snd (countdownTick endDate now) = false).
    { unfold countdownTick. rewrite (proj2 (Z.ltb_ge (endDate - now) 0)) by lia.
      by destruct (countdownParts (endDate - now)) as [[[? ?] ?] ?]. }
    unfold countdownParts. cbv zeta.
    set (distance := (endDate - now)%Z) in *.
    assert (Hd : (0 <= distance)%Z) by (subst distance; lia).
    rewrite !Z.rem_mod_nonneg by lia.
    change (1000 * 60 * 60 * 24)%Z with 86400000%Z.
    change (1000 * 60 * 60)%Z with 3600000%Z.
    change (1000 * 60)%Z with 60000%Z.
    assert (Hhours : (distance mod 3600000
                      = (distance mod 86400000) mod 3600000)%Z).
    { symmetry. apply Z.mod_mod_divide. by exists 24%Z. }
    assert (Hminutes : (distance mod 60000 = (distance mod 3600000) mod 60000)%Z).
    { symmetry. apply Z.mod_mod_divide. by exists 60%Z. }
    pose proof (Z.div_mod distance 86400000 ltac:(lia)).
    pose proof (Z.mod_pos_bound distance 86400000 ltac:(lia)).
    pose proof (Z.div_mod distance 1000 ltac:(lia)).
    pose proof (Z.mod_pos_bound distance 1000 ltac:(lia)).
    pose proof (Z.div_mod (distance mod 86400000) 3600000 ltac:(lia)).
    pose proof (Z.mod_pos_bound (distance mod 86400000) 3600000 ltac:(lia)).
    pose proof (Z.div_mod (distance mod 3600000) 60000 ltac:(lia)).
    pose proof (Z.mod_pos_bound (distance mod 3600000) 60000 ltac:(lia)).
    pose proof (Z.div_mod (distance mod 60000) 1000 ltac:(lia)).
    pose proof (Z.mod_pos_bound (distance mod 60000) 1000 ltac:(lia)).
    repeat split; try done; lia.
  - intros Hlt. unfold countdownTick. by rewrite (proj2 (Z.ltb_lt _ 0)) by lia.
Qed.

Lemma countdown_splits_remaining_seconds_witness :
  countdownParts 93784999 = (1, 2, 3, 4)%Z
  /\ snd (countdownTick 93784999 0) = false
  /\ countdownTick 0 1 = ("EXPIRED", true).
Proof.
  split; [reflexivity|].
  pose proof (countdown_splits_remaining_seconds 93784999 0) as [Hrunning _].
  pose proof (countdown_splits_remaining_seconds 0 1) as [_ Hexpired].
  split.
  - exact (proj2 (proj2 (proj2 (proj2 (proj2 (Hrunning ltac:(lia))))))).
  - apply Hexpired. lia.
Defined.

End CountdownFacts.
